(** * EnergyFlow: multigraph generation and jet grooming

    A shallow embedding of [energyflow/multigraphs/gen.py] (the classes
    [PrimeGenerator], [CompositeGenerator] and [Generator]) and of
    [softdrop] from [energyflow/utils/fastjet_utils.py].

    Python integers are [Z]; lists and tuples are [list]; a [dict] is a
    [gmap]; an exception is [None] in the option monad. *)

From Stdlib Require Import QArith Lqa.
From stdpp Require Import gmap list sorting.

Local Open Scope Z_scope.

(** ** Python builtins and itertools *)

(** [range(lo, hi)]. *)
Definition range (lo hi : Z) : list Z :=
  (λ i : nat, lo + Z.of_nat i) <$> seq 0 (Z.to_nat (hi - lo)).

(** [sum(xs)]. *)
Definition sum (xs : list Z) : Z := foldr Z.add 0 xs.

(** [max(xs)]: raises [ValueError] on an empty sequence. *)
Definition py_max (xs : list Z) : option Z :=
  match xs with
  | [] => None
  | x :: xs' => Some (foldl Z.max x xs')
  end.

(** [for x in xs: s = body(s, x)], where the body may raise. *)
Fixpoint for_each {A S : Type} (xs : list A) (body : S → A → option S) (s : S)
  : option S :=
  match xs with
  | [] => Some s
  | x :: xs' => s' ← body s x; for_each xs' body s'
  end.

(** [sorted(xs)] for a total preorder given as a boolean test: a stable
    insertion sort. *)
Section sorted.
  Context {A : Type} (leb : A → A → bool).

Fixpoint insert_sorted (x : A) (l : list A) : list A :=
  match l with
  | [] => [x]
  | y :: l' => if leb x y then x :: l else y :: insert_sorted x l'
  end.

Definition sorted (l : list A) : list A := foldr insert_sorted [] l.

End sorted.

(** Python's lexicographic order on tuples of integers. *)
Definition pair_leb (a b : Z * Z) : bool :=
  (a.1 <? b.1) || ((a.1 =? b.1) && (a.2 <=? b.2)).

Definition triple_leb (a b : Z * Z * Z) : bool :=
  let '(a1, a2, a3) := a in
  let '(b1, b2, b3) := b in
  (a1 <? b1) || ((a1 =? b1) && ((a2 <? b2) || ((a2 =? b2) && (a3 <=? b3)))).

Fixpoint list_leb {A : Type} (lt eq : A → A → bool) (a b : list A) : bool :=
  match a, b with
  | [], _ => true
  | _ :: _, [] => false
  | x :: a', y :: b' => lt x y || (eq x y && list_leb lt eq a' b')
  end.

(** [itertools.combinations(range(n), 2)]. *)
Definition combinations2 (n : Z) : list (Z * Z) :=
  i ← range 0 n; (λ j, (i, j)) <$> range (i + 1) n.

(** [itertools.permutations(xs)]: the element at each position in turn,
    followed by the permutations of the others. *)
Fixpoint permutations_fuel {A : Type} (fuel : nat) (xs : list A) : list (list A) :=
  match fuel with
  | O => [[]]
  | S fuel' =>
      i ← seq 0 (length xs);
      match xs !! i with
      | Some x => (x ::.) <$> permutations_fuel fuel' (delete i xs)
      | None => []
      end
  end.

Definition permutations {A : Type} (xs : list A) : list (list A) :=
  permutations_fuel (length xs) xs.

(** [itertools.product] of the iterables [xss]: the last position varies
    fastest. *)
Fixpoint product {A : Type} (xss : list (list A)) : list (list A) :=
  match xss with
  | [] => [[]]
  | xs :: xss' => x ← xs; (x ::.) <$> product xss'
  end.

(** A Python [set] built from a list: its distinct elements, here in the
    order of first insertion.  CPython iterates a set in hash-table order;
    the order only permutes rows generated within one block of
    [generate_disconnected]. *)
Fixpoint distinct_from {A : Type} `{EqDecision A} (seen xs : list A) : list A :=
  match xs with
  | [] => []
  | x :: xs' =>
      if bool_decide (x ∈ seen) then distinct_from seen xs'
      else x :: distinct_from (x :: seen) xs'
  end.

Definition py_set {A : Type} `{EqDecision A} (xs : list A) : list A :=
  distinct_from [] xs.

(** ** The graph library (igraph)

    An undirected graph is its vertex count and its edge list in edge-id
    order.  Every edge this program adds names its smaller endpoint
    first, which is also how [get_edgelist] reports an undirected edge. *)
Record Graph := mkGraph { vcount : Z; get_edgelist : list (Z * Z) }.

#[global] Instance Graph_eq_dec : EqDecision Graph.
Proof. solve_decision. Defined.

(** [igraph.Graph.Full(n, directed=False)]. *)
Definition Full (n : Z) : Graph := mkGraph n (combinations2 n).

Definition add_vertices (k : Z) (g : Graph) : Graph :=
  mkGraph (vcount g + k) (get_edgelist g).

Definition add_edges (es : list (Z * Z)) (g : Graph) : Graph :=
  mkGraph (vcount g) (get_edgelist g ++ es).

(** [strength(weights=ws)]: for each vertex the total weight of the edge
    ends that meet it. *)
Definition strength_at (g : Graph) (ws : list Z) (v : Z) : Z :=
  sum ((λ ew : Z * Z * Z,
          let '(a, b, w) := ew in
          (if bool_decide (a = v) then w else 0) +
          (if bool_decide (b = v) then w else 0))
       <$> zip (get_edgelist g) ws).

Definition strength (g : Graph) (ws : list Z) : list Z :=
  strength_at g ws <$> range 0 (vcount g).

(** [degree()] is the strength under unit weights; [maxdegree()] its
    largest value. *)
Definition degree (g : Graph) : list Z :=
  strength g ((λ _, 1) <$> get_edgelist g).

Definition maxdegree (g : Graph) : Z := foldr Z.max 0 (degree g).

(** ** PrimeGenerator *)

(** The seven containers [simple_graphs_d], [edges_d], [chis_d], [vs_d],
    [einpaths_d], [einstrs_d] and [weights_d] are dictionaries over one
    and the same key set, the pairs [(n, e)]; the model keeps one
    dictionary from [(n, e)] to the seven lists stored under that key. *)
Record Bucket {EinStr EinPath : Type} := mkBucket {
  simple_graphs_d : list Graph;
  edges_d : list (list (Z * Z));
  chis_d : list Z;
  vs_d : list Z;
  einpaths_d : list EinPath;
  einstrs_d : list EinStr;
  weights_d : list (list (list Z));
}.
Arguments Bucket : clear implicits.
Arguments mkBucket {_ _}.

(** One row of the spec table; the fields are named after the column
    indices [n_ind], ..., [p_ind] of [cols]. *)
Record Spec := mkSpec {
  n_ind : Z; e_ind : Z; d_ind : Z; v_ind : Z; k_ind : Z;
  g_ind : Z; w_ind : Z; c_ind : Z; p_ind : Z;
}.

#[global] Instance Spec_eq_dec : EqDecision Spec.
Proof. solve_decision. Defined.

Section PrimeGenerator.
  Context {EinStr EinPath : Type}.
  (** [VariableElimination]: [run(edges, n)] followed by reading [chi],
      respectively by [einspecs()]. *)
  Variable ve_chi : list (Z * Z) → Z → Z.
  Variable ve_einspecs : list (Z * Z) → Z → EinStr * EinPath.
  (** [Graph.isomorphic(other)] and
      [Graph.isomorphic_vf2(other=self, edge_color1, edge_color2)]. *)
  Variable isomorphic : Graph → Graph → bool.
  Variable isomorphic_vf2 : Graph → list Z → list Z → bool.
  (** [energyflow.algorithms.int_partition_ordered(d, e)]. *)
  Variable int_partition_ordered : Z → Z → list (list Z).
  (** The budgets, after [__init__] has filled in the defaults. *)
  Variables dmax nmax emax cmax vmax : Z.

  Abbreviation Bucket := (Bucket EinStr EinPath).
  Abbreviation Containers := (gmap (Z * Z) Bucket).

(** [self.ns], [self.emaxs[n]], [self.esbyn[n]] and [self.dmaxs[(n,e)]].
    The three dictionaries are comprehensions over [ns] that are never
    updated and only read at keys they hold. *)
Definition ns : list Z := range 2 (nmax + 1).

Definition emaxs (n : Z) : Z := Z.min emax (n * (n - 1) / 2).

Definition esbyn (n : Z) : list Z := range (n - 1) (emaxs n + 1).

Definition dmaxs (ne : Z * Z) : Z := dmax.

Definition keys : list (Z * Z) := n ← ns; (λ e, (n, e)) <$> esbyn n.

Definition empty_bucket : Bucket := mkBucket [] [] [] [] [] [] [].

Definition init_containers : Containers :=
  list_to_map ((λ ne, (ne, empty_bucket)) <$> keys).

Definition base_edges (n : Z) : list (Z * Z) := combinations2 n.

Definition _add_if_new (st : Containers) (new_graph : Graph) (ne : Z * Z)
  : option Containers :=
  b ← st !! ne;
  if existsb (λ graph, isomorphic new_graph graph) (simple_graphs_d b) then Some st
  else
    let new_edges := get_edgelist new_graph in
    let chi := ve_chi new_edges ne.1 in
    if bool_decide (chi > cmax) then Some st
    else
      let maxv := maxdegree new_graph in
      if bool_decide (maxv > vmax) then Some st
      else
        let einspecs := ve_einspecs new_edges ne.1 in
        Some (<[ne := mkBucket (simple_graphs_d b ++ [new_graph])
                               (edges_d b ++ [new_edges])
                               (chis_d b ++ [chi])
                               (vs_d b ++ [maxv])
                               (einpaths_d b ++ [einspecs.2])
                               (einstrs_d b ++ [einspecs.1])
                               (weights_d b)]> st).

Definition _edge_filter (n : Z) (edges : list (Z * Z)) : list (Z * Z) :=
  filter (λ edge, edge ∉ edges) (base_edges n).

Definition attach_vertex (seed_graph : Graph) (v n : Z) : Graph :=
  add_edges [(v, n - 1)] (add_vertices 1 seed_graph).

Definition grow_by_vertex (n e : Z) (st : Containers) : option Containers :=
  if bool_decide (e - 1 ∈ esbyn (n - 1)) then
    seeds ← st !! (n - 1, e - 1);
    for_each (simple_graphs_d seeds)
      (λ st seed_graph,
         for_each (range 0 (n - 1))
           (λ st v, _add_if_new st (attach_vertex seed_graph v n) (n, e)) st)
      st
  else Some st.

Definition grow_by_edge (n e : Z) (st : Containers) : option Containers :=
  if bool_decide (e - 1 ∈ esbyn n) then
    seeds ← st !! (n, e - 1);
    for_each (zip (simple_graphs_d seeds) (edges_d seeds))
      (λ st seed,
         for_each (_edge_filter n seed.2)
           (λ st new_edge, _add_if_new st (add_edges [new_edge] seed.1) (n, e)) st)
      st
  else Some st.

Definition generate_simple (st : Containers) : option Containers :=
  st ← _add_if_new st (Full 2) (2, 1);
  for_each (drop 1 ns)
    (λ st n,
       for_each (esbyn n)
         (λ st e, st ← grow_by_vertex n e st; grow_by_edge n e st) st)
    st.

(** The valency test of [generate_weights]; [max] is only evaluated when
    [vmax < dmax]. *)
Definition valency_exceeded (graph : Graph) (part : list Z) : option bool :=
  if bool_decide (vmax < dmax) then
    m ← py_max (strength graph part); Some (bool_decide (m > vmax))
  else Some false.

(** One pass of the loop body over a candidate [part]. *)
Definition try_weighting (graph : Graph) (weightings : list (list Z))
    (part : list Z) : option (list (list Z)) :=
  skip ← valency_exceeded graph part;
  if skip : bool then Some weightings
  else if existsb (λ weighting, isomorphic_vf2 graph weighting part) weightings
       then Some weightings
       else Some (weightings ++ [part]).

(** [parts[(d, e)]] is a memo table of [int_partition_ordered(d, e)]. *)
Definition candidates (n e : Z) : list (list Z) :=
  d ← range e (dmaxs (n, e) + 1); int_partition_ordered d e.

Definition graph_weightings (n e : Z) (graph : Graph) : option (list (list Z)) :=
  for_each (candidates n e) (try_weighting graph) [].

Definition append_weightings (ne : Z * Z) (weightings : list (list Z))
    (st : Containers) : option Containers :=
  b ← st !! ne;
  Some (<[ne := mkBucket (simple_graphs_d b) (edges_d b) (chis_d b) (vs_d b)
                         (einpaths_d b) (einstrs_d b)
                         (weights_d b ++ [weightings])]> st).

Definition generate_weights (st : Containers) : option Containers :=
  st ← append_weightings (2, 1) ((λ d, [d]) <$> range 1 (dmaxs (2, 1) + 1)) st;
  for_each (drop 1 ns)
    (λ st n,
       for_each (esbyn n)
         (λ st e,
            graphs ← st !! (n, e);
            for_each (simple_graphs_d graphs)
              (λ st graph,
                 weightings ← graph_weightings n e graph;
                 append_weightings (n, e) weightings st) st) st)
    st.

(** [__init__] after the budgets are fixed. *)
Definition prime_init : option Containers :=
  st ← generate_simple init_containers; generate_weights st.

(** [zip] of the six per-graph lists of one bucket, as [results] reads
    them; it stops at the shortest. *)
Fixpoint zip_bucket (es : list (list (Z * Z))) (ws : list (list (list Z)))
    (cs vs : list Z) (ss : list EinStr) (ps : list EinPath)
  : list (list (Z * Z) * list (list Z) * Z * Z * EinStr * EinPath) :=
  match es, ws, cs, vs, ss, ps with
  | e :: es', w :: ws', c :: cs', v :: vs', s :: ss', p :: ps' =>
      (e, w, c, v, s, p) :: zip_bucket es' ws' cs' vs' ss' ps'
  | _, _, _, _, _, _ => []
  end.

(** The local variables of [results]. *)
Record ResultsAcc := mkAcc {
  acc_c_specs : list Spec;
  acc_edges : list (list (Z * Z));
  acc_weights : list (list Z);
  acc_einstrs : list EinStr;
  acc_einpaths : list EinPath;
  acc_ks : gmap (Z * Z) Z;
  acc_g : Z;
  acc_w : Z;
}.

Definition results_weighting (n e v chi : Z) (a : ResultsAcc) (weighting : list Z)
  : ResultsAcc :=
  let d := sum weighting in
  let k := default 0 (acc_ks a !! (n, d)) in
  mkAcc (acc_c_specs a ++ [mkSpec n e d v k (acc_g a) (acc_w a) chi 1])
        (acc_edges a) (acc_weights a ++ [weighting])
        (acc_einstrs a) (acc_einpaths a)
        (<[(n, d) := k + 1]> (acc_ks a)) (acc_g a) (acc_w a + 1).

Definition results_graph (n e : Z) (a : ResultsAcc)
    (z : list (Z * Z) * list (list Z) * Z * Z * EinStr * EinPath) : ResultsAcc :=
  let '(edgs, wghts, chi, v, es, ep) := z in
  let a := foldl (results_weighting n e v chi) a wghts in
  mkAcc (acc_c_specs a) (acc_edges a ++ [edgs]) (acc_weights a)
        (acc_einstrs a ++ [es]) (acc_einpaths a ++ [ep])
        (acc_ks a) (acc_g a + 1) (acc_w a).

Definition results_bucket (a : ResultsAcc) (item : Z * Z * Bucket) : ResultsAcc :=
  let '(n, e, b) := item in
  foldl (results_graph n e) a
    (zip_bucket (edges_d b) (weights_d b) (chis_d b) (vs_d b)
                (einstrs_d b) (einpaths_d b)).

(** [sorted(self.edges_d.keys())], each key with the lists stored under it. *)
Definition sorted_items (st : Containers) : list (Z * Z * Bucket) :=
  sorted (λ a b : Z * Z * Bucket, pair_leb a.1 b.1) (map_to_list st).

Definition results (st : Containers) : ResultsAcc :=
  foldl results_bucket (mkAcc [] [] [] [] [] ∅ 0 0) (sorted_items st).

End PrimeGenerator.

(** ** CompositeGenerator *)

(** The [dmaxs] argument: a dictionary, [None], or an integer (any other
    type raises [TypeError]). *)
Inductive dmaxs_arg :=
  | DmaxsDict (m : gmap Z Z)
  | DmaxsNone
  | DmaxsInt (d : Z).

(** [xs[i]] for a Python or numpy sequence: negative indices count from
    the end, anything else out of range raises [IndexError]. *)
Definition py_index {A : Type} (xs : list A) (i : Z) : option A :=
  let len := Z.of_nat (length xs) in
  if bool_decide (0 ≤ i) then xs !! Z.to_nat i
  else if bool_decide (- len ≤ i) then xs !! Z.to_nat (len + i)
  else None.

(** [mask = [not (form in seen or seen.add(form)) for form in forms]]. *)
Fixpoint first_seen_mask {A : Type} `{EqDecision A} (seen forms : list A)
  : list bool :=
  match forms with
  | [] => []
  | form :: forms' =>
      if bool_decide (form ∈ seen) then false :: first_seen_mask seen forms'
      else true :: first_seen_mask (form :: seen) forms'
  end.

(** [np.asarray(xs)[mask]] for a boolean mask. *)
Definition mask_select {A : Type} (mask : list bool) (xs : list A) : list A :=
  snd <$> filter (λ bx : bool * A, bx.1 = true) (zip mask xs).

Section CompositeGenerator.
  (** [energyflow.algorithms.int_partition_unordered(n)]. *)
  Variable int_partition_unordered : Z → list (list Z).

(** The attributes [__init__] sets before it calls
    [generate_disconnected]. *)
Record CompositeState := mkComposite {
  c_specs : list Spec;
  comp_dmaxs : gmap Z Z;
  comp_ns : list Z;
  comp_ks : gmap (Z * Z) Z;
  ndk2w : gmap (Z * Z * Z) Z;
  nmax_avail : Z;
}.

Definition count_spec (acc : gmap (Z * Z) Z * gmap (Z * Z * Z) Z) (spec : Spec)
  : gmap (Z * Z) Z * gmap (Z * Z * Z) Z :=
  let '(n, d, k, w) := (n_ind spec, d_ind spec, k_ind spec, w_ind spec) in
  (<[(n, d) := default 0 (acc.1 !! (n, d)) + 1]> acc.1,
   <[(n, d, k) := w]> acc.2).

Definition composite_init (specs : list Spec) (dmaxs : dmaxs_arg)
  : option CompositeState :=
  dm ← match dmaxs with
       | DmaxsDict m => Some m
       | DmaxsNone =>
           dmax ← py_max (d_ind <$> specs);
           Some (list_to_map ((λ n, (n, dmax)) <$> range 4 (2 * dmax + 1)))
       | DmaxsInt dmax =>
           Some (list_to_map ((λ n, (n, dmax)) <$> range 4 (2 * dmax + 1)))
       end;
  let '(ks, n2w) := foldl count_spec (∅, ∅) specs in
  navail ← py_max (n_ind <$> specs);
  Some (mkComposite specs dm (sorted Z.leb (map_to_list dm).*1) ks n2w navail).

  Variable self : CompositeState.

(** [good_part]: no 1s, no part above [nmax_avail], at least two parts. *)
Definition good_part (x : list Z) : option bool :=
  if bool_decide (1 ∈ x) then Some false
  else m ← py_max x;
       Some (bool_decide (m ≤ nmax_avail self) && bool_decide (1 < length x)%nat).

Definition filter_good (xs : list (list Z)) : option (list (list Z)) :=
  for_each xs (λ acc x, ok ← good_part x; Some (if ok : bool then acc ++ [x] else acc)) [].

Definition n_parts_of (n : Z) : option (list (list Z)) :=
  good ← filter_good (int_partition_unordered n);
  Some (sorted (λ a b : list Z, bool_decide (length a ≤ length b)%nat) good).

(** The set [specs] collected for one [n_part] and the [d_parts]. *)
Definition collect_specs (n_part : list Z) (d_parts : list (list Z))
  : list (list (Z * Z)) :=
  py_set (filter (λ spec : list (Z * Z), Forall (λ pair, is_Some (comp_ks self !! pair)) spec)
            (n_part_ord ← py_set (permutations n_part);
             (λ d_part, sorted pair_leb (zip n_part_ord d_part)) <$> d_parts)).

(** The loop over the factors of one formula: the formula and the
    largest [c], [e] and [v] among the chosen primes. *)
Definition add_factor (acc : list (Z * Z * Z) * Z * Z * Z) (f : Z * Z * Z)
  : option (list (Z * Z * Z) * Z * Z * Z) :=
  let '(formula, cmax, emax, vmax) := acc in
  ind ← ndk2w self !! f;
  row ← py_index (c_specs self) ind;
  Some (formula ++ [f], Z.max cmax (c_ind row), Z.max emax (e_ind row),
        Z.max vmax (v_ind row)).

Definition add_formula (n d : Z) (spec : list (Z * Z))
    (acc : list (list (Z * Z * Z)) * list Spec * Z) (kspec : list Z)
  : option (list (list (Z * Z * Z)) * list Spec * Z) :=
  let '(disc_formulae, disc_specs, kcount) := acc in
  '(formula, cmax, emax, vmax) ←
    for_each (zip spec kspec) add_factor ([], 0, 0, 0);
  Some (disc_formulae ++ [sorted triple_leb formula],
        disc_specs ++ [mkSpec n emax d vmax kcount (-1) (-1) cmax
                              (Z.of_nat (length kspec))],
        kcount + 1).

Definition add_spec (n d : Z) (acc : list (list (Z * Z * Z)) * list Spec)
    (spec : list (Z * Z)) : option (list (list (Z * Z * Z)) * list Spec) :=
  let kcount := default 0 (comp_ks self !! (n, d)) in
  counts ← mapM (λ factor, comp_ks self !! factor) spec;
  '(disc_formulae, disc_specs, _) ←
    for_each (product ((λ c, range 0 c) <$> counts)) (add_formula n d spec)
             (acc.1, acc.2, kcount);
  Some (disc_formulae, disc_specs).

Definition add_n_part (n d : Z) (acc : list (list (Z * Z * Z)) * list Spec)
    (n_part : list Z) : option (list (list (Z * Z * Z)) * list Spec) :=
  let d_parts :=
    filter (λ x : list Z, length x = length n_part) (int_partition_unordered d) in
  if bool_decide (length d_parts = 0%nat) then Some acc
  else for_each (collect_specs n_part d_parts) (add_spec n d) acc.

Definition add_n (acc : list (list (Z * Z * Z)) * list Spec) (n : Z)
  : option (list (list (Z * Z * Z)) * list Spec) :=
  n_parts ← n_parts_of n;
  dmax_n ← comp_dmaxs self !! n;
  for_each (range (Z.quot (n - 1) 2 + 1) (dmax_n + 1))
    (λ acc d, for_each n_parts (add_n_part n d) acc) acc.

(** [generate_disconnected], returning what [results()] returns:
    [(disc_specs, disc_formulae)]. *)
Definition generate_disconnected : option (list Spec * list (list (Z * Z * Z))) :=
  '(disc_formulae, disc_specs) ← for_each (comp_ns self) add_n ([], []);
  let mask := first_seen_mask [] disc_formulae in
  Some (mask_select mask disc_specs, mask_select mask disc_formulae).

End CompositeGenerator.

(** ** Generator *)

(** What a [Generator] holds after [__init__]. *)
Record GeneratorState {EinStr EinPath : Type} := mkGenerator {
  gen_c_specs : list Spec;
  gen_edges : list (list (Z * Z));
  gen_weights : list (list Z);
  gen_einstrs : list EinStr;
  gen_einpaths : list EinPath;
  disc_specs : list Spec;
  disc_formulae : list (list (Z * Z * Z));
}.
Arguments GeneratorState : clear implicits.
Arguments mkGenerator {_ _}.

(** The [specs] property: primes followed by composites. *)
Definition specs {EinStr EinPath : Type} (gen : GeneratorState EinStr EinPath)
  : list Spec :=
  if bool_decide (length (disc_specs gen) ≠ 0%nat)
  then gen_c_specs gen ++ disc_specs gen
  else gen_c_specs gen.

Section Generator.
  Context {EinStr EinPath : Type}.
  Variable ve_chi : list (Z * Z) → Z → Z.
  Variable ve_einspecs : list (Z * Z) → Z → EinStr * EinPath.
  Variable isomorphic : Graph → Graph → bool.
  Variable isomorphic_vf2 : Graph → list Z → list Z → bool.
  Variable int_partition_ordered : Z → Z → list (list Z).
  Variable int_partition_unordered : Z → list (list Z).

(** The defaults of [PrimeGenerator.__init__]. *)
Definition nmax_of (dmax : Z) (nmax : option Z) : Z := default (dmax + 1) nmax.
Definition emax_of (dmax : Z) (emax : option Z) : Z := default dmax emax.
Definition cmax_of (dmax : Z) (nmax cmax : option Z) : Z :=
  default (nmax_of dmax nmax) cmax.
Definition vmax_of (dmax : Z) (vmax : option Z) : Z := default dmax vmax.

Definition PrimeGenerator (dmax : Z) (nmax emax cmax vmax : option Z)
  : option (gmap (Z * Z) (Bucket EinStr EinPath)) :=
  prime_init ve_chi ve_einspecs isomorphic isomorphic_vf2 int_partition_ordered
    dmax (nmax_of dmax nmax) (emax_of dmax emax) (cmax_of dmax nmax cmax)
    (vmax_of dmax vmax).

Definition CompositeGenerator (c_specs : list Spec) (dmaxs : dmaxs_arg)
  : option (list Spec * list (list (Z * Z * Z))) :=
  self ← composite_init c_specs dmaxs;
  generate_disconnected int_partition_unordered self.

Definition Generator (dmax : Z) (nmax emax cmax vmax : option Z)
    (comp_dmaxs : dmaxs_arg) : option (GeneratorState EinStr EinPath) :=
  st ← PrimeGenerator dmax nmax emax cmax vmax;
  let pr := results st in
  '(disc_specs, disc_formulae) ← CompositeGenerator (acc_c_specs pr) comp_dmaxs;
  Some (mkGenerator (acc_c_specs pr) (acc_edges pr) (acc_weights pr)
                    (acc_einstrs pr) (acc_einpaths pr) disc_specs disc_formulae).

End Generator.

(** ** Reference instances of the collaborators *)

(** Graph isomorphism by canonical form: the least relabelled, sorted
    list of coloured edges over all vertex permutations.  This is what
    [isomorphic] and [isomorphic_vf2] of the graph library decide. *)
Definition relabel (π : list Z) (e : Z * Z * Z) : Z * Z * Z :=
  let a := default 0 (π !! Z.to_nat e.1.1) in
  let b := default 0 (π !! Z.to_nat e.1.2) in
  (Z.min a b, Z.max a b, e.2).

Definition triple_ltb (a b : Z * Z * Z) : bool := negb (triple_leb b a).
Definition triple_eqb (a b : Z * Z * Z) : bool := bool_decide (a = b).

Definition least_form (forms : list (list (Z * Z * Z))) : list (Z * Z * Z) :=
  match forms with
  | [] => []
  | f :: fs => foldl (λ m x, if list_leb triple_ltb triple_eqb x m then x else m) f fs
  end.

Definition canonical_form (g : Graph) (colors : list Z) : list (Z * Z * Z) :=
  least_form ((λ π, sorted triple_leb (relabel π <$> zip (get_edgelist g) colors))
              <$> permutations (range 0 (vcount g))).

Definition canon_isomorphic_vf2 (g : Graph) (color1 color2 : list Z) : bool :=
  bool_decide (canonical_form g color1 = canonical_form g color2).

Definition canon_isomorphic (g h : Graph) : bool :=
  bool_decide (vcount g = vcount h ∧
               canonical_form g ((λ _, 0) <$> get_edgelist g) =
               canonical_form h ((λ _, 0) <$> get_edgelist h)).

(** Modelled from the spec: [int_partition_ordered] of
    [energyflow.algorithms], a module that is not among the sources.
    "All ordered integer partitions of [d] into exactly [e] positive
    parts." *)
Fixpoint compositions (e : nat) (d : Z) : list (list Z) :=
  match e with
  | O => if bool_decide (d = 0) then [[]] else []
  | S e' => x ← range 1 (d + 1); (x ::.) <$> compositions e' (d - x)
  end.

Definition spec_int_partition_ordered (d e : Z) : list (list Z) :=
  if bool_decide (0 ≤ e) then compositions (Z.to_nat e) d else [].

(** Modelled from the spec: [int_partition_unordered] of
    [energyflow.algorithms], a module that is not among the sources.
    "Unordered integer partitions of [n]": each multiset of positive
    parts once, here largest part first. *)
Fixpoint partitions_upto (fuel : nat) (n m : Z) : list (list Z) :=
  match fuel with
  | O => if bool_decide (n = 0) then [[]] else []
  | S fuel' =>
      if bool_decide (n = 0) then [[]]
      else x ← reverse (range 1 (Z.min n m + 1));
           (x ::.) <$> partitions_upto fuel' (n - x) x
  end.

Definition spec_int_partition_unordered (n : Z) : list (list Z) :=
  partitions_upto (Z.to_nat n) n n.

(** ** Concrete runs *)

(** A stand-in for [VariableElimination]: complexity 2 for every graph,
    and no plan worth the name. *)
Definition chi_two (edges : list (Z * Z)) (n : Z) : Z := 2.
Definition no_einspecs (edges : list (Z * Z)) (n : Z) : unit * unit := (tt, tt).

(** [Generator] with the reference graph library and partitions. *)
Definition reference_Generator {EinStr EinPath : Type}
    (ve_chi : list (Z * Z) → Z → Z)
    (ve_einspecs : list (Z * Z) → Z → EinStr * EinPath) :=
  Generator ve_chi ve_einspecs canon_isomorphic canon_isomorphic_vf2
            spec_int_partition_ordered spec_int_partition_unordered.

Definition reference_PrimeGenerator :=
  PrimeGenerator chi_two no_einspecs canon_isomorphic canon_isomorphic_vf2
                 spec_int_partition_ordered.

(** Scenario 1 as the claim words it: two prime rows, both of the
    single edge, with [d = 1] and [d = 2], and no composite row. *)
Definition scenario1_claimed {EinStr EinPath : Type}
    (gen : GeneratorState EinStr EinPath) : Prop :=
  (λ row, (n_ind row, e_ind row, d_ind row)) <$> gen_c_specs gen
  = [(2, 1, 1); (2, 1, 2)] ∧
  disc_specs gen = [].

(** Scenario 1 as the code runs it, for complexities [c1] of the single
    edge and [c2] of the two-edge path. *)
Definition scenario1_outcome {EinStr EinPath : Type} (c1 c2 : Z)
    (gen : GeneratorState EinStr EinPath) : Prop :=
  gen_c_specs gen = [mkSpec 2 1 1 1 0 0 0 c1 1;
                     mkSpec 2 1 2 1 0 0 1 c1 1;
                     mkSpec 3 2 2 2 0 1 2 c2 1] ∧
  gen_edges gen = [[(0, 1)]; [(0, 1); (0, 2)]] ∧
  gen_weights gen = [[1]; [2]; [1; 1]] ∧
  disc_specs gen = [mkSpec 4 1 2 1 0 (-1) (-1) (Z.max 0 c1) 2] ∧
  disc_formulae gen = [[(2, 1, 0); (2, 1, 0)]].

(** The prime table of [Generator(dmax=2)] under [chi_two]. *)
Definition dmax2_primes : list Spec :=
  [mkSpec 2 1 1 1 0 0 0 2 1; mkSpec 2 1 2 1 0 0 1 2 1; mkSpec 3 2 2 2 0 1 2 2 1].

(** ** FastJet utilities: softdrop *)

(** A [fastjet.PseudoJet] of a clustering: an input particle, or the
    merger of two parents ([has_parents] answers whether it is one and
    fills the two).  Each carries its transverse momentum, rapidity and
    azimuth.  Floating-point numbers are modelled by rationals. *)
Inductive PseudoJet :=
  | Particle (pt rap phi : Q)
  | Merged (pt rap phi : Q) (parent1 parent2 : PseudoJet).

Definition pt (jet : PseudoJet) : Q :=
  match jet with Particle p _ _ | Merged p _ _ _ _ => p end.

Definition has_parents (jet : PseudoJet) : option (PseudoJet * PseudoJet) :=
  match jet with
  | Particle _ _ _ => None
  | Merged _ _ _ parent1 parent2 => Some (parent1, parent2)
  end.

(** Python's [min(a, b)]: [b] when [b < a], else [a]. *)
Definition py_min (a b : Q) : Q := if Qle_bool a b then a else b.

Section softdrop.
  (** [parent1.delta_R(parent2)] and the float power [x ** beta]. *)
  Variable delta_R : PseudoJet → PseudoJet → Q.
  Variable float_pow : Q → Q → Q.

(** The right-hand side of the test: [zcut] itself when [beta == 0];
    dividing by [R == 0] raises. *)
Definition softdrop_threshold (parent1 parent2 : PseudoJet) (zcut beta R : Q)
  : option Q :=
  if Qeq_bool beta 0 then Some zcut
  else if Qeq_bool R 0 then None
  else Some (zcut * float_pow (delta_R parent1 parent2 / R) beta)%Q.

Fixpoint softdrop (jet : PseudoJet) (zcut beta R : Q) : option PseudoJet :=
  match jet with
  | Particle _ _ _ => Some jet
  | Merged _ _ _ parent1 parent2 =>
      let pt1 := pt parent1 in
      let pt2 := pt parent2 in
      if Qeq_bool (pt1 + pt2) 0 then None
      else
        let z := (py_min pt1 pt2 / (pt1 + pt2))%Q in
        match softdrop_threshold parent1 parent2 zcut beta R with
        | None => None
        | Some thr =>
            if Qle_bool thr z then Some jet
            else softdrop (if Qle_bool pt2 pt1 then parent1 else parent2)
                          zcut beta R
        end
  end.

End softdrop.

(** The softdrop condition as the docstring states it, for the two
    parents of a jet: [min(pt1,pt2)/(pt1+pt2) > thr], strictly. *)
Definition softdrop_condition (parent1 parent2 : PseudoJet) (thr : Q) : Prop :=
  (thr < py_min (pt parent1) (pt parent2) / (pt parent1 + pt parent2))%Q.

(** * Properties *)

(** ** Loops and sorting *)

Lemma for_each_inv {A S : Type} (P : S → Prop) (xs : list A)
    (body : S → A → option S) (s s' : S) :
  P s →
  (∀ s x s', P s → x ∈ xs → body s x = Some s' → P s') →
  for_each xs body s = Some s' → P s'.
Proof.
  revert s. induction xs as [|x xs IH]; simpl; intros s Hs Hbody Hrun.
  - by simplify_eq.
  - destruct (body s x) as [s1|] eqn:Hx; simplify_eq/=.
    apply (IH s1); [by eapply Hbody; [|left|] | | done].
    intros s2 y s3 H2 Hy. eapply Hbody; [done | by right].
Qed.

(** The same with the invariant indexed by the part of the list already
    visited. *)
Lemma for_each_inv_prefix {A S : Type} (P : list A → S → Prop) (xs : list A)
    (body : S → A → option S) (s s' : S) :
  P [] s →
  (∀ pre x s s', P pre s → (pre ++ [x]) `prefix_of` xs →
                 body s x = Some s' → P (pre ++ [x]) s') →
  for_each xs body s = Some s' → P xs s'.
Proof.
  intros H0 Hbody.
  cut (∀ done todo s, P done s → done ++ todo = xs →
                      for_each todo body s = Some s' → P xs s').
  { intros Hcut. by apply (Hcut [] xs s). }
  intros done todo. revert done.
  induction todo as [|x todo IH]; simpl; intros done s0 Hs Hsplit Hrun.
  - rewrite app_nil_r in Hsplit. by simplify_eq.
  - destruct (body s0 x) as [s1|] eqn:Hx; simplify_eq/=.
    apply (IH (done ++ [x]) s1); [| by rewrite <-app_assoc | done].
    eapply Hbody; [done | | done].
    exists todo. by rewrite <-app_assoc.
Qed.

Lemma for_each_nil {A S : Type} (body : S → A → option S) (s : S) :
  for_each [] body s = Some s.
Proof. done. Qed.

Lemma elem_of_range (lo hi x : Z) : x ∈ range lo hi ↔ lo ≤ x < hi.
Proof.
  unfold range. rewrite list_elem_of_fmap. split.
  - intros (i & -> & Hi). apply elem_of_seq in Hi. lia.
  - intros Hx. exists (Z.to_nat (x - lo)). split; [lia|].
    apply elem_of_seq. lia.
Qed.

Section sorted_lemmas.
  Context {A : Type} (leb : A → A → bool).

Lemma insert_sorted_perm (x : A) (l : list A) : insert_sorted leb x l ≡ₚ x :: l.
Proof.
  induction l as [|y l IH]; simpl; [done|].
  destruct (leb x y); [done|]. rewrite IH. apply Permutation_swap.
Qed.

Lemma sorted_perm (l : list A) : sorted leb l ≡ₚ l.
Proof.
  induction l as [|x l IH]; simpl; [done|].
  unfold sorted in *. simpl. by rewrite insert_sorted_perm, IH.
Qed.

Lemma elem_of_sorted (x : A) (l : list A) : x ∈ sorted leb l ↔ x ∈ l.
Proof. by rewrite sorted_perm. Qed.

Lemma length_sorted (l : list A) : length (sorted leb l) = length l.
Proof. by rewrite sorted_perm. Qed.

  Hypothesis leb_total : ∀ x y, leb x y = false → leb y x = true.
  Hypothesis leb_trans : ∀ x y z, leb x y = true → leb y z = true → leb x z = true.

(** [ascending l]: every element is below all the later ones. *)
Fixpoint ascending (l : list A) : Prop :=
  match l with
  | [] => True
  | x :: l' => Forall (λ y, leb x y = true) l' ∧ ascending l'
  end.

Lemma insert_sorted_ascending (x : A) (l : list A) :
  ascending l → ascending (insert_sorted leb x l).
Proof using leb_total leb_trans.
  induction l as [|y l IH]; simpl; [done|].
  intros [Hy Hl]. destruct (leb x y) eqn:Hxy; simpl.
  - repeat split; [|done..]. constructor; [done|].
    eapply Forall_impl; [exact Hy|]. intros z Hz. by eapply leb_trans.
  - split; [|by apply IH].
    rewrite insert_sorted_perm. constructor; [by apply leb_total | done].
Qed.

Lemma sorted_ascending (l : list A) : ascending (sorted leb l).
Proof using leb_total leb_trans.
  induction l as [|x l IH]; [done|]. by apply insert_sorted_ascending.
Qed.

Lemma sorted_of_ascending (l : list A) : ascending l → sorted leb l = l.
Proof.
  induction l as [|x l IH]; [done|]. intros [Hx Hl].
  unfold sorted in *. simpl. rewrite (IH Hl).
  destruct l as [|y l]; [done|]. simpl.
  by rewrite (Forall_inv Hx).
Qed.

Lemma sorted_idemp (l : list A) : sorted leb (sorted leb l) = sorted leb l.
Proof using leb_total leb_trans. apply sorted_of_ascending, sorted_ascending. Qed.

End sorted_lemmas.

Lemma triple_leb_total (x y : Z * Z * Z) :
  triple_leb x y = false → triple_leb y x = true.
Proof.
  destruct x as [[x1 x2] x3], y as [[y1 y2] y3]. unfold triple_leb.
  rewrite !orb_false_iff, !andb_false_iff, !orb_true_iff, !andb_true_iff.
  rewrite !orb_false_iff, !andb_false_iff, !orb_true_iff, !andb_true_iff.
  rewrite !Z.ltb_lt, !Z.ltb_ge, !Z.eqb_eq, !Z.eqb_neq, !Z.leb_le, !Z.leb_gt. lia.
Qed.

Lemma triple_leb_trans (x y z : Z * Z * Z) :
  triple_leb x y = true → triple_leb y z = true → triple_leb x z = true.
Proof.
  destruct x as [[x1 x2] x3], y as [[y1 y2] y3], z as [[z1 z2] z3].
  unfold triple_leb.
  rewrite !orb_true_iff, !andb_true_iff, !orb_true_iff, !andb_true_iff.
  rewrite !Z.ltb_lt, !Z.eqb_eq, !Z.leb_le. lia.
Qed.

(** ** softdrop *)

(** What the code does at a merged jet: it stops there as soon as the
    threshold is at most [z]. *)
Lemma softdrop_stops (delta_R : PseudoJet → PseudoJet → Q)
    (float_pow : Q → Q → Q) (p r f zcut beta R thr : Q) (parent1 parent2 : PseudoJet) :
  Qeq_bool (pt parent1 + pt parent2) 0 = false →
  softdrop_threshold delta_R float_pow parent1 parent2 zcut beta R = Some thr →
  (thr <= py_min (pt parent1) (pt parent2) / (pt parent1 + pt parent2))%Q →
  softdrop delta_R float_pow (Merged p r f parent1 parent2) zcut beta R
  = Some (Merged p r f parent1 parent2).
Proof.
  intros Hsum Hthr Hle. simpl. rewrite Hsum, Hthr.
  apply Qle_bool_iff in Hle. by rewrite Hle.
Qed.

(** C4 (the code departs from the claim): for a jet whose two parents
    carry the same transverse momentum, with [zcut = 1/2] and [beta = 0],
    [z] equals the threshold exactly.  [softdrop] returns the jet itself,
    although the softdrop condition with strict inequality does not hold
    and the jet has parents. *)
Theorem softdrop_returns_jet_at_equality (delta_R : PseudoJet → PseudoJet → Q)
    (float_pow : Q → Q → Q) (R : Q) :
  let parent := Particle 1 0 0 in
  let jet := Merged 2 0 0 parent parent in
  softdrop delta_R float_pow jet (1 # 2) 0 R = Some jet ∧
  has_parents jet = Some (parent, parent) ∧
  ¬ softdrop_condition parent parent (1 # 2).
Proof.
  intros parent jet. split; [|split].
  - reflexivity.
  - reflexivity.
  - unfold softdrop_condition. vm_compute. intros H. discriminate H.
Qed.

(** ** Weighting search: the valency test *)

Section valency_test.
  Variable isomorphic_vf2 : Graph → list Z → list Z → bool.
  Variable int_partition_ordered : Z → Z → list (list Z).
  Variables dmax vmax : Z.

(** The loop body without any weighted-degree test: a candidate is kept
    unless it is isomorphic to a weighting kept before. *)
Definition isomorphism_only (graph : Graph) (weightings : list (list Z))
    (part : list Z) : list (list Z) :=
  if existsb (λ weighting, isomorphic_vf2 graph weighting part) weightings
  then weightings else weightings ++ [part].

Lemma valency_exceeded_loose (graph : Graph) (part : list Z) :
  dmax ≤ vmax → valency_exceeded dmax vmax graph part = Some false.
Proof. intros H. unfold valency_exceeded. by rewrite bool_decide_eq_false_2 by lia. Qed.

Lemma try_weighting_loose (graph : Graph) (weightings : list (list Z)) (part : list Z) :
  dmax ≤ vmax →
  try_weighting isomorphic_vf2 dmax vmax graph weightings part
  = Some (isomorphism_only graph weightings part).
Proof.
  intros H. unfold try_weighting, isomorphism_only.
  rewrite valency_exceeded_loose by done. simpl.
  by destruct (existsb _ _).
Qed.

Lemma for_each_total {A S : Type} (f : S → A → S) (body : S → A → option S)
    (xs : list A) (s : S) :
  (∀ s x, body s x = Some (f s x)) → for_each xs body s = Some (foldl f s xs).
Proof.
  intros Hbody. revert s. induction xs as [|x xs IH]; intros s; simpl; [done|].
  rewrite Hbody. simpl. apply IH.
Qed.

(** C9: a candidate is skipped by the valency test only when
    [vmax < dmax] (and then because its largest weighted degree exceeds
    [vmax]); when [vmax >= dmax], and so under the default [vmax = dmax],
    the test rejects nothing: each pass of the loop, and so the whole
    search for a graph, is the isomorphism-only filter. *)
Theorem valency_rejection_only_when_tighter :
  (∀ graph part,
     valency_exceeded dmax vmax graph part = Some true →
     vmax < dmax ∧ ∃ m, py_max (strength graph part) = Some m ∧ vmax < m) ∧
  (∀ graph part, valency_exceeded dmax (vmax_of dmax None) graph part = Some false) ∧
  (dmax ≤ vmax →
   ∀ graph part, valency_exceeded dmax vmax graph part = Some false) ∧
  (dmax ≤ vmax →
   ∀ graph weightings part,
     try_weighting isomorphic_vf2 dmax vmax graph weightings part
     = Some (isomorphism_only graph weightings part)) ∧
  (dmax ≤ vmax →
   ∀ n e graph,
     graph_weightings isomorphic_vf2 int_partition_ordered dmax vmax n e graph
     = Some (foldl (isomorphism_only graph) []
                   (candidates int_partition_ordered dmax n e))).
Proof.
  split; [|split; [|split; [|split]]].
  - intros graph part. unfold valency_exceeded.
    case_bool_decide as Hlt; [|done].
    destruct (py_max _) as [m|] eqn:Hm; simpl; [|done].
    intros [= Hgt%bool_decide_eq_true]. split; [done|]. exists m. split; [done | lia].
  - intros graph part. unfold valency_exceeded, vmax_of. simpl.
    by rewrite bool_decide_eq_false_2 by lia.
  - intros H graph part. by apply valency_exceeded_loose.
  - intros H graph weightings part. by apply try_weighting_loose.
  - intros H n e graph. unfold graph_weightings.
    apply for_each_total. intros ws part. by apply try_weighting_loose.
Qed.

End valency_test.

(** ** CompositeGenerator: the rows and formulae it builds *)

Section composite_rows.
  Variable int_partition_unordered : Z → list (list Z).
  Variable self : CompositeState.
  (** What is known of [(n, d)] wherever a row is appended. *)
  Variable good_nd : Z → Z → Prop.

(** The two tables grow together, a stored formula is sorted, and a
    row carries the [n] and [d] of the loops that built it. *)
Definition tables_ok (acc : list (list (Z * Z * Z)) * list Spec) : Prop :=
  length acc.1 = length acc.2 ∧
  Forall (λ form, sorted triple_leb form = form) acc.1 ∧
  Forall (λ row, good_nd (n_ind row) (d_ind row)) acc.2.

Lemma add_formula_ok (n d : Z) (spec : list (Z * Z))
    (acc acc' : list (list (Z * Z * Z)) * list Spec * Z) (kspec : list Z) :
  good_nd n d → tables_ok acc.1 →
  add_formula self n d spec acc kspec = Some acc' → tables_ok acc'.1.
Proof.
  intros Hnd (Hlen & Hsorted & Hrows). unfold add_formula.
  destruct acc as [[forms rows] kcount]. simpl in *.
  destruct (for_each _ _ _) as [[[[formula cm] em] vm]|]; simpl; [|done].
  intros [= <-]. unfold tables_ok. simpl. split; [|split].
  - rewrite !length_app. simpl. lia.
  - apply Forall_app. split; [done|]. constructor; [|done].
    apply sorted_idemp; [apply triple_leb_total | apply triple_leb_trans].
  - apply Forall_app. split; [done|]. by constructor.
Qed.

Lemma add_spec_ok (n d : Z) (acc acc' : list (list (Z * Z * Z)) * list Spec)
    (spec : list (Z * Z)) :
  good_nd n d → tables_ok acc →
  add_spec self n d acc spec = Some acc' → tables_ok acc'.
Proof.
  intros Hnd Hacc. unfold add_spec.
  destruct (mapM _ _) as [counts|]; simpl; [|done].
  destruct (for_each _ _ _) as [[[forms rows] kcount]|] eqn:Hrun; simpl; [|done].
  intros [= <-].
  apply (for_each_inv (λ a, tables_ok a.1)) in Hrun; [done | done |].
  intros a kspec a' Ha _. by apply add_formula_ok.
Qed.

Lemma add_n_part_ok (n d : Z) (acc acc' : list (list (Z * Z * Z)) * list Spec)
    (n_part : list Z) :
  good_nd n d → tables_ok acc →
  add_n_part int_partition_unordered self n d acc n_part = Some acc' →
  tables_ok acc'.
Proof.
  intros Hnd Hacc. unfold add_n_part. case_bool_decide; [by intros [= <-]|].
  apply for_each_inv; [done|]. intros a spec a' Ha _. by apply add_spec_ok.
Qed.

Lemma add_n_ok (acc acc' : list (list (Z * Z * Z)) * list Spec) (n : Z) :
  (∀ n_parts n_part dmax_n d,
     n_parts_of int_partition_unordered self n = Some n_parts →
     n_part ∈ n_parts → comp_dmaxs self !! n = Some dmax_n →
     d ∈ range (Z.quot (n - 1) 2 + 1) (dmax_n + 1) → good_nd n d) →
  tables_ok acc →
  add_n int_partition_unordered self acc n = Some acc' → tables_ok acc'.
Proof.
  intros Hnd Hacc. unfold add_n.
  destruct (n_parts_of _ _ _) as [n_parts|] eqn:Hparts; simpl; [|done].
  destruct (comp_dmaxs self !! n) as [dmax_n|] eqn:Hdmax; simpl; [|done].
  apply for_each_inv; [done|]. intros a d a' Ha Hd.
  apply for_each_inv; [done|]. intros a1 n_part a2 Ha1 Hpart.
  apply add_n_part_ok; [|done]. by eapply Hnd.
Qed.

Lemma mask_select_cons {A : Type} (b : bool) (mask : list bool) (x : A) (xs : list A) :
  mask_select (b :: mask) (x :: xs)
  = if b then x :: mask_select mask xs else mask_select mask xs.
Proof. by destruct b. Qed.

Lemma first_seen_mask_select {A : Type} `{EqDecision A} (seen forms : list A) :
  NoDup (mask_select (first_seen_mask seen forms) forms) ∧
  (∀ form, form ∈ mask_select (first_seen_mask seen forms) forms →
           (form ∉ seen) ∧ form ∈ forms).
Proof.
  revert seen. induction forms as [|form forms IH]; intros seen.
  - split; [constructor | by intros ? ?%elem_of_nil].
  - cbn [first_seen_mask]. case_bool_decide as Hseen; rewrite mask_select_cons.
    + destruct (IH seen) as [Hnd Hin].
      split; [done|]. intros f Hf. destruct (Hin f Hf). split; [done | by right].
    + destruct (IH (form :: seen)) as [Hnd Hin]. split.
      * constructor; [|done]. intros Hf. destruct (Hin _ Hf) as [Hnot _].
        apply Hnot. by left.
      * intros f [->|Hf]%elem_of_cons; [split; [done | by left]|].
        destruct (Hin _ Hf) as [Hnot ?]. split; [|by right].
        intros ?. apply Hnot. by right.
Qed.

Lemma mask_select_sublist {A : Type} (mask : list bool) (xs : list A) :
  mask_select mask xs `sublist_of` xs.
Proof.
  revert xs. induction mask as [|b mask IH]; intros [|x xs];
    try apply sublist_nil_l.
  rewrite mask_select_cons. destruct b; [by apply sublist_skip | by apply sublist_cons].
Qed.

Lemma length_mask_select {A B : Type} (mask : list bool) (xs : list A) (ys : list B) :
  length xs = length ys →
  length (mask_select mask xs) = length (mask_select mask ys).
Proof.
  revert xs ys. induction mask as [|b mask IH]; intros [|x xs] [|y ys] Hlen;
    simplify_eq/=; try done.
  rewrite !mask_select_cons. destruct b; simpl; [f_equal|]; by apply IH.
Qed.

(** Every table [generate_disconnected] returns. *)
Lemma generate_disconnected_ok (rows : list Spec) (forms : list (list (Z * Z * Z))) :
  (∀ n n_parts n_part dmax_n d,
     n_parts_of int_partition_unordered self n = Some n_parts →
     n_part ∈ n_parts → comp_dmaxs self !! n = Some dmax_n →
     d ∈ range (Z.quot (n - 1) 2 + 1) (dmax_n + 1) → good_nd n d) →
  generate_disconnected int_partition_unordered self = Some (rows, forms) →
  NoDup forms ∧ tables_ok (forms, rows).
Proof.
  intros Hnd. unfold generate_disconnected.
  destruct (for_each _ _ _) as [[forms0 rows0]|] eqn:Hrun; simpl; [|done].
  intros [= <- <-].
  apply (for_each_inv tables_ok) in Hrun.
  - destruct Hrun as (Hlen & Hsorted & Hrows). simpl in *.
    split; [apply first_seen_mask_select|]. split; [|split]; simpl.
    + by apply length_mask_select.
    + apply Forall_forall. intros form Hform.
      eapply (proj1 (Forall_forall _ _) Hsorted), elem_of_sublist;
        [done | apply mask_select_sublist].
    + apply Forall_forall. intros row Hrow.
      eapply (proj1 (Forall_forall _ _) Hrows), elem_of_sublist;
        [done | apply mask_select_sublist].
  - repeat split; constructor.
  - intros a n a' Ha _. apply add_n_ok; [|done]. intros. by eapply Hnd.
Qed.

End composite_rows.

Section composite_claims.
  Variable int_partition_unordered : Z → list (list Z).

(** C8: in the tables [CompositeGenerator] returns, which are what is
    left after the first-occurrence pass, the rows and the formulae are
    parallel and the sorted formula tuples at two different positions
    differ. *)
Theorem composite_formulae_pairwise_distinct (c_specs : list Spec)
    (dmaxs : dmaxs_arg) (rows : list Spec) (forms : list (list (Z * Z * Z))) :
  CompositeGenerator int_partition_unordered c_specs dmaxs = Some (rows, forms) →
  length rows = length forms ∧
  ∀ (i j : nat) (fi fj : list (Z * Z * Z)),
    i ≠ j → forms !! i = Some fi → forms !! j = Some fj →
    sorted triple_leb fi ≠ sorted triple_leb fj.
Proof.
  unfold CompositeGenerator.
  destruct (composite_init c_specs dmaxs) as [self|]; simpl; [|done].
  intros Hrun.
  apply (generate_disconnected_ok _ _ (λ _ _, True)) in Hrun; [|done].
  destruct Hrun as (Hnodup & Hlen & Hsorted & _). simpl in *. split; [done|].
  intros i j fi fj Hij Hi Hj Heq.
  rewrite Forall_forall in Hsorted.
  rewrite (Hsorted fi), (Hsorted fj) in Heq
    by (by eapply list_elem_of_lookup_2).
  subst fj. apply Hij. by eapply NoDup_lookup.
Qed.

Lemma filter_good_elem (self : CompositeState) (xs good : list (list Z)) (x : list Z) :
  filter_good self xs = Some good → x ∈ good →
  x ∈ xs ∧ good_part self x = Some true.
Proof.
  unfold filter_good. intros Hrun. revert x.
  eapply (for_each_inv (λ acc, ∀ x, x ∈ acc → x ∈ xs ∧ good_part self x = Some true));
    [| | exact Hrun]; [by intros ? ?%elem_of_nil|].
  intros acc y acc' Hacc Hy.
  simpl. destruct (good_part self y) as [[]|] eqn:Hgood; simpl; intros Heq; simplify_eq.
  - intros x [Hx| ->%list_elem_of_singleton]%elem_of_app; [by apply Hacc | done].
  - done.
Qed.

Lemma sum_two_parts (part : list Z) :
  Forall (λ x, 2 ≤ x) part → (1 < length part)%nat → 4 ≤ sum part.
Proof.
  intros Hpart Hlen.
  destruct part as [|x [|y rest]]; simpl in Hlen; [lia..|].
  apply Forall_cons in Hpart as [Hx [Hy Hrest]%Forall_cons].
  assert (0 ≤ sum rest) as Hsum; [|unfold sum in *; simpl; lia].
  clear Hlen. induction Hrest; unfold sum in *; simpl; lia.
Qed.

(** C10: every composite row has [n >= 4] and [2*d >= n], provided
    [int_partition_unordered(n)] yields partitions of [n]: lists of
    positive integers that sum to [n]. *)
Theorem composite_rows_bounds (c_specs : list Spec) (dmaxs : dmaxs_arg)
    (rows : list Spec) (forms : list (list (Z * Z * Z))) :
  (∀ n part, part ∈ int_partition_unordered n →
             sum part = n ∧ Forall (λ x, 1 ≤ x) part) →
  CompositeGenerator int_partition_unordered c_specs dmaxs = Some (rows, forms) →
  Forall (λ row, 4 ≤ n_ind row ∧ n_ind row ≤ 2 * d_ind row) rows.
Proof.
  intros Hparts. unfold CompositeGenerator.
  destruct (composite_init c_specs dmaxs) as [self|]; simpl; [|done].
  intros Hrun.
  apply (generate_disconnected_ok _ _ (λ n d, 4 ≤ n ∧ n ≤ 2 * d)) in Hrun.
  { by destruct Hrun as (_ & _ & _ & Hrows). }
  intros n n_parts n_part dmax_n d Hn Hpart _ Hd.
  unfold n_parts_of in Hn.
  destruct (filter_good _ _) as [good|] eqn:Hgood; simplify_eq/=.
  apply elem_of_sorted in Hpart.
  destruct (filter_good_elem _ _ _ _ Hgood Hpart) as [Hin Hok].
  destruct (Hparts n n_part Hin) as [Hsum Hpos].
  unfold good_part in Hok. case_bool_decide as Hone; [done|].
  destruct (py_max n_part); simpl in Hok; [|done]. injection Hok as Hok.
  apply andb_true_iff in Hok as [_ Hlen%bool_decide_eq_true].
  assert (4 ≤ n) as Hn4.
  { rewrite <-Hsum. apply sum_two_parts; [|done].
    rewrite Forall_forall in Hpos. apply Forall_forall. intros x Hx.
    specialize (Hpos x Hx). assert (x ≠ 1) by (by intros ->). lia. }
  split; [done|]. apply elem_of_range in Hd.
  rewrite Z.quot_div_nonneg in Hd by lia.
  pose proof (Z.div_mod (n - 1) 2). pose proof (Z.mod_pos_bound (n - 1) 2). lia.
Qed.

End composite_claims.

(** ** PrimeGenerator: the simple-graph search *)

(** [pairwise R l]: [R x y] for every [x] that stands before [y] in [l]. *)
Definition pairwise {A : Type} (R : A → A → Prop) (l : list A) : Prop :=
  ∀ (i j : nat) (x y : A), (i < j)%nat → l !! i = Some x → l !! j = Some y → R x y.

Lemma pairwise_nil {A : Type} (R : A → A → Prop) : pairwise R [].
Proof. intros i j x y _ Hi. by rewrite lookup_nil in Hi. Qed.

Lemma pairwise_snoc {A : Type} (R : A → A → Prop) (l : list A) (y : A) :
  pairwise R l → (∀ x, x ∈ l → R x y) → pairwise R (l ++ [y]).
Proof.
  intros Hl Hy i j x z Hij Hi Hj.
  assert (i < length l)%nat as Hil.
  { apply lookup_lt_Some in Hj. rewrite length_app in Hj. simpl in Hj. lia. }
  rewrite lookup_app_l in Hi by done.
  destruct (decide (j < length l)%nat) as [Hjl|Hjl].
  - rewrite lookup_app_l in Hj by done. exact (Hl i j x z Hij Hi Hj).
  - rewrite lookup_app_r in Hj by lia.
    destruct (j - length l)%nat as [|k]; simplify_eq/=.
    apply Hy. by eapply list_elem_of_lookup_2.
Qed.

Lemma existsb_false_forall {A : Type} (f : A → bool) (l : list A) (x : A) :
  existsb f l = false → x ∈ l → f x = false.
Proof.
  induction l as [|y l IH]; simpl; [by intros _ ?%elem_of_nil|].
  intros [Hy Hl]%orb_false_iff [->|Hx]%elem_of_cons; [done | by apply IH].
Qed.

Lemma range_cons (lo hi : Z) : lo < hi → range lo hi = lo :: range (lo + 1) hi.
Proof.
  intros Hlt. unfold range.
  replace (Z.to_nat (hi - lo)) with (S (Z.to_nat (hi - (lo + 1)))) by lia.
  simpl. f_equal; [lia|].
  rewrite <-fmap_S_seq, <-list_fmap_compose. apply list_fmap_ext.
  intros _ i _. simpl. lia.
Qed.

Lemma range_nil (lo hi : Z) : hi ≤ lo → range lo hi = [].
Proof. intros Hle. unfold range. by replace (Z.to_nat (hi - lo)) with O by lia. Qed.

Lemma elem_of_drop_range (lo hi x : Z) :
  x ∈ drop 1 (range lo hi) ↔ lo + 1 ≤ x < hi.
Proof.
  destruct (decide (lo < hi)) as [Hlt|Hge].
  - rewrite range_cons by done. simpl. rewrite drop_0. apply elem_of_range.
  - rewrite range_nil by lia. simpl. rewrite elem_of_nil. lia.
Qed.

Lemma NoDup_range (lo hi : Z) : NoDup (range lo hi).
Proof.
  unfold range. apply NoDup_fmap_2; [|apply NoDup_seq].
  intros i j Hij. lia.
Qed.

Section simple_graph_search.
  Context {EinStr EinPath : Type}.
  Variable ve_chi : list (Z * Z) → Z → Z.
  Variable ve_einspecs : list (Z * Z) → Z → EinStr * EinPath.
  Variable isomorphic : Graph → Graph → bool.
  Variables nmax emax cmax vmax : Z.

  Abbreviation Containers := (gmap (Z * Z) (Bucket EinStr EinPath)).
  Abbreviation add_if_new := (_add_if_new ve_chi ve_einspecs isomorphic cmax vmax).

(** What holds of the lists stored under [ne] while graphs are searched:
    a graph is not isomorphic to any graph stored before it, obeys both
    budgets, and the parallel lists record its edges, complexity and
    largest degree; no weighting has been stored yet; the bucket
    [(2, 1)] holds nothing but the single edge. *)
Record bucket_ok (ne : Z * Z) (b : Bucket EinStr EinPath) : Prop := {
  ok_distinct : pairwise (λ g h, isomorphic h g = false) (simple_graphs_d b);
  ok_budgets : Forall (λ g, ve_chi (get_edgelist g) ne.1 ≤ cmax ∧ maxdegree g ≤ vmax)
                      (simple_graphs_d b);
  ok_edges : edges_d b = get_edgelist <$> simple_graphs_d b;
  ok_chis : chis_d b = (λ g, ve_chi (get_edgelist g) ne.1) <$> simple_graphs_d b;
  ok_vs : vs_d b = maxdegree <$> simple_graphs_d b;
  ok_einstrs : einstrs_d b = (λ g, (ve_einspecs (get_edgelist g) ne.1).1) <$> simple_graphs_d b;
  ok_einpaths : einpaths_d b = (λ g, (ve_einspecs (get_edgelist g) ne.1).2) <$> simple_graphs_d b;
  ok_single : ne = (2, 1) → Forall (λ g, g = Full 2) (simple_graphs_d b);
}.

Definition containers_ok (st : Containers) : Prop :=
  ∀ ne b, st !! ne = Some b → bucket_ok ne b.

Definition no_weights (st : Containers) : Prop :=
  ∀ ne b, st !! ne = Some b → weights_d b = [].

Lemma add_if_new_rejects (st : Containers) (g : Graph) (ne : Z * Z)
    (b : Bucket EinStr EinPath) :
  st !! ne = Some b →
  existsb (λ graph, isomorphic g graph) (simple_graphs_d b) = true ∨
  ve_chi (get_edgelist g) ne.1 > cmax ∨ maxdegree g > vmax →
  add_if_new st g ne = Some st.
Proof.
  intros Hb Hreject. unfold _add_if_new. rewrite Hb. simpl.
  destruct (existsb _ _); [done|].
  case_bool_decide; [done|]. case_bool_decide; [done|].
  destruct Hreject as [?|[?|?]]; done.
Qed.

Lemma add_if_new_accepts (st : Containers) (g : Graph) (ne : Z * Z)
    (b : Bucket EinStr EinPath) :
  st !! ne = Some b →
  existsb (λ graph, isomorphic g graph) (simple_graphs_d b) = false →
  ve_chi (get_edgelist g) ne.1 ≤ cmax → maxdegree g ≤ vmax →
  add_if_new st g ne
  = Some (<[ne := mkBucket (simple_graphs_d b ++ [g])
                           (edges_d b ++ [get_edgelist g])
                           (chis_d b ++ [ve_chi (get_edgelist g) ne.1])
                           (vs_d b ++ [maxdegree g])
                           (einpaths_d b ++ [(ve_einspecs (get_edgelist g) ne.1).2])
                           (einstrs_d b ++ [(ve_einspecs (get_edgelist g) ne.1).1])
                           (weights_d b)]> st).
Proof.
  intros Hb Hiso Hchi Hv. unfold _add_if_new. rewrite Hb. simpl. rewrite Hiso.
  by rewrite !bool_decide_eq_false_2 by lia.
Qed.

Lemma add_if_new_cases (st st' : Containers) (g : Graph) (ne : Z * Z) :
  add_if_new st g ne = Some st' →
  st' = st ∨
  ∃ b, st !! ne = Some b ∧
       existsb (λ graph, isomorphic g graph) (simple_graphs_d b) = false ∧
       ve_chi (get_edgelist g) ne.1 ≤ cmax ∧ maxdegree g ≤ vmax ∧
       st' = <[ne := mkBucket (simple_graphs_d b ++ [g])
                      (edges_d b ++ [get_edgelist g])
                      (chis_d b ++ [ve_chi (get_edgelist g) ne.1])
                      (vs_d b ++ [maxdegree g])
                      (einpaths_d b ++ [(ve_einspecs (get_edgelist g) ne.1).2])
                      (einstrs_d b ++ [(ve_einspecs (get_edgelist g) ne.1).1])
                      (weights_d b)]> st.
Proof.
  intros Hrun.
  destruct (st !! ne) as [b|] eqn:Hb; [|by unfold _add_if_new in Hrun; rewrite Hb in Hrun].
  destruct (existsb (λ graph, isomorphic g graph) (simple_graphs_d b)) eqn:Hiso.
  { left. rewrite (add_if_new_rejects _ _ _ b) in Hrun by auto. by simplify_eq. }
  destruct (decide (ve_chi (get_edgelist g) ne.1 > cmax)) as [Hchi|Hchi].
  { left. rewrite (add_if_new_rejects _ _ _ b) in Hrun by auto. by simplify_eq. }
  destruct (decide (maxdegree g > vmax)) as [Hv|Hv].
  { left. rewrite (add_if_new_rejects _ _ _ b) in Hrun by auto. by simplify_eq. }
  right. exists b. rewrite (add_if_new_accepts _ _ _ b) in Hrun by (done || lia).
  simplify_eq. repeat split; (done || lia).
Qed.

Lemma add_if_new_ok (st st' : Containers) (g : Graph) (ne : Z * Z) :
  (ne = (2, 1) → g = Full 2) →
  containers_ok st ∧ no_weights st →
  add_if_new st g ne = Some st' → containers_ok st' ∧ no_weights st'.
Proof.
  intros Hsingle [Hok Hnw] [->|(b & Hb & Hiso & Hchi & Hv & ->)]%add_if_new_cases;
    [done|].
  destruct (Hok ne b Hb) as [Hdist Hbud He Hc Hvs Hes Hep H21].
  split.
  - intros ne' b'. destruct (decide (ne = ne')) as [<-|Hne].
    + rewrite lookup_insert_eq. intros [= <-].
      split; simpl; rewrite ?fmap_app; simpl; try congruence.
      * apply pairwise_snoc; [done|]. intros h Hh.
        by apply (existsb_false_forall _ _ h) in Hiso.
      * apply Forall_app. split; [done|]. by constructor.
      * intros Hne. apply Forall_app. split; [by apply H21|].
        constructor; [by apply Hsingle | done].
    + rewrite lookup_insert_ne by done. apply Hok.
  - intros ne' b'. destruct (decide (ne = ne')) as [<-|Hne].
    + rewrite lookup_insert_eq. intros [= <-]. simpl. by eapply Hnw.
    + rewrite lookup_insert_ne by done. apply Hnw.
Qed.

Lemma grow_by_vertex_ok (n e : Z) (st st' : Containers) :
  n ≠ 2 → containers_ok st ∧ no_weights st →
  grow_by_vertex ve_chi ve_einspecs isomorphic emax cmax vmax n e st = Some st' →
  containers_ok st' ∧ no_weights st'.
Proof.
  intros Hn Hst. unfold grow_by_vertex. case_bool_decide; [|by intros [= <-]].
  destruct (st !! (n - 1, e - 1)) as [seeds|]; simpl; [|done].
  apply (for_each_inv (λ s, containers_ok s ∧ no_weights s)); [done|]. intros s1 seed s2 Hs1 _.
  apply (for_each_inv (λ s, containers_ok s ∧ no_weights s)); [done|]. intros s3 v s4 Hs3 _.
  apply add_if_new_ok; [|done]. intros [= ? ?]. lia.
Qed.

Lemma grow_by_edge_ok (n e : Z) (st st' : Containers) :
  n ≠ 2 → containers_ok st ∧ no_weights st →
  grow_by_edge ve_chi ve_einspecs isomorphic emax cmax vmax n e st = Some st' →
  containers_ok st' ∧ no_weights st'.
Proof.
  intros Hn Hst. unfold grow_by_edge. case_bool_decide; [|by intros [= <-]].
  destruct (st !! (n, e - 1)) as [seeds|]; simpl; [|done].
  apply (for_each_inv (λ s, containers_ok s ∧ no_weights s)); [done|]. intros s1 seed s2 Hs1 _.
  apply (for_each_inv (λ s, containers_ok s ∧ no_weights s)); [done|]. intros s3 v s4 Hs3 _.
  apply add_if_new_ok; [|done]. intros [= ? ?]. lia.
Qed.

Lemma init_containers_ok :
  containers_ok (init_containers nmax emax) ∧ no_weights (init_containers nmax emax).
Proof.
  assert (∀ ne (b : Bucket EinStr EinPath),
            init_containers nmax emax !! ne = Some b → b = empty_bucket) as Hinit.
  { intros ne b Hb. unfold init_containers in Hb.
    apply elem_of_list_to_map_2, list_elem_of_fmap in Hb as (? & [= _ ->] & _).
    done. }
  split; intros ne b ->%Hinit.
  - split; simpl; done.
  - done.
Qed.

Lemma generate_simple_ok (st : Containers) :
  generate_simple ve_chi ve_einspecs isomorphic nmax emax cmax vmax
                  (init_containers nmax emax) = Some st →
  containers_ok st ∧ no_weights st.
Proof.
  unfold generate_simple.
  destruct (add_if_new _ _ _) as [st1|] eqn:Hfirst; simpl; [|done].
  apply add_if_new_ok in Hfirst; [|done|apply init_containers_ok].
  apply (for_each_inv (λ s, containers_ok s ∧ no_weights s)); [done|]. intros s1 n s2 Hs1 Hn.
  apply elem_of_drop_range in Hn.
  apply (for_each_inv (λ s, containers_ok s ∧ no_weights s)); [done|]. intros s3 e s4 Hs3 _.
  destruct (grow_by_vertex _ _ _ _ _ _ _ _ _) as [s5|] eqn:Hgrow; simpl; [|done].
  apply grow_by_vertex_ok in Hgrow; [|lia|done].
  apply grow_by_edge_ok; [lia | done].
Qed.

End simple_graph_search.

(** ** PrimeGenerator: the weighting search *)

Lemma for_each_app {A S : Type} (xs ys : list A) (body : S → A → option S) (s : S) :
  for_each (xs ++ ys) body s = s' ← for_each xs body s; for_each ys body s'.
Proof.
  revert s. induction xs as [|x xs IH]; intros s; simpl; [done|].
  destruct (body s x); simpl; [apply IH | done].
Qed.

Lemma for_each_fmap {A B S : Type} (f : A → B) (xs : list A)
    (body : S → B → option S) (s : S) :
  for_each (f <$> xs) body s = for_each xs (λ s x, body s (f x)) s.
Proof.
  revert s. induction xs as [|x xs IH]; intros s; simpl; [done|].
  destruct (body s (f x)); simpl; [apply IH | done].
Qed.

(** Two nested loops visit the pairs of the flattened list in order. *)
Lemma for_each_nested {A B S : Type} (xs : list A) (f : A → list B)
    (body : A → S → B → option S) (s : S) :
  for_each xs (λ s x, for_each (f x) (body x) s) s
  = for_each (x ← xs; (λ y, (x, y)) <$> f x) (λ s xy, body xy.1 s xy.2) s.
Proof.
  revert s. induction xs as [|x xs IH]; intros s; [done|].
  cbn [for_each]. rewrite bind_cons, for_each_app, for_each_fmap. simpl.
  destruct (for_each (f x) _ s); simpl; [apply IH | done].
Qed.

Section weighting_search.
  Context {EinStr EinPath : Type}.
  Variable isomorphic_vf2 : Graph → list Z → list Z → bool.
  Variable int_partition_ordered : Z → Z → list (list Z).
  Variables dmax nmax emax vmax : Z.

  Abbreviation Containers := (gmap (Z * Z) (Bucket EinStr EinPath)).

(** The weightings kept for one graph of the bucket [(n, e)]: each is a
    candidate, and none is isomorphic to one kept before it. *)
Definition weightings_ok (n e : Z) (graph : Graph) (weightings : list (list Z)) : Prop :=
  pairwise (λ wa wb, isomorphic_vf2 graph wa wb = false) weightings ∧
  Forall (λ w, w ∈ candidates int_partition_ordered dmax n e) weightings.

(** The trivial weightings of the single edge. *)
Definition single_edge_weightings : list (list Z) := (λ d, [d]) <$> range 1 (dmax + 1).

Definition without_weights (b : Bucket EinStr EinPath) : Bucket EinStr EinPath :=
  mkBucket (simple_graphs_d b) (edges_d b) (chis_d b) (vs_d b)
           (einpaths_d b) (einstrs_d b) [].

Definition same_graphs (st st0 : Containers) : Prop :=
  ∀ ne, without_weights <$> st !! ne = without_weights <$> st0 !! ne.

Lemma try_weighting_cases (graph : Graph) (weightings weightings' : list (list Z))
    (part : list Z) :
  try_weighting isomorphic_vf2 dmax vmax graph weightings part = Some weightings' →
  weightings' = weightings ∨
  (existsb (λ weighting, isomorphic_vf2 graph weighting part) weightings = false ∧
   weightings' = weightings ++ [part]).
Proof.
  unfold try_weighting. destruct (valency_exceeded _ _ _ _) as [[]|]; simpl; [| |done].
  - intros [= <-]. by left.
  - destruct (existsb _ _); intros [= <-]; [by left | by right].
Qed.

Lemma graph_weightings_ok (n e : Z) (graph : Graph) (weightings : list (list Z)) :
  graph_weightings isomorphic_vf2 int_partition_ordered dmax vmax n e graph
  = Some weightings →
  weightings_ok n e graph weightings.
Proof.
  unfold graph_weightings.
  apply (for_each_inv_prefix
           (λ pre ws, pairwise (λ wa wb, isomorphic_vf2 graph wa wb = false) ws ∧
                      Forall (λ w, w ∈ pre) ws)).
  - split; [apply pairwise_nil | constructor].
  - intros pre part ws ws' [Hpair Hcand] _ [->|[Hiso ->]]%try_weighting_cases.
    + split; [done|]. eapply Forall_impl; [done|]. intros w Hw. apply elem_of_app. by left.
    + split.
      * apply pairwise_snoc; [done|]. intros w Hw.
        by apply (existsb_false_forall _ _ w) in Hiso.
      * apply Forall_app. split.
        -- eapply Forall_impl; [done|]. intros w Hw. apply elem_of_app. by left.
        -- constructor; [|done]. apply elem_of_app. right. by left.
Qed.

Lemma append_weightings_eq (ne : Z * Z) (weightings : list (list Z))
    (st st' : Containers) :
  append_weightings ne weightings st = Some st' →
  ∃ b, st !! ne = Some b ∧
       st' = <[ne := mkBucket (simple_graphs_d b) (edges_d b) (chis_d b) (vs_d b)
                              (einpaths_d b) (einstrs_d b)
                              (weights_d b ++ [weightings])]> st.
Proof.
  unfold append_weightings. destruct (st !! ne) as [b|]; simpl; [|done].
  intros [= <-]. by exists b.
Qed.

Lemma same_graphs_refl (st : Containers) : same_graphs st st.
Proof. done. Qed.

Lemma same_graphs_append (ne : Z * Z) (weightings : list (list Z))
    (st st' st0 : Containers) :
  same_graphs st st0 → append_weightings ne weightings st = Some st' →
  same_graphs st' st0.
Proof.
  intros Hsame (b & Hb & ->)%append_weightings_eq ne'.
  destruct (decide (ne = ne')) as [<-|Hne].
  - rewrite lookup_insert_eq, <-Hsame, Hb. done.
  - rewrite lookup_insert_ne by done. apply Hsame.
Qed.

(** The body of the two outer loops of [generate_weights] for one key. *)
Definition weigh_bucket (n : Z) (st : Containers) (e : Z) : option Containers :=
  graphs ← st !! (n, e);
  for_each (simple_graphs_d graphs)
    (λ st graph,
       weightings ← graph_weightings isomorphic_vf2 int_partition_ordered
                                     dmax vmax n e graph;
       append_weightings (n, e) weightings st) st.

Lemma weigh_bucket_ok (n e : Z) (st st' : Containers) (b0 : Bucket EinStr EinPath) :
  st !! (n, e) = Some b0 → weights_d b0 = [] →
  weigh_bucket n st e = Some st' →
  same_graphs st' st ∧
  (∀ ne, ne ≠ (n, e) → st' !! ne = st !! ne) ∧
  ∃ b, st' !! (n, e) = Some b ∧
       Forall2 (weightings_ok n e) (simple_graphs_d b) (weights_d b).
Proof.
  intros Hb0 Hw0. unfold weigh_bucket. rewrite Hb0. simpl. intros Hrun.
  apply (for_each_inv_prefix
           (λ pre s, same_graphs s st ∧ (∀ ne, ne ≠ (n, e) → s !! ne = st !! ne) ∧
                     ∃ b, s !! (n, e) = Some b ∧
                          Forall2 (weightings_ok n e) pre (weights_d b))) in Hrun.
  - destruct Hrun as (Hsame & Hframe & b & Hb & Hall).
    repeat split; [done..|]. exists b. split; [done|].
    specialize (Hsame (n, e)). rewrite Hb, Hb0 in Hsame.
    injection Hsame as Hsg _. by rewrite Hsg.
  - repeat split; [done..|]. exists b0. rewrite Hw0. split; [done | constructor].
  - intros pre graph s s' (Hsame & Hframe & b & Hb & Hall) _.
    destruct (graph_weightings _ _ _ _ _ _ _) as [weightings|] eqn:Hgw; simpl; [|done].
    intros Happ. split; [by eapply same_graphs_append|].
    apply append_weightings_eq in Happ as (b' & Hb' & ->).
    rewrite Hb in Hb'. injection Hb' as <-. split.
    + intros ne Hne. rewrite lookup_insert_ne by done. by apply Hframe.
    + eexists. rewrite lookup_insert_eq. split; [done|]. simpl.
      apply Forall2_app; [done|]. constructor; [|constructor].
      by apply graph_weightings_ok.
Qed.

(** The keys the two outer loops visit, in order. *)
Definition weighted_keys : list (Z * Z) :=
  n ← drop 1 (ns nmax); (λ e, (n, e)) <$> esbyn emax n.

Lemma weighted_keys_NoDup : NoDup weighted_keys.
Proof.
  unfold weighted_keys. apply NoDup_bind.
  - intros n1 n2 ne _ _ (? & -> & _)%list_elem_of_fmap (? & [= ->] & _)%list_elem_of_fmap.
    done.
  - intros n _. apply NoDup_fmap_2; [|apply NoDup_range]. by intros ?? [= ->].
  - unfold ns. destruct (decide (2 < nmax + 1)).
    + rewrite range_cons by done. simpl. rewrite drop_0. apply NoDup_range.
    + rewrite range_nil by lia. constructor.
Qed.

Lemma weighted_keys_not_single : (2, 1) ∉ weighted_keys.
Proof.
  unfold weighted_keys. intros (n & (? & [= <- _] & _)%list_elem_of_fmap & Hn)%list_elem_of_bind.
  apply elem_of_drop_range in Hn. lia.
Qed.

(** After [generate_weights]: the graphs are untouched; the bucket
    [(2, 1)] holds the trivial weightings; every other bucket holds,
    graph by graph, weightings that passed the search, or none at all. *)
Lemma generate_weights_ok (st0 st : Containers) :
  (∀ ne b, st0 !! ne = Some b → weights_d b = []) →
  generate_weights isomorphic_vf2 int_partition_ordered dmax nmax emax vmax st0
  = Some st →
  same_graphs st st0 ∧
  (∃ b, st !! (2, 1) = Some b ∧ weights_d b = [single_edge_weightings]) ∧
  (∀ n e b, (n, e) ≠ (2, 1) → st !! (n, e) = Some b →
            weights_d b = [] ∨
            Forall2 (weightings_ok n e) (simple_graphs_d b) (weights_d b)).
Proof.
  intros Hnw. unfold generate_weights.
  destruct (append_weightings _ _ _) as [st1|] eqn:Hfirst; simpl; [|done].
  pose proof (same_graphs_append _ _ _ _ _ (same_graphs_refl st0) Hfirst) as Hsame1.
  apply append_weightings_eq in Hfirst as (b21 & Hb21 & ->).
  set (st1 := <[(2, 1) := _]> st0) in *.
  rewrite (for_each_nested (drop 1 (ns nmax)) (esbyn emax)
             (λ n st e, weigh_bucket n st e)).
  fold weighted_keys. intros Hrun.
  apply (for_each_inv_prefix
           (λ pre s, same_graphs s st1 ∧ (∀ ne, ne ∉ pre → s !! ne = st1 !! ne) ∧
                     ∀ n e b, (n, e) ∈ pre → s !! (n, e) = Some b →
                              Forall2 (weightings_ok n e) (simple_graphs_d b)
                                      (weights_d b))) in Hrun.
  - destruct Hrun as (Hsame & Hframe & Hdone). split; [|split].
    + intros ne. by rewrite Hsame, Hsame1.
    + eexists. rewrite Hframe by apply weighted_keys_not_single.
      unfold st1. rewrite lookup_insert_eq. split; [reflexivity|].
      simpl. by rewrite (Hnw _ _ Hb21).
    + intros n e b Hne Hb. destruct (decide ((n, e) ∈ weighted_keys)) as [Hin|Hout].
      * right. by apply Hdone.
      * left. rewrite Hframe in Hb by done. unfold st1 in Hb.
        rewrite lookup_insert_ne in Hb by done. by eapply Hnw.
  - repeat split; [done..|]. by intros n e b ?%elem_of_nil.
  - intros pre [n e] s s' (Hsame & Hframe & Hdone) Hpre Hbody. simpl in Hbody.
    assert (((n, e) ∉ pre) ∧ (n, e) ≠ (2, 1)) as [Hfresh Hne].
    { destruct Hpre as [rest Hsplit].
      pose proof weighted_keys_NoDup as Hnd. pose proof weighted_keys_not_single as H21.
      rewrite Hsplit in Hnd, H21.
      rewrite <-app_assoc in Hnd. apply NoDup_app in Hnd as (_ & Hnd & _).
      split.
      - intros Hin. apply (Hnd _ Hin). by left.
      - intros Heq. apply H21. rewrite Heq. rewrite !elem_of_app, list_elem_of_singleton. auto. }
    destruct (s !! (n, e)) as [b0|] eqn:Hb0;
      [|by unfold weigh_bucket in Hbody; rewrite Hb0 in Hbody].
    assert (weights_d b0 = []) as Hw0.
    { rewrite Hframe in Hb0 by done. unfold st1 in Hb0.
      rewrite lookup_insert_ne in Hb0 by done. by eapply Hnw. }
    destruct (weigh_bucket_ok _ _ _ _ _ Hb0 Hw0 Hbody) as (Hsame' & Hframe' & b & Hb & Hall).
    split; [|split].
    + intros ne. by rewrite Hsame', Hsame.
    + intros ne [Hne1 Hne2]%not_elem_of_app.
      rewrite list_elem_of_singleton in Hne2.
      rewrite Hframe' by done. by apply Hframe.
    + intros n' e' b' [Hin|Heq%list_elem_of_singleton]%elem_of_app Hb'.
      * rewrite Hframe' in Hb' by (intros Heq; apply Hfresh; by rewrite <-Heq).
        by eapply Hdone.
      * by simplify_eq.
Qed.

End weighting_search.

(** ** PrimeGenerator: the spec table built by [results] *)

Lemma foldl_inv {A B : Type} (P : B → Prop) (f : B → A → B) (l : list A) (b : B) :
  P b → (∀ b x, P b → x ∈ l → P (f b x)) → P (foldl f b l).
Proof.
  revert b. induction l as [|x l IH]; intros b Hb Hf; simpl; [done|].
  apply IH; [apply Hf; [done | by left]|].
  intros b' y Hb' Hy. apply Hf; [done | by right].
Qed.

Section results_table.
  Context {EinStr EinPath : Type}.

(** Every row points at its weighting: [w] is a valid index into the
    weight table, [d] is the sum of the weighting found there, and
    [d >= e]; the counter [w] is the length of the weight table. *)
Definition row_ok (weights : list (list Z)) (row : Spec) : Prop :=
  ∃ weighting, 0 ≤ w_ind row ∧ weights !! Z.to_nat (w_ind row) = Some weighting ∧
               d_ind row = sum weighting ∧ e_ind row ≤ d_ind row.

Definition rows_ok (a : @ResultsAcc EinStr EinPath) : Prop :=
  acc_w a = Z.of_nat (length (acc_weights a)) ∧
  Forall (row_ok (acc_weights a)) (acc_c_specs a).

Lemma row_ok_app (weights more : list (list Z)) (row : Spec) :
  row_ok weights row → row_ok (weights ++ more) row.
Proof.
  intros (weighting & H0 & Hw & Hd & He). exists weighting.
  repeat split; [done| |done..]. by apply lookup_app_l_Some.
Qed.

Lemma results_weighting_ok (n e v chi : Z) (a : @ResultsAcc EinStr EinPath)
    (weighting : list Z) :
  e ≤ sum weighting → rows_ok a → rows_ok (results_weighting n e v chi a weighting).
Proof.
  intros He [Hw Hrows]. split; simpl.
  - rewrite length_app. simpl. lia.
  - apply Forall_app. split.
    + eapply Forall_impl; [done|]. intros row. apply row_ok_app.
    + constructor; [|done]. exists weighting. simpl.
      repeat split; [lia| |done..].
      rewrite Hw, Nat2Z.id. by apply list_lookup_middle.
Qed.

Lemma results_graph_ok (n e : Z) (a : @ResultsAcc EinStr EinPath)
    (z : list (Z * Z) * list (list Z) * Z * Z * EinStr * EinPath) :
  Forall (λ weighting, e ≤ sum weighting) z.1.1.1.1.2 →
  rows_ok a → rows_ok (results_graph n e a z).
Proof.
  destruct z as [[[[[edgs wghts] chi] v] es] ep]. simpl. intros Hall Ha.
  assert (rows_ok (foldl (results_weighting n e v chi) a wghts)) as [Hw Hrows].
  { apply foldl_inv; [done|]. intros a' weighting Ha' Hin.
    apply results_weighting_ok; [|done].
    rewrite Forall_forall in Hall. by apply Hall. }
  by split.
Qed.

Lemma zip_bucket_weights (es : list (list (Z * Z))) (ws : list (list (list Z)))
    (cs vs : list Z) (ss : list EinStr) (ps : list EinPath)
    (z : list (Z * Z) * list (list Z) * Z * Z * EinStr * EinPath) :
  z ∈ zip_bucket es ws cs vs ss ps → z.1.1.1.1.2 ∈ ws.
Proof.
  revert ws cs vs ss ps.
  induction es as [|e es IH]; intros [|w ws] [|c cs] [|v vs] [|s ss] [|p ps];
    simpl; try by intros ?%elem_of_nil.
  intros [->|Hz]%elem_of_cons; [by left|]. right. by eapply IH.
Qed.

Lemma results_bucket_ok (a : @ResultsAcc EinStr EinPath)
    (item : Z * Z * Bucket EinStr EinPath) :
  Forall (Forall (λ weighting, item.1.2 ≤ sum weighting)) (weights_d item.2) →
  rows_ok a → rows_ok (results_bucket a item).
Proof.
  destruct item as [[n e] b]. simpl. intros Hall Ha.
  apply foldl_inv; [done|]. intros a' z Ha' Hz.
  apply results_graph_ok; [|done].
  apply zip_bucket_weights in Hz. rewrite Forall_forall in Hall. by apply Hall.
Qed.

Lemma results_ok (st : gmap (Z * Z) (Bucket EinStr EinPath)) :
  (∀ n e b, st !! (n, e) = Some b →
            Forall (Forall (λ weighting, e ≤ sum weighting)) (weights_d b)) →
  rows_ok (results st).
Proof.
  intros Hst. unfold results. apply foldl_inv.
  - split; [done | constructor].
  - intros a [[n e] b] Ha Hin. apply results_bucket_ok; [|done]. simpl.
    apply elem_of_sorted, elem_of_map_to_list in Hin. by eapply Hst.
Qed.

End results_table.

(** ** PrimeGenerator: what holds of every run *)

Section prime_claims.
  Context {EinStr EinPath : Type}.
  Variable ve_chi : list (Z * Z) → Z → Z.
  Variable ve_einspecs : list (Z * Z) → Z → EinStr * EinPath.
  Variable isomorphic : Graph → Graph → bool.
  Variable isomorphic_vf2 : Graph → list Z → list Z → bool.
  Variable int_partition_ordered : Z → Z → list (list Z).
  Variable dmax : Z.
  Variables nmax emax cmax vmax : option Z.

  Abbreviation Containers := (gmap (Z * Z) (Bucket EinStr EinPath)).
  Abbreviation run :=
    (PrimeGenerator ve_chi ve_einspecs isomorphic isomorphic_vf2
                    int_partition_ordered dmax nmax emax cmax vmax).

(** The two phases of a run, with what each establishes. *)
Lemma PrimeGenerator_phases (st : Containers) :
  run = Some st →
  ∃ st0,
    containers_ok ve_chi ve_einspecs isomorphic
                  (cmax_of dmax nmax cmax) (vmax_of dmax vmax) st0 ∧
    same_graphs st st0 ∧
    (∃ b, st !! (2, 1) = Some b ∧ weights_d b = [single_edge_weightings dmax]) ∧
    (∀ n e b, (n, e) ≠ (2, 1) → st !! (n, e) = Some b →
              weights_d b = [] ∨
              Forall2 (weightings_ok isomorphic_vf2 int_partition_ordered dmax n e)
                      (simple_graphs_d b) (weights_d b)).
Proof.
  unfold PrimeGenerator, prime_init.
  destruct (generate_simple _ _ _ _ _ _ _ _) as [st0|] eqn:Hsimple; simpl; [|done].
  apply generate_simple_ok in Hsimple as [Hok Hnw].
  intros (Hsame & H21 & Hrest)%generate_weights_ok; [|done].
  by exists st0.
Qed.

Lemma PrimeGenerator_bucket_ok (st : Containers) (ne : Z * Z)
    (b : Bucket EinStr EinPath) :
  run = Some st → st !! ne = Some b →
  bucket_ok ve_chi ve_einspecs isomorphic
            (cmax_of dmax nmax cmax) (vmax_of dmax vmax) ne (without_weights b).
Proof.
  intros (st0 & Hok & Hsame & _)%PrimeGenerator_phases Hb.
  specialize (Hsame ne). rewrite Hb in Hsame.
  destruct (st0 !! ne) as [b0|] eqn:Hb0; [|done].
  apply (inj Some) in Hsame. rewrite Hsame. by destruct (Hok _ _ Hb0).
Qed.

(** C5: a candidate that is isomorphic to a graph already stored under
    its key, or whose complexity exceeds [cmax], or whose largest degree
    exceeds [vmax], leaves the containers as they are; and in the
    containers of a finished run two graphs at different positions of
    one bucket are not isomorphic, and every stored graph is recorded
    with a complexity at most [cmax] and a largest degree at most
    [vmax].  Isomorphism is taken to be symmetric. *)
Theorem accepted_graphs_distinct_and_within_budget (st : Containers) :
  (∀ g h, isomorphic g h = isomorphic h g) →
  run = Some st →
  (∀ (st' : Containers) new_graph ne b,
     st' !! ne = Some b →
     existsb (λ graph, isomorphic new_graph graph) (simple_graphs_d b) = true ∨
     ve_chi (get_edgelist new_graph) ne.1 > cmax_of dmax nmax cmax ∨
     maxdegree new_graph > vmax_of dmax vmax →
     _add_if_new ve_chi ve_einspecs isomorphic
                 (cmax_of dmax nmax cmax) (vmax_of dmax vmax) st' new_graph ne
     = Some st') ∧
  ∀ ne b, st !! ne = Some b →
    (∀ (i j : nat) gi gj,
       i ≠ j → simple_graphs_d b !! i = Some gi → simple_graphs_d b !! j = Some gj →
       isomorphic gi gj = false) ∧
    (∀ (i : nat) g,
       simple_graphs_d b !! i = Some g →
       chis_d b !! i = Some (ve_chi (get_edgelist g) ne.1) ∧
       ve_chi (get_edgelist g) ne.1 ≤ cmax_of dmax nmax cmax ∧
       vs_d b !! i = Some (maxdegree g) ∧
       maxdegree g ≤ vmax_of dmax vmax).
Proof.
  intros Hsym Hrun. split; [intros; by eapply add_if_new_rejects|].
  intros ne b Hb.
  destruct (PrimeGenerator_bucket_ok _ _ _ Hrun Hb)
    as [Hdist Hbud _ Hc Hvs _ _ _]. simpl in *.
  split.
  - intros i j gi gj Hij Hi Hj.
    destruct (decide (i < j)%nat).
    + rewrite Hsym. by eapply (Hdist i j).
    + eapply (Hdist j i); [lia | done..].
  - intros i g Hi. rewrite Forall_forall in Hbud.
    destruct (Hbud g) as [? ?]; [by eapply list_elem_of_lookup_2|].
    rewrite Hc, Hvs, !list_lookup_fmap, Hi. done.
Qed.

(** C6: a candidate that is isomorphic to a weighting already kept for
    the graph is not kept; and in the containers of a finished run, two
    weightings at different positions of one graph's list are not
    isomorphic under the colour-preserving test.  The test is taken to be
    symmetric, and two colourings of the single edge to be isomorphic
    only when they use the same colour. *)
Theorem accepted_weightings_distinct (st : Containers) :
  (∀ g c1 c2, isomorphic_vf2 g c1 c2 = isomorphic_vf2 g c2 c1) →
  (∀ d1 d2, isomorphic_vf2 (Full 2) [d1] [d2] = true → d1 = d2) →
  run = Some st →
  (∀ graph weightings part weightings',
     existsb (λ weighting, isomorphic_vf2 graph weighting part) weightings = true →
     try_weighting isomorphic_vf2 dmax (vmax_of dmax vmax) graph weightings part
     = Some weightings' →
     weightings' = weightings) ∧
  ∀ ne b (i : nat) graph weightings,
    st !! ne = Some b →
    simple_graphs_d b !! i = Some graph → weights_d b !! i = Some weightings →
    ∀ (j k : nat) wj wk,
      j ≠ k → weightings !! j = Some wj → weightings !! k = Some wk →
      isomorphic_vf2 graph wj wk = false.
Proof.
  intros Hsym Hsingle Hrun. split.
  { intros graph ws part ws' Hiso [->|[Hno ->]]%try_weighting_cases; [done|].
    congruence. }
  intros ne b i graph weightings Hb Hg Hw.
  assert (pairwise (λ wa wb, isomorphic_vf2 graph wa wb = false) weightings) as Hpair.
  { pose proof (PrimeGenerator_bucket_ok _ _ _ Hrun Hb) as [_ _ _ _ _ _ _ Hfull].
    destruct (PrimeGenerator_phases _ Hrun) as (st0 & _ & _ & (b21 & Hb21 & Hw21) & Hrest).
    destruct (decide (ne = (2, 1))) as [->|Hne].
    - simplify_eq. rewrite Hw21 in Hw.
      destruct i as [|i]; simplify_eq/=.
      specialize (Hfull eq_refl). rewrite Forall_forall in Hfull.
      rewrite (Hfull graph) by (by eapply list_elem_of_lookup_2).
      intros j k wj wk Hjk Hj Hk. unfold single_edge_weightings in *.
      rewrite list_lookup_fmap in Hj, Hk.
      destruct (range 1 (dmax + 1) !! j) as [dj|] eqn:Hdj; simplify_eq/=.
      destruct (range 1 (dmax + 1) !! k) as [dk|] eqn:Hdk; simplify_eq/=.
      destruct (isomorphic_vf2 (Full 2) [dj] [dk]) eqn:Hiso; [|done].
      apply Hsingle in Hiso as ->.
      pose proof (NoDup_lookup _ _ _ _ (NoDup_range 1 (dmax + 1)) Hdj Hdk). lia.
    - destruct ne as [n e].
      destruct (Hrest n e b Hne Hb) as [Hnil|Hall]; [by rewrite Hnil in Hw|].
      by destruct (Forall2_lookup_lr _ _ _ _ _ _ Hall Hg Hw). }
  intros j k wj wk Hjk Hj Hk.
  destruct (decide (j < k)%nat).
  - by eapply (Hpair j k).
  - rewrite Hsym. eapply (Hpair k j); [lia | done..].
Qed.

Lemma elem_of_single_edge_weightings (w : list Z) :
  w ∈ single_edge_weightings dmax ↔ ∃ d, w = [d] ∧ 1 ≤ d ≤ dmax.
Proof.
  unfold single_edge_weightings. rewrite list_elem_of_fmap.
  split; intros (d & -> & Hd); exists d; (split; [done|]);
    [apply elem_of_range in Hd | apply elem_of_range]; lia.
Qed.

(** C3 (as amended): of a finished run, the weightings stored for the
    single-edge graph are exactly the one-entry tuples [(d,)] with
    [1 <= d <= dmax], stored as one list in increasing order of [d]. *)
Theorem single_edge_weightings_up_to_dmax (st : Containers) :
  run = Some st →
  ∃ b, st !! (2, 1) = Some b ∧
       weights_d b = [single_edge_weightings dmax] ∧
       ∀ w, w ∈ single_edge_weightings dmax ↔ ∃ d, w = [d] ∧ 1 ≤ d ≤ dmax.
Proof.
  intros (st0 & _ & _ & (b & Hb & Hw) & _)%PrimeGenerator_phases.
  exists b. repeat split; [done..| |]; apply elem_of_single_edge_weightings.
Qed.

(** C7: every row of the prime spec table points, through [w], at a
    weighting whose entries sum to the row's [d], and [d >= e],
    provided each tuple of [int_partition_ordered(d, e)] sums to [d]. *)
Theorem prime_rows_degree (st : Containers) :
  (∀ d e part, part ∈ int_partition_ordered d e → sum part = d) →
  run = Some st →
  ∀ row, row ∈ acc_c_specs (results st) →
    ∃ weighting,
      0 ≤ w_ind row ∧
      acc_weights (results st) !! Z.to_nat (w_ind row) = Some weighting ∧
      d_ind row = sum weighting ∧ e_ind row ≤ d_ind row.
Proof.
  intros Hparts Hrun.
  destruct (PrimeGenerator_phases _ Hrun) as (st0 & _ & _ & (b21 & Hb21 & Hw21) & Hrest).
  assert (rows_ok (results st)) as [_ Hrows].
  { apply results_ok. intros n e b Hb.
    destruct (decide ((n, e) = (2, 1))) as [[= -> ->]|Hne].
    - simplify_eq. rewrite Hw21. constructor; [|done].
      apply Forall_forall. intros w (d & -> & Hd)%elem_of_single_edge_weightings.
      simpl. lia.
    - destruct (Hrest n e b Hne Hb) as [->|Hall]; [done|].
      apply Forall_forall. intros ws Hws.
      apply list_elem_of_lookup in Hws as [i Hi].
      destruct (Forall2_lookup_r _ _ _ _ _ Hall Hi) as (g & _ & _ & Hcand).
      eapply Forall_impl; [exact Hcand|]. intros w Hw. simpl in Hw.
      unfold candidates in Hw.
      apply list_elem_of_bind in Hw as (d & Hw & Hd%elem_of_range).
      apply Hparts in Hw. lia. }
  intros row Hrow. rewrite Forall_forall in Hrows. by apply Hrows.
Qed.

End prime_claims.

(** ** The complexity measure is only read through its values *)

Lemma for_each_ext {A S : Type} (xs : list A) (f g : S → A → option S) (s : S) :
  (∀ s x, f s x = g s x) → for_each xs f s = for_each xs g s.
Proof.
  intros Hfg. revert s. induction xs as [|x xs IH]; intros s; simpl; [done|].
  rewrite Hfg. destruct (g s x); simpl; [apply IH | done].
Qed.

Section chi_ext.
  Context {EinStr EinPath : Type}.
  Variables ve_chi ve_chi' : list (Z * Z) → Z → Z.
  Variable ve_einspecs : list (Z * Z) → Z → EinStr * EinPath.
  Variable isomorphic : Graph → Graph → bool.
  Variable isomorphic_vf2 : Graph → list Z → list Z → bool.
  Variable int_partition_ordered : Z → Z → list (list Z).
  Variable int_partition_unordered : Z → list (list Z).
  Hypothesis chi_ext : ∀ edges n, ve_chi edges n = ve_chi' edges n.

Lemma add_if_new_ext (cmax vmax : Z) (st : gmap (Z * Z) (Bucket EinStr EinPath))
    (g : Graph) (ne : Z * Z) :
  _add_if_new ve_chi ve_einspecs isomorphic cmax vmax st g ne
  = _add_if_new ve_chi' ve_einspecs isomorphic cmax vmax st g ne.
Proof using chi_ext. unfold _add_if_new. by rewrite chi_ext. Qed.

Lemma grow_by_vertex_ext (emax cmax vmax n e : Z)
    (st : gmap (Z * Z) (Bucket EinStr EinPath)) :
  grow_by_vertex ve_chi ve_einspecs isomorphic emax cmax vmax n e st
  = grow_by_vertex ve_chi' ve_einspecs isomorphic emax cmax vmax n e st.
Proof using chi_ext.
  unfold grow_by_vertex. case_bool_decide; [|done].
  destruct (st !! _); simpl; [|done].
  apply for_each_ext. intros s seed. apply for_each_ext. intros s' v.
  apply add_if_new_ext.
Qed.

Lemma grow_by_edge_ext (emax cmax vmax n e : Z)
    (st : gmap (Z * Z) (Bucket EinStr EinPath)) :
  grow_by_edge ve_chi ve_einspecs isomorphic emax cmax vmax n e st
  = grow_by_edge ve_chi' ve_einspecs isomorphic emax cmax vmax n e st.
Proof using chi_ext.
  unfold grow_by_edge. case_bool_decide; [|done].
  destruct (st !! _); simpl; [|done].
  apply for_each_ext. intros s seed. apply for_each_ext. intros s' v.
  apply add_if_new_ext.
Qed.

Lemma generate_simple_ext (nmax emax cmax vmax : Z)
    (st : gmap (Z * Z) (Bucket EinStr EinPath)) :
  generate_simple ve_chi ve_einspecs isomorphic nmax emax cmax vmax st
  = generate_simple ve_chi' ve_einspecs isomorphic nmax emax cmax vmax st.
Proof using chi_ext.
  unfold generate_simple. rewrite add_if_new_ext.
  destruct (_add_if_new _ _ _ _ _ _ _ _) as [st1|]; simpl; [|done].
  apply for_each_ext. intros s n. apply for_each_ext. intros s1 e.
  rewrite grow_by_vertex_ext.
  destruct (grow_by_vertex _ _ _ _ _ _ _ _ _); simpl; [apply grow_by_edge_ext | done].
Qed.

Lemma Generator_ext (dmax : Z) (nmax emax cmax vmax : option Z) (comp_dmaxs : dmaxs_arg) :
  Generator ve_chi ve_einspecs isomorphic isomorphic_vf2 int_partition_ordered
            int_partition_unordered dmax nmax emax cmax vmax comp_dmaxs
  = Generator ve_chi' ve_einspecs isomorphic isomorphic_vf2 int_partition_ordered
              int_partition_unordered dmax nmax emax cmax vmax comp_dmaxs.
Proof using chi_ext.
  unfold Generator, PrimeGenerator, prime_init. by rewrite generate_simple_ext.
Qed.

End chi_ext.

(** An integer that is at most 3 is 3, 2, 1, 0 or negative. *)
Lemma at_most_three (c : Z) :
  c ≤ 3 → c = 3 ∨ c = 2 ∨ c = 1 ∨ c = 0 ∨ ∃ p, c = Z.neg p.
Proof. intros Hc. destruct c as [|p|p]; [lia | lia | eauto 10]. Qed.

(** ** The reference collaborators meet their contracts *)

Lemma canon_isomorphic_sym (g h : Graph) : canon_isomorphic g h = canon_isomorphic h g.
Proof. unfold canon_isomorphic. apply bool_decide_ext. split; intros [-> ->]; done. Qed.

Lemma canon_isomorphic_vf2_sym (g : Graph) (color1 color2 : list Z) :
  canon_isomorphic_vf2 g color1 color2 = canon_isomorphic_vf2 g color2 color1.
Proof. unfold canon_isomorphic_vf2. apply bool_decide_ext. naive_solver. Qed.

Lemma canonical_form_single_edge (d : Z) : canonical_form (Full 2) [d] = [(0, 1, d)].
Proof.
  unfold canonical_form.
  replace (permutations (range 0 (vcount (Full 2)))) with [[0; 1]; [1; 0]]
    by (by vm_compute).
  cbn. by destruct (list_leb _ _ _ _).
Qed.

Lemma canon_isomorphic_vf2_single_edge (d1 d2 : Z) :
  canon_isomorphic_vf2 (Full 2) [d1] [d2] = true → d1 = d2.
Proof.
  unfold canon_isomorphic_vf2. rewrite !canonical_form_single_edge.
  intros H%bool_decide_eq_true. by simplify_eq.
Qed.

Lemma compositions_sum (e : nat) (d : Z) (part : list Z) :
  part ∈ compositions e d → sum part = d.
Proof.
  revert d part. induction e as [|e IH]; intros d part; simpl.
  - case_bool_decide; [|by intros ?%elem_of_nil].
    intros ->%list_elem_of_singleton. done.
  - intros (x & (rest & -> & Hrest)%list_elem_of_fmap & _)%list_elem_of_bind.
    apply IH in Hrest. unfold sum in *. simpl. lia.
Qed.

Lemma spec_int_partition_ordered_sum (d e : Z) (part : list Z) :
  part ∈ spec_int_partition_ordered d e → sum part = d.
Proof.
  unfold spec_int_partition_ordered. case_bool_decide; [|by intros ?%elem_of_nil].
  apply compositions_sum.
Qed.

Lemma partitions_upto_parts (fuel : nat) (n m : Z) (part : list Z) :
  part ∈ partitions_upto fuel n m → sum part = n ∧ Forall (λ x, 1 ≤ x) part.
Proof.
  revert n m part. induction fuel as [|fuel IH]; intros n m part; simpl.
  - case_bool_decide; [|by intros ?%elem_of_nil].
    intros ->%list_elem_of_singleton. by subst.
  - case_bool_decide.
    { intros ->%list_elem_of_singleton. by subst. }
    intros (x & (rest & -> & Hrest)%list_elem_of_fmap & Hx)%list_elem_of_bind.
    apply elem_of_reverse, elem_of_range in Hx.
    apply IH in Hrest as [Hsum Hpos]. split.
    + unfold sum in *. simpl. lia.
    + constructor; [lia | done].
Qed.

Lemma spec_int_partition_unordered_parts (n : Z) (part : list Z) :
  part ∈ spec_int_partition_unordered n → sum part = n ∧ Forall (λ x, 1 ≤ x) part.
Proof. apply partitions_upto_parts. Qed.

(** ** Scenarios *)

Section scenarios.
  Context {EinStr EinPath : Type}.
  Variable ve_chi : list (Z * Z) → Z → Z.
  Variable ve_einspecs : list (Z * Z) → Z → EinStr * EinPath.

(** C1 (as amended): with [dmax = 2] and every other budget at its
    default ([nmax = 3], [emax = 2], [cmax = 3], [vmax = 2]), and a
    complexity within [cmax] for the single edge and for the two-edge
    path, generation yields three prime rows, the single edge with
    [d = 1] and [d = 2] and the path [(n=3, e=2)] with [d = 2], and one
    composite row [(n=4, d=2, p=2)], the product of two [d = 1] edges. *)
Theorem dmax2_three_primes_one_composite :
  ve_chi [(0, 1)] 2 ≤ 3 → ve_chi [(0, 1); (0, 2)] 3 ≤ 3 →
  ∃ gen,
    reference_Generator ve_chi ve_einspecs 2 None None None None DmaxsNone
    = Some gen ∧
    scenario1_outcome (ve_chi [(0, 1)] 2) (ve_chi [(0, 1); (0, 2)] 3) gen.
Proof.
  intros Hc1 Hc2. unfold reference_Generator, scenario1_outcome.
  set (c1 := ve_chi [(0, 1)] 2) in *. set (c2 := ve_chi [(0, 1); (0, 2)] 3) in *.
  rewrite (Generator_ext ve_chi
             (λ edges n, if bool_decide (edges = [(0, 1)] ∧ n = 2) then c1
                         else if bool_decide (edges = [(0, 1); (0, 2)] ∧ n = 3) then c2
                         else ve_chi edges n)).
  2: { intros edges n. repeat case_bool_decide; destruct_and?; by subst. }
  clearbody c1 c2.
  destruct (at_most_three c1 Hc1) as [->|[->|[->|[->|[p1 ->]]]]];
    destruct (at_most_three c2 Hc2) as [->|[->|[->|[->|[p2 ->]]]]];
    (eexists; split; [vm_compute; reflexivity|]; repeat split; reflexivity).
Qed.

(** C2 (the code departs from the claim):
    [Generator(dmax=4, nmax=2, comp_dmaxs={4: 4})], with a complexity
    within [cmax = 2] for the single edge.  The rows
    at positions 6 and 7 of the full table are two rows of [n = 4] and
    [d = 4] that stand for different formulae (the products
    [(2,1,0)(2,3,0)] and [(2,2,0)(2,2,0)]), and both carry [k = 0]. *)
Theorem composite_rows_share_k :
  ve_chi [(0, 1)] 2 ≤ 2 →
  ∃ gen ri rj fi fj,
    reference_Generator ve_chi ve_einspecs 4 (Some 2) None None None
                        (DmaxsDict {[4 := 4]})
    = Some gen ∧
    length (gen_c_specs gen) = 4%nat ∧
    specs gen !! 6%nat = Some ri ∧ specs gen !! 7%nat = Some rj ∧
    disc_formulae gen !! 2%nat = Some fi ∧ disc_formulae gen !! 3%nat = Some fj ∧
    fi ≠ fj ∧
    (n_ind ri, d_ind ri, k_ind ri) = (4, 4, 0) ∧
    (n_ind rj, d_ind rj, k_ind rj) = (4, 4, 0).
Proof.
  intros Hc1. unfold reference_Generator.
  set (c1 := ve_chi [(0, 1)] 2) in *.
  rewrite (Generator_ext ve_chi
             (λ edges n, if bool_decide (edges = [(0, 1)] ∧ n = 2) then c1
                         else ve_chi edges n)).
  2: { intros edges n. repeat case_bool_decide; destruct_and?; by subst. }
  clearbody c1.
  assert (c1 ≤ 3) as Hc by lia.
  destruct (at_most_three c1 Hc) as [->|[->|[->|[->|[p1 ->]]]]]; [lia|..];
    (do 5 eexists; split; [vm_compute; reflexivity|];
     repeat split; try reflexivity; discriminate).
Qed.

End scenarios.

(** The shapes of an integer that settle its comparison with 3: zero,
    1, 2, 3, the four residues of a larger positive number, negative. *)
Ltac split_chi c := destruct c as [|[[?|?|]|[?|?|]|]|?].

(** C1 (the claim as stated fails): whatever [VariableElimination]
    reports, [Generator(dmax=2)] does not end with the two prime rows and
    the empty composite table of the claim.  Either the single edge is
    over the complexity budget and [CompositeGenerator] raises on the
    empty prime table, or the composite table holds the product of two
    single edges. *)
Lemma scenario1_claimed_fails :
  ¬ ∃ (ve_chi : list (Z * Z) → Z → Z)
      (ve_einspecs : list (Z * Z) → Z → unit * unit) gen,
      reference_Generator ve_chi ve_einspecs 2 None None None None DmaxsNone
      = Some gen ∧ scenario1_claimed gen.
Proof.
  intros (ve_chi & ve_einspecs & gen & Hrun & Hrows & Hcomp).
  revert Hrun. unfold reference_Generator.
  set (c1 := ve_chi [(0, 1)] 2). set (c2 := ve_chi [(0, 1); (0, 2)] 3).
  set (c3 := ve_chi [(0, 1); (1, 2)] 3).
  rewrite (Generator_ext ve_chi
             (λ edges n, if bool_decide (edges = [(0, 1)] ∧ n = 2) then c1
                         else if bool_decide (edges = [(0, 1); (0, 2)] ∧ n = 3) then c2
                         else if bool_decide (edges = [(0, 1); (1, 2)] ∧ n = 3) then c3
                         else ve_chi edges n)).
  2: { intros edges n. repeat case_bool_decide; destruct_and?; by subst. }
  clearbody c1 c2 c3.
  split_chi c1; split_chi c2; split_chi c3;
    intros Hrun; vm_compute in Hrun;
    first [discriminate Hrun | injection Hrun as <-; discriminate Hcomp].
Qed.

(** Scenario 1 at the stand-in complexity measure. *)
Lemma dmax2_three_primes_one_composite_witness :
  ∃ gen, reference_Generator chi_two no_einspecs 2 None None None None DmaxsNone
         = Some gen ∧ scenario1_outcome 2 2 gen.
Proof. apply (dmax2_three_primes_one_composite chi_two no_einspecs); done. Defined.

(** The same at the stand-in complexity measure. *)
Lemma composite_rows_share_k_witness :
  ∃ gen ri rj fi fj,
    reference_Generator chi_two no_einspecs 4 (Some 2) None None None
                        (DmaxsDict {[4 := 4]})
    = Some gen ∧
    length (gen_c_specs gen) = 4%nat ∧
    specs gen !! 6%nat = Some ri ∧ specs gen !! 7%nat = Some rj ∧
    disc_formulae gen !! 2%nat = Some fi ∧ disc_formulae gen !! 3%nat = Some fj ∧
    fi ≠ fj ∧
    (n_ind ri, d_ind ri, k_ind ri) = (4, 4, 0) ∧
    (n_ind rj, d_ind rj, k_ind rj) = (4, 4, 0).
Proof. apply (composite_rows_share_k chi_two no_einspecs). done. Defined.

(** C3 (the claim as stated fails): with [dmax = 2], whatever
    [VariableElimination] reports, it is not the case that every
    positive [d] gives a stored weighting [(d,)] of the single edge:
    [(3,)] is not stored. *)
Lemma every_positive_weighting_fails :
  ¬ ∃ (ve_chi : list (Z * Z) → Z → Z)
      (ve_einspecs : list (Z * Z) → Z → unit * unit) st,
      PrimeGenerator ve_chi ve_einspecs canon_isomorphic canon_isomorphic_vf2
                     spec_int_partition_ordered 2 None None None None = Some st ∧
      ∀ d, 0 < d →
           ∃ b weightings,
             st !! (2, 1) = Some b ∧ weightings ∈ weights_d b ∧ [d] ∈ weightings.
Proof.
  intros (ve_chi & ve_einspecs & st & Hrun & Hall).
  destruct (Hall 3) as (b & ws & Hb & Hws & Hd); [lia|].
  apply PrimeGenerator_phases in Hrun as (st0 & _ & _ & (b' & Hb' & Hw) & _).
  simplify_eq. rewrite Hw in Hws. apply list_elem_of_singleton in Hws as ->.
  apply elem_of_single_edge_weightings in Hd as (d & [= <-] & ?). lia.
Qed.

(** The reference run with [dmax = 2]. *)
Lemma single_edge_weightings_up_to_dmax_witness :
  ∃ st, reference_PrimeGenerator 2 None None None None = Some st ∧
        ∃ b, st !! (2, 1) = Some b ∧
             weights_d b = [single_edge_weightings 2] ∧
             ∀ w, w ∈ single_edge_weightings 2 ↔ ∃ d, w = [d] ∧ 1 ≤ d ≤ 2.
Proof.
  destruct (reference_PrimeGenerator 2 None None None None) as [st|] eqn:Hrun;
    [|vm_compute in Hrun; discriminate Hrun].
  exists st. split; [reflexivity|].
  exact (single_edge_weightings_up_to_dmax _ _ _ _ _ _ _ _ _ _ st Hrun).
Defined.

(** The reference run with [dmax = 4] (defaults [cmax = 5], [vmax = 4]). *)
Lemma accepted_graphs_distinct_and_within_budget_witness :
  ∃ st, reference_PrimeGenerator 4 None None None None = Some st ∧
        ∀ ne b, st !! ne = Some b →
          (∀ (i j : nat) gi gj,
             i ≠ j → simple_graphs_d b !! i = Some gi →
             simple_graphs_d b !! j = Some gj → canon_isomorphic gi gj = false) ∧
          (∀ (i : nat) g,
             simple_graphs_d b !! i = Some g →
             chis_d b !! i = Some (chi_two (get_edgelist g) ne.1) ∧
             chi_two (get_edgelist g) ne.1 ≤ 5 ∧
             vs_d b !! i = Some (maxdegree g) ∧ maxdegree g ≤ 4).
Proof.
  destruct (reference_PrimeGenerator 4 None None None None) as [st|] eqn:Hrun;
    [|vm_compute in Hrun; discriminate Hrun].
  exists st. split; [reflexivity|].
  exact (proj2 (accepted_graphs_distinct_and_within_budget
                  _ _ _ _ _ _ _ _ _ _ st canon_isomorphic_sym Hrun)).
Defined.

(** The reference run with [dmax = 4]; the reference colour-preserving
    test is symmetric and tells the colours of the single edge apart. *)
Lemma accepted_weightings_distinct_witness :
  ∃ st, reference_PrimeGenerator 4 None None None None = Some st ∧
        ∀ ne b (i : nat) graph weightings,
          st !! ne = Some b →
          simple_graphs_d b !! i = Some graph → weights_d b !! i = Some weightings →
          ∀ (j k : nat) wj wk,
            j ≠ k → weightings !! j = Some wj → weightings !! k = Some wk →
            canon_isomorphic_vf2 graph wj wk = false.
Proof.
  destruct (reference_PrimeGenerator 4 None None None None) as [st|] eqn:Hrun;
    [|vm_compute in Hrun; discriminate Hrun].
  exists st. split; [reflexivity|].
  exact (proj2 (accepted_weightings_distinct
                  _ _ _ _ _ _ _ _ _ _ st canon_isomorphic_vf2_sym
                  canon_isomorphic_vf2_single_edge Hrun)).
Defined.

(** The reference run with [dmax = 4]; the compositions sum to [d]. *)
Lemma prime_rows_degree_witness :
  ∃ st, reference_PrimeGenerator 4 None None None None = Some st ∧
        ∀ row, row ∈ acc_c_specs (results st) →
          ∃ weighting,
            0 ≤ w_ind row ∧
            acc_weights (results st) !! Z.to_nat (w_ind row) = Some weighting ∧
            d_ind row = sum weighting ∧ e_ind row ≤ d_ind row.
Proof.
  destruct (reference_PrimeGenerator 4 None None None None) as [st|] eqn:Hrun;
    [|vm_compute in Hrun; discriminate Hrun].
  exists st. split; [reflexivity|].
  exact (prime_rows_degree _ _ _ _ _ _ _ _ _ _ st
           spec_int_partition_ordered_sum Hrun).
Defined.

(** [CompositeGenerator] on the prime table of scenario 1 with
    [dmaxs = 4]. *)
Lemma composite_formulae_pairwise_distinct_witness :
  ∃ rows forms,
    CompositeGenerator spec_int_partition_unordered dmax2_primes (DmaxsInt 4)
    = Some (rows, forms) ∧
    length rows = length forms ∧
    ∀ (i j : nat) fi fj,
      i ≠ j → forms !! i = Some fi → forms !! j = Some fj →
      sorted triple_leb fi ≠ sorted triple_leb fj.
Proof.
  destruct (CompositeGenerator spec_int_partition_unordered dmax2_primes (DmaxsInt 4))
    as [[rows forms]|] eqn:Hrun; [|vm_compute in Hrun; discriminate Hrun].
  exists rows, forms. split; [reflexivity|].
  exact (composite_formulae_pairwise_distinct _ _ _ rows forms Hrun).
Defined.

(** The same call; the reference partitions are lists of positive parts
    that sum to [n]. *)
Lemma composite_rows_bounds_witness :
  ∃ rows forms,
    CompositeGenerator spec_int_partition_unordered dmax2_primes (DmaxsInt 4)
    = Some (rows, forms) ∧
    Forall (λ row, 4 ≤ n_ind row ∧ n_ind row ≤ 2 * d_ind row) rows.
Proof.
  destruct (CompositeGenerator spec_int_partition_unordered dmax2_primes (DmaxsInt 4))
    as [[rows forms]|] eqn:Hrun; [|vm_compute in Hrun; discriminate Hrun].
  exists rows, forms. split; [reflexivity|].
  exact (composite_rows_bounds _ _ _ rows forms
           spec_int_partition_unordered_parts Hrun).
Defined.

(** The two-edge path with [dmax = vmax = 3]. *)
Lemma valency_rejection_only_when_tighter_witness :
  graph_weightings canon_isomorphic_vf2 spec_int_partition_ordered 3 3 3 2
                   (attach_vertex (Full 2) 0 3)
  = Some (foldl (isomorphism_only canon_isomorphic_vf2 (attach_vertex (Full 2) 0 3)) []
                (candidates spec_int_partition_ordered 3 3 2)).
Proof.
  apply (proj2 (proj2 (proj2 (proj2 (valency_rejection_only_when_tighter
                         canon_isomorphic_vf2 spec_int_partition_ordered 3 3))))).
  lia.
Defined.

(** * Further properties of the generators *)

(** ** The shape of the accepted graphs, and when the search succeeds *)

Lemma for_each_Some_inv {A S : Type} (P : S → Prop) (xs : list A)
    (body : S → A → option S) (s : S) :
  P s →
  (∀ s x, P s → x ∈ xs → ∃ s', body s x = Some s' ∧ P s') →
  ∃ s', for_each xs body s = Some s' ∧ P s'.
Proof.
  revert s. induction xs as [|x xs IH]; intros s Hs Hbody; simpl; [by exists s|].
  destruct (Hbody s x Hs) as (s1 & -> & Hs1); [by left|]. simpl.
  apply IH; [done|]. intros s2 y Hs2 Hy. apply Hbody; [done | by right].
Qed.

Lemma elem_of_combinations2 (n a b : Z) :
  (a, b) ∈ combinations2 n ↔ 0 ≤ a ∧ a < b ∧ b < n.
Proof.
  unfold combinations2. rewrite list_elem_of_bind. split.
  - intros (i & (j & [= -> ->] & Hj%elem_of_range)%list_elem_of_fmap & Hi%elem_of_range).
    lia.
  - intros (Ha & Hab & Hb). exists a. split; [|apply elem_of_range; lia].
    apply list_elem_of_fmap. exists b. split; [done|]. apply elem_of_range. lia.
Qed.

Lemma elem_of_keys (nmax emax n e : Z) :
  (n, e) ∈ keys nmax emax ↔ n ∈ ns nmax ∧ e ∈ esbyn emax n.
Proof.
  unfold keys. rewrite list_elem_of_bind. split.
  - by intros (n' & (e' & [= -> ->] & He)%list_elem_of_fmap & Hn).
  - intros [Hn He]. exists n. split; [|done]. apply list_elem_of_fmap. by exists e.
Qed.

Lemma single_edge_key (nmax emax : Z) :
  (2, 1) ∈ keys nmax emax ↔ 2 ≤ nmax ∧ 1 ≤ emax.
Proof.
  rewrite elem_of_keys. unfold ns, esbyn, emaxs. rewrite !elem_of_range.
  change (2 * (2 - 1) / 2) with 1. lia.
Qed.

Lemma elem_of_zip_fmap {A B : Type} (f : A → B) (l : list A) (x : A) (y : B) :
  (x, y) ∈ zip l (f <$> l) → y = f x ∧ x ∈ l.
Proof.
  induction l as [|z l IH]; simpl; [by intros ?%elem_of_nil|].
  intros [[= -> ->]|Hin]%elem_of_cons; [split; [done | by left]|].
  destruct (IH Hin). split; [done | by right].
Qed.

(** A simple graph on the vertices [0 .. n-1] with [e] edges, each edge
    written with its smaller endpoint first. *)
Definition graph_shape (n e : Z) (g : Graph) : Prop :=
  vcount g = n ∧ Z.of_nat (length (get_edgelist g)) = e ∧
  Forall (λ ab : Z * Z, 0 ≤ ab.1 ∧ ab.1 < ab.2 ∧ ab.2 < n) (get_edgelist g) ∧
  NoDup (get_edgelist g).

Lemma graph_shape_Full2 : graph_shape 2 1 (Full 2).
Proof.
  repeat split; [|apply NoDup_singleton].
  by apply Forall_singleton.
Qed.

Lemma graph_shape_attach_vertex (n e v : Z) (seed : Graph) :
  graph_shape (n - 1) (e - 1) seed → v ∈ range 0 (n - 1) →
  graph_shape n e (attach_vertex seed v n).
Proof.
  intros (Hv & He & Hedges & Hnd) Hin%elem_of_range.
  unfold attach_vertex, add_edges, add_vertices. repeat split; simpl.
  - lia.
  - rewrite length_app. simpl. lia.
  - apply Forall_app. split; [|apply Forall_singleton; simpl; lia].
    eapply Forall_impl; [exact Hedges|]. simpl. lia.
  - apply NoDup_app. split; [done|]. split; [|apply NoDup_singleton].
    intros ab Hab ->%list_elem_of_singleton.
    rewrite Forall_forall in Hedges. specialize (Hedges _ Hab). simpl in Hedges. lia.
Qed.

Lemma graph_shape_add_edge (n e : Z) (seed : Graph) (new_edge : Z * Z) :
  graph_shape n (e - 1) seed → new_edge ∈ _edge_filter n (get_edgelist seed) →
  graph_shape n e (add_edges [new_edge] seed).
Proof.
  intros (Hv & He & Hedges & Hnd) [Hnew Hbase]%list_elem_of_filter.
  unfold base_edges in Hbase. destruct new_edge as [a b].
  apply elem_of_combinations2 in Hbase.
  unfold add_edges. repeat split; simpl.
  - done.
  - rewrite length_app. simpl. lia.
  - apply Forall_app. split; [done|]. apply Forall_singleton. simpl. lia.
  - apply NoDup_app. split; [done|]. split; [|apply NoDup_singleton].
    by intros ab Hab ->%list_elem_of_singleton.
Qed.

Section search_invariant.
  Context {EinStr EinPath : Type}.
  Variable ve_chi : list (Z * Z) → Z → Z.
  Variable ve_einspecs : list (Z * Z) → Z → EinStr * EinPath.
  Variable isomorphic : Graph → Graph → bool.
  Variables nmax emax cmax vmax : Z.

  Abbreviation Containers := (gmap (Z * Z) (Bucket EinStr EinPath)).
  Abbreviation add_if_new := (_add_if_new ve_chi ve_einspecs isomorphic cmax vmax).

Definition shapes_ok (st : Containers) : Prop :=
  ∀ n e b, st !! (n, e) = Some b → Forall (graph_shape n e) (simple_graphs_d b).

Definition keyed (st : Containers) : Prop :=
  ∀ ne, is_Some (st !! ne) ↔ ne ∈ keys nmax emax.

(** Everything the search keeps true of the containers. *)
Definition search_inv (st : Containers) : Prop :=
  (containers_ok ve_chi ve_einspecs isomorphic cmax vmax st ∧ no_weights st) ∧
  shapes_ok st ∧ keyed st.

Lemma add_if_new_total (st : Containers) (g : Graph) (ne : Z * Z) :
  is_Some (st !! ne) → is_Some (add_if_new st g ne).
Proof.
  intros [b Hb]. unfold _add_if_new. rewrite Hb. simpl.
  repeat (case_match; try done).
Qed.

Lemma add_if_new_inv (st : Containers) (g : Graph) (n e : Z) :
  graph_shape n e g → ((n, e) = (2, 1) → g = Full 2) → (n, e) ∈ keys nmax emax →
  search_inv st →
  ∃ st', add_if_new st g (n, e) = Some st' ∧ search_inv st'.
Proof.
  intros Hshape Hsingle Hkey (Hok & Hshapes & Hkeyed).
  destruct (add_if_new_total st g (n, e)) as [st' Hrun]; [by apply Hkeyed|].
  exists st'. split; [done|]. split; [by eapply add_if_new_ok|].
  apply add_if_new_cases in Hrun as [->|(b & Hb & _ & _ & _ & ->)]; [done|]. split.
  - intros n' e' b'. destruct (decide ((n, e) = (n', e'))) as [[= <- <-]|Hne].
    + rewrite lookup_insert_eq. intros [= <-]. simpl.
      apply Forall_app. split; [by eapply Hshapes | by apply Forall_singleton].
    + rewrite lookup_insert_ne by done. apply Hshapes.
  - intros ne. specialize (Hkeyed ne). rewrite <-Hkeyed.
    destruct (decide ((n, e) = ne)) as [<-|Hne].
    + rewrite lookup_insert_eq, Hb. split; eauto.
    + by rewrite lookup_insert_ne.
Qed.

Lemma init_containers_inv : search_inv (init_containers nmax emax).
Proof.
  split; [apply init_containers_ok|]. split.
  - intros n e b Hb. unfold init_containers in Hb.
    apply elem_of_list_to_map_2, list_elem_of_fmap in Hb as (? & [= _ ->] & _).
    constructor.
  - intros ne. unfold init_containers.
    rewrite <-elem_of_dom, dom_list_to_map_L, elem_of_list_to_set, <-list_fmap_compose.
    rewrite list_elem_of_fmap. split; [by intros (? & -> & ?) | by eexists].
Qed.

Lemma drop_ns (n : Z) : n ∈ drop 1 (ns nmax) → 3 ≤ n ∧ n ∈ ns nmax ∧ n - 1 ∈ ns nmax.
Proof.
  unfold ns. intros Hn%elem_of_drop_range. rewrite !elem_of_range. lia.
Qed.

Lemma grow_by_vertex_inv (n e : Z) (st : Containers) :
  n ∈ drop 1 (ns nmax) → e ∈ esbyn emax n → search_inv st →
  ∃ st', grow_by_vertex ve_chi ve_einspecs isomorphic emax cmax vmax n e st = Some st' ∧
         search_inv st'.
Proof.
  intros (Hn3 & Hn & Hn1)%drop_ns He Hst. unfold grow_by_vertex.
  case_bool_decide as Hguard; [|by exists st].
  destruct Hst as (Hok & Hshapes & Hkeyed).
  destruct (proj2 (Hkeyed (n - 1, e - 1))) as [seeds Hseeds];
    [by apply elem_of_keys|].
  rewrite Hseeds. simpl.
  pose proof (Hshapes _ _ _ Hseeds) as Hseedshapes. rewrite Forall_forall in Hseedshapes.
  apply for_each_Some_inv; [done|]. intros s1 seed Hs1 Hseed.
  apply for_each_Some_inv; [done|]. intros s2 v Hs2 Hv.
  apply add_if_new_inv; [|intros [= ? ?]; lia|by apply elem_of_keys|done].
  apply graph_shape_attach_vertex; [by apply Hseedshapes | done].
Qed.

Lemma grow_by_edge_inv (n e : Z) (st : Containers) :
  n ∈ drop 1 (ns nmax) → e ∈ esbyn emax n → search_inv st →
  ∃ st', grow_by_edge ve_chi ve_einspecs isomorphic emax cmax vmax n e st = Some st' ∧
         search_inv st'.
Proof.
  intros (Hn3 & Hn & Hn1)%drop_ns He Hst. unfold grow_by_edge.
  case_bool_decide as Hguard; [|by exists st].
  destruct Hst as ((Hok & Hnw) & Hshapes & Hkeyed).
  destruct (proj2 (Hkeyed (n, e - 1))) as [seeds Hseeds];
    [by apply elem_of_keys|].
  rewrite Hseeds. simpl.
  pose proof (Hshapes _ _ _ Hseeds) as Hseedshapes. rewrite Forall_forall in Hseedshapes.
  pose proof (ok_edges _ _ _ _ _ _ _ (Hok _ _ Hseeds)) as Hedges.
  apply for_each_Some_inv; [done|]. intros s1 [seed seed_edges] Hs1 Hseed.
  rewrite Hedges in Hseed. apply elem_of_zip_fmap in Hseed as [-> Hseed].
  apply for_each_Some_inv; [done|]. intros s2 new_edge Hs2 Hnew. simpl in *.
  apply add_if_new_inv; [|intros [= ? ?]; lia|by apply elem_of_keys|done].
  apply graph_shape_add_edge; [by apply Hseedshapes | done].
Qed.

(** [generate_simple] fails at once when [(2, 1)] is no key, and
    otherwise runs to its end. *)
Lemma generate_simple_runs :
  (2, 1) ∈ keys nmax emax →
  ∃ st, generate_simple ve_chi ve_einspecs isomorphic nmax emax cmax vmax
                        (init_containers nmax emax) = Some st ∧ search_inv st.
Proof.
  intros Hkey. unfold generate_simple.
  destruct (add_if_new_inv (init_containers nmax emax) (Full 2) 2 1)
    as (st1 & -> & Hst1);
    [apply graph_shape_Full2 | done | done | apply init_containers_inv|].
  simpl. apply for_each_Some_inv; [done|]. intros s1 n Hs1 Hn.
  apply for_each_Some_inv; [done|]. intros s2 e Hs2 He.
  destruct (grow_by_vertex_inv n e s2) as (s3 & -> & Hs3); [done..|]. simpl.
  by apply grow_by_edge_inv.
Qed.

Lemma generate_simple_fails :
  (2, 1) ∉ keys nmax emax →
  generate_simple ve_chi ve_einspecs isomorphic nmax emax cmax vmax
                  (init_containers nmax emax) = None.
Proof.
  intros Hkey. unfold generate_simple, _add_if_new.
  destruct (init_containers nmax emax !! (2, 1)) as [b|] eqn:Hb; [|done].
  exfalso. apply Hkey. apply (proj2 init_containers_inv). eauto.
Qed.

End search_invariant.

Section weights_run.
  Context {EinStr EinPath : Type}.
  Variable isomorphic_vf2 : Graph → list Z → list Z → bool.
  Variable int_partition_ordered : Z → Z → list (list Z).
  Variables dmax nmax emax vmax : Z.

  Abbreviation Containers := (gmap (Z * Z) (Bucket EinStr EinPath)).

Lemma py_max_is_Some (xs : list Z) : xs ≠ [] → is_Some (py_max xs).
Proof. destruct xs; [done | by eexists]. Qed.

Lemma try_weighting_total (graph : Graph) (weightings : list (list Z)) (part : list Z) :
  0 < vcount graph →
  is_Some (try_weighting isomorphic_vf2 dmax vmax graph weightings part).
Proof.
  intros Hv. unfold try_weighting, valency_exceeded.
  case_bool_decide; simpl; [|by destruct (existsb _ _)].
  destruct (py_max_is_Some (strength graph part)) as [m ->].
  { unfold strength. rewrite range_cons by lia. done. }
  simpl. case_bool_decide; [done|]. by destruct (existsb _ _).
Qed.

Lemma graph_weightings_total (n e : Z) (graph : Graph) :
  0 < vcount graph →
  is_Some (graph_weightings isomorphic_vf2 int_partition_ordered dmax vmax n e graph).
Proof.
  intros Hv. unfold graph_weightings.
  destruct (for_each_Some_inv (λ _, True) (candidates int_partition_ordered dmax n e)
              (try_weighting isomorphic_vf2 dmax vmax graph) [])
    as (ws & -> & _); [done| |done].
  intros ws part _ _. destruct (try_weighting_total graph ws part Hv) as [ws' ->].
  by exists ws'.
Qed.

Lemma append_weightings_inv (n e : Z) (weightings : list (list Z)) (st : Containers) :
  (n, e) ∈ keys nmax emax →
  shapes_ok st ∧ keyed nmax emax st →
  ∃ st', append_weightings (n, e) weightings st = Some st' ∧
         shapes_ok st' ∧ keyed nmax emax st'.
Proof.
  intros Hkey [Hshapes Hkeyed]. destruct (proj2 (Hkeyed (n, e)) Hkey) as [b Hb].
  unfold append_weightings. rewrite Hb. simpl. eexists. split; [done|]. split.
  - intros n' e' b'. destruct (decide ((n, e) = (n', e'))) as [[= <- <-]|Hne].
    + rewrite lookup_insert_eq. intros [= <-]. simpl. by eapply Hshapes.
    + rewrite lookup_insert_ne by done. apply Hshapes.
  - intros ne. specialize (Hkeyed ne). rewrite <-Hkeyed.
    destruct (decide ((n, e) = ne)) as [<-|Hne].
    + rewrite lookup_insert_eq, Hb. split; eauto.
    + by rewrite lookup_insert_ne.
Qed.

(** [generate_weights] runs to its end on the containers the search
    leaves behind. *)
Lemma generate_weights_runs (st0 : Containers) :
  (2, 1) ∈ keys nmax emax →
  shapes_ok st0 ∧ keyed nmax emax st0 →
  ∃ st, generate_weights isomorphic_vf2 int_partition_ordered dmax nmax emax vmax st0
        = Some st ∧ shapes_ok st ∧ keyed nmax emax st.
Proof.
  intros H21 Hst0. unfold generate_weights.
  destruct (append_weightings_inv 2 1
              ((λ d, [d]) <$> range 1 (dmaxs dmax (2, 1) + 1)) st0 H21 Hst0)
    as (st1 & -> & Hst1).
  simpl. apply for_each_Some_inv; [done|]. intros s1 n Hs1 Hn.
  apply drop_ns in Hn as (Hn3 & Hn & _).
  apply for_each_Some_inv; [done|]. intros s2 e Hs2 He.
  assert ((n, e) ∈ keys nmax emax) as Hkey by (by apply elem_of_keys).
  destruct (proj2 (proj2 Hs2 (n, e)) Hkey) as [graphs Hgraphs]. rewrite Hgraphs. simpl.
  pose proof (proj1 Hs2 _ _ _ Hgraphs) as Hshapes. rewrite Forall_forall in Hshapes.
  apply for_each_Some_inv; [done|]. intros s3 graph Hs3 Hgraph.
  destruct (graph_weightings_total n e graph) as [ws ->].
  { destruct (Hshapes _ Hgraph) as (-> & _). lia. }
  simpl. by apply append_weightings_inv.
Qed.

End weights_run.

(** ** The prime spec table, row by row *)

Section results_rows.
  Context {EinStr EinPath : Type}.

  Abbreviation Containers := (gmap (Z * Z) (Bucket EinStr EinPath)).
  Abbreviation Acc := (@ResultsAcc EinStr EinPath).

(** An invariant of [results] need only be checked graph by graph. *)
Lemma results_by_graph (P : Acc → Prop) (st : Containers) :
  P (mkAcc [] [] [] [] [] ∅ 0 0) →
  (∀ n e b z a,
     st !! (n, e) = Some b →
     z ∈ zip_bucket (edges_d b) (weights_d b) (chis_d b) (vs_d b)
                    (einstrs_d b) (einpaths_d b) →
     P a → P (results_graph n e a z)) →
  P (results st).
Proof.
  intros H0 Hstep. unfold results. apply foldl_inv; [done|].
  intros a [[n e] b] Ha Hin.
  apply elem_of_sorted, elem_of_map_to_list in Hin.
  unfold results_bucket. apply foldl_inv; [done|].
  intros a' z Ha' Hz. by eapply Hstep.
Qed.

Definition same_nd (n d : Z) (row : Spec) : Prop := n_ind row = n ∧ d_ind row = d.

#[local] Instance same_nd_dec n d row : Decision (same_nd n d row).
Proof. unfold same_nd. apply _. Defined.

(** The number of rows of [rows] with the given [n] and [d]. *)
Definition count_nd (n d : Z) (rows : list Spec) : Z :=
  Z.of_nat (length (filter (same_nd n d) rows)).

(** [ks[(n,d)]] is the number of rows with that [(n, d)] so far, each
    row's [k] the number of such rows before it, and each row's [w] its
    own position, which is also its weighting's. *)
Definition counters_ok (a : Acc) : Prop :=
  (∀ n d, default 0 (acc_ks a !! (n, d)) = count_nd n d (acc_c_specs a)) ∧
  (∀ (i : nat) row, acc_c_specs a !! i = Some row →
     k_ind row = count_nd (n_ind row) (d_ind row) (take i (acc_c_specs a)) ∧
     w_ind row = Z.of_nat i ∧ p_ind row = 1 ∧
     ∃ weighting, acc_weights a !! i = Some weighting ∧ d_ind row = sum weighting) ∧
  acc_w a = Z.of_nat (length (acc_c_specs a)) ∧
  length (acc_weights a) = length (acc_c_specs a).

Lemma count_nd_snoc (n d : Z) (rows : list Spec) (row : Spec) :
  count_nd n d (rows ++ [row])
  = count_nd n d rows + (if decide (same_nd n d row) then 1 else 0).
Proof.
  unfold count_nd. rewrite filter_app, length_app.
  rewrite filter_cons, filter_nil. destruct (decide _); simpl; lia.
Qed.

Lemma results_weighting_counters (n e v chi : Z) (a : Acc) (weighting : list Z) :
  counters_ok a → counters_ok (results_weighting n e v chi a weighting).
Proof.
  intros (Hks & Hrows & Hw & Hlen). unfold counters_ok. simpl.
  split; [|split; [|split]].
  - intros n' d'. rewrite count_nd_snoc. simpl.
    destruct (decide ((n, sum weighting) = (n', d'))) as [[= <- <-]|Hne].
    + rewrite lookup_insert_eq. simpl. rewrite Hks.
      rewrite decide_True by done. lia.
    + rewrite lookup_insert_ne by done. rewrite Hks.
      rewrite decide_False; [lia|]. unfold same_nd. simpl. intros [? ?]. by subst.
  - intros i row Hi.
    destruct (decide (i < length (acc_c_specs a))%nat) as [Hlt|Hge].
    + rewrite lookup_app_l in Hi by done.
      destruct (Hrows i row Hi) as (Hk & Hwi & Hp & w0 & Hw0 & Hd).
      rewrite take_app_le by lia. repeat split; [done..|].
      exists w0. split; [|done]. by apply lookup_app_l_Some.
    + rewrite lookup_app_r in Hi by lia.
      destruct (i - length (acc_c_specs a))%nat as [|?] eqn:Hdiff; simplify_eq/=.
      assert (i = length (acc_c_specs a)) as -> by lia.
      rewrite take_app_length. repeat split; [by rewrite Hks | lia |].
      exists weighting. split; [|done].
      rewrite <-Hlen. by rewrite list_lookup_middle.
  - rewrite length_app. simpl. lia.
  - rewrite !length_app. simpl. lia.
Qed.

Lemma results_counters (st : Containers) : counters_ok (results st).
Proof.
  apply results_by_graph.
  - repeat split; simpl; done.
  - intros n e b [[[[[edgs wghts] chi] v] es] ep] a _ _ Ha. simpl.
    assert (counters_ok (foldl (results_weighting n e v chi) a wghts)) as Hfold.
    { apply foldl_inv; [done|]. intros a' w Ha' _. by apply results_weighting_counters. }
    exact Hfold.
Qed.

Lemma count_nd_take_lt (n d : Z) (rows : list Spec) (i j : nat) (row : Spec) :
  (i < j)%nat → rows !! i = Some row → same_nd n d row →
  count_nd n d (take i rows) < count_nd n d (take j rows).
Proof.
  intros Hij Hi Hrow.
  assert (take j rows = take i rows ++ row :: take (j - S i) (drop (S i) rows)) as ->.
  { rewrite <-(take_drop_middle rows i row Hi) at 1.
    rewrite take_app_ge by (rewrite length_take; apply lookup_lt_Some in Hi; lia).
    rewrite length_take_le by (apply lookup_lt_Some in Hi; lia).
    f_equal. destruct (j - i)%nat as [|m] eqn:Hm; [lia|].
    simpl. do 2 f_equal. lia. }
  unfold count_nd. rewrite filter_app, filter_cons, decide_True by done.
  rewrite length_app. simpl. lia.
Qed.

(** X1: the [k] of a prime row is the number of earlier rows with the
    same [n] and [d]; hence two different rows with the same [n] and
    [d] have different [k], whatever the containers hold. *)
Theorem prime_k_counts_earlier_rows (st : Containers) :
  (∀ (i : nat) row,
     acc_c_specs (results st) !! i = Some row →
     k_ind row = count_nd (n_ind row) (d_ind row) (take i (acc_c_specs (results st)))) ∧
  (∀ (i j : nat) ri rj,
     i ≠ j →
     acc_c_specs (results st) !! i = Some ri →
     acc_c_specs (results st) !! j = Some rj →
     n_ind ri = n_ind rj → d_ind ri = d_ind rj → k_ind ri ≠ k_ind rj).
Proof.
  destruct (results_counters st) as (_ & Hrows & _).
  split; [intros i row Hi; by destruct (Hrows i row Hi)|].
  intros i j ri rj Hij Hi Hj Hn Hd.
  destruct (Hrows i ri Hi) as (-> & _), (Hrows j rj Hj) as (-> & _).
  rewrite Hn, Hd.
  destruct (decide (i < j)%nat).
  - assert (count_nd (n_ind rj) (d_ind rj) (take i (acc_c_specs (results st)))
            < count_nd (n_ind rj) (d_ind rj) (take j (acc_c_specs (results st))))
      as Hlt by (by apply (count_nd_take_lt _ _ _ i j ri)).
    lia.
  - assert (count_nd (n_ind rj) (d_ind rj) (take j (acc_c_specs (results st)))
            < count_nd (n_ind rj) (d_ind rj) (take i (acc_c_specs (results st))))
      as Hlt by (by apply (count_nd_take_lt _ _ _ j i rj); [lia|..]).
    lia.
Qed.

(** X2: the [i]-th row of the prime table has [w = i] and [p = 1], the
    weight table is as long as the spec table, and the weighting at
    position [i] sums to the row's [d]. *)
Theorem prime_rows_parallel_weights (st : Containers) :
  length (acc_weights (results st)) = length (acc_c_specs (results st)) ∧
  ∀ (i : nat) row,
    acc_c_specs (results st) !! i = Some row →
    w_ind row = Z.of_nat i ∧ p_ind row = 1 ∧
    ∃ weighting, acc_weights (results st) !! i = Some weighting ∧
                 d_ind row = sum weighting.
Proof.
  destruct (results_counters st) as (_ & Hrows & _ & Hlen).
  split; [done|]. intros i row Hi. by destruct (Hrows i row Hi) as (_ & ? & ? & ?).
Qed.

End results_rows.

(** ** The graph columns of the prime table *)

Section results_graphs.
  Context {EinStr EinPath : Type}.

  Abbreviation Containers := (gmap (Z * Z) (Bucket EinStr EinPath)).
  Abbreviation Acc := (@ResultsAcc EinStr EinPath).

Lemma zip_bucket_lookup (es : list (list (Z * Z))) (ws : list (list (list Z)))
    (cs vs : list Z) (ss : list EinStr) (ps : list EinPath)
    (edgs : list (Z * Z)) (wghts : list (list Z)) (chi v : Z)
    (s : EinStr) (p : EinPath) :
  (edgs, wghts, chi, v, s, p) ∈ zip_bucket es ws cs vs ss ps →
  ∃ i : nat, es !! i = Some edgs ∧ ws !! i = Some wghts ∧ cs !! i = Some chi ∧
             vs !! i = Some v ∧ ss !! i = Some s ∧ ps !! i = Some p.
Proof.
  revert ws cs vs ss ps.
  induction es as [|e es IH]; intros [|w ws] [|c cs] [|v' vs] [|s' ss] [|p' ps];
    simpl; try by intros ?%elem_of_nil.
  intros [Heq|Hz]%elem_of_cons.
  - injection Heq as -> -> -> -> -> ->. by exists 0%nat.
  - destruct (IH _ _ _ _ _ Hz) as (i & ?). by exists (S i).
Qed.

(** Every row so far points, through [g], at an entry of the three
    graph tables which stands in the relation [Q] to it; the three
    tables grow together and the counter [g] is their length. *)
Definition graph_cols_ok (Q : Spec → list (Z * Z) → EinStr → EinPath → Prop)
    (a : Acc) : Prop :=
  acc_g a = Z.of_nat (length (acc_edges a)) ∧
  length (acc_einstrs a) = length (acc_edges a) ∧
  length (acc_einpaths a) = length (acc_edges a) ∧
  Forall (λ row, 0 ≤ g_ind row ∧
                 ∃ edgs es ep,
                   acc_edges a !! Z.to_nat (g_ind row) = Some edgs ∧
                   acc_einstrs a !! Z.to_nat (g_ind row) = Some es ∧
                   acc_einpaths a !! Z.to_nat (g_ind row) = Some ep ∧
                   Q row edgs es ep)
         (acc_c_specs a).

(** The loop over the weightings of one graph only appends rows, all
    with this graph's columns. *)
Lemma results_weightings_rows (n e v chi : Z) (a : Acc) (wghts : list (list Z)) :
  let a' := foldl (results_weighting n e v chi) a wghts in
  acc_edges a' = acc_edges a ∧ acc_einstrs a' = acc_einstrs a ∧
  acc_einpaths a' = acc_einpaths a ∧ acc_g a' = acc_g a ∧
  ∃ new, acc_c_specs a' = acc_c_specs a ++ new ∧
         Forall (λ row, ∃ weighting k w,
                   weighting ∈ wghts ∧
                   row = mkSpec n e (sum weighting) v k (acc_g a) w chi 1) new.
Proof.
  apply (foldl_inv (λ a', acc_edges a' = acc_edges a ∧ acc_einstrs a' = acc_einstrs a ∧
                          acc_einpaths a' = acc_einpaths a ∧ acc_g a' = acc_g a ∧
                          ∃ new, acc_c_specs a' = acc_c_specs a ++ new ∧
                                 Forall (λ row, ∃ weighting k w,
                                           weighting ∈ wghts ∧
                                           row = mkSpec n e (sum weighting) v k
                                                        (acc_g a) w chi 1) new)).
  - repeat split. exists []. by rewrite app_nil_r.
  - intros a' weighting (He & Hs & Hp & Hg & new & Hrows & Hnew) Hin. simpl.
    repeat split; [done..|]. eexists (new ++ [_]). rewrite Hrows, Hg.
    split; [by rewrite app_assoc|].
    apply Forall_app. split; [done|]. constructor; [|done]. eauto.
Qed.

Lemma results_graph_cols (Q : Spec → list (Z * Z) → EinStr → EinPath → Prop)
    (st : Containers) :
  (∀ n e b (i : nat) edgs wghts chi v es ep weighting k g w,
     st !! (n, e) = Some b →
     edges_d b !! i = Some edgs → weights_d b !! i = Some wghts →
     chis_d b !! i = Some chi → vs_d b !! i = Some v →
     einstrs_d b !! i = Some es → einpaths_d b !! i = Some ep →
     weighting ∈ wghts →
     Q (mkSpec n e (sum weighting) v k g w chi 1) edgs es ep) →
  graph_cols_ok Q (results st).
Proof.
  intros HQ. apply results_by_graph.
  - repeat split; simpl; constructor.
  - intros n e b [[[[[edgs wghts] chi] v] es] ep] a Hb Hz (Hg & Hls & Hlp & Hrows).
    apply zip_bucket_lookup in Hz as (i & Hi1 & Hi2 & Hi3 & Hi4 & Hi5 & Hi6).
    simpl.
    destruct (results_weightings_rows n e v chi a wghts)
      as (-> & -> & -> & -> & new & -> & Hnew).
    unfold graph_cols_ok. simpl. rewrite !length_app. simpl.
    repeat split; [lia..|].
    apply Forall_app. split.
    + eapply Forall_impl; [exact Hrows|]. simpl.
      intros row (H0 & edgs' & es' & ep' & He & Hs & Hp & Hq).
      split; [done|]. exists edgs', es', ep'.
      repeat split; [by apply lookup_app_l_Some..|done].
    + eapply Forall_impl; [exact Hnew|]. simpl.
      intros row (weighting & k & w & Hin & ->). simpl. split; [lia|].
      exists edgs, es, ep. rewrite Hg, Nat2Z.id.
      repeat split.
      * by apply list_lookup_middle.
      * by apply list_lookup_middle.
      * by apply list_lookup_middle.
      * by eapply HQ.
Qed.

End results_graphs.

(** ** PrimeGenerator: when it runs, and what its tables then hold *)

Section prime_run.
  Context {EinStr EinPath : Type}.
  Variable ve_chi : list (Z * Z) → Z → Z.
  Variable ve_einspecs : list (Z * Z) → Z → EinStr * EinPath.
  Variable isomorphic : Graph → Graph → bool.
  Variable isomorphic_vf2 : Graph → list Z → list Z → bool.
  Variable int_partition_ordered : Z → Z → list (list Z).
  Variable dmax : Z.
  Variables nmax emax cmax vmax : option Z.

  Abbreviation Containers := (gmap (Z * Z) (Bucket EinStr EinPath)).
  Abbreviation run :=
    (PrimeGenerator ve_chi ve_einspecs isomorphic isomorphic_vf2
                    int_partition_ordered dmax nmax emax cmax vmax).
  Abbreviation the_keys := (keys (nmax_of dmax nmax) (emax_of dmax emax)).

Lemma PrimeGenerator_runs :
  (2, 1) ∈ the_keys →
  ∃ st, run = Some st ∧ shapes_ok st ∧
        keyed (nmax_of dmax nmax) (emax_of dmax emax) st.
Proof.
  intros Hk.
  destruct (generate_simple_runs ve_chi ve_einspecs isomorphic _ _
              (cmax_of dmax nmax cmax) (vmax_of dmax vmax) Hk)
    as (st0 & Hs & (_ & Hsh & Hky)).
  destruct (generate_weights_runs isomorphic_vf2 int_partition_ordered dmax _ _
              (vmax_of dmax vmax) st0 Hk (conj Hsh Hky)) as (st & Hw & Hinv).
  exists st. split; [|done].
  unfold PrimeGenerator, prime_init. rewrite Hs. simpl. exact Hw.
Qed.

Lemma PrimeGenerator_fails : (2, 1) ∉ the_keys → run = None.
Proof.
  intros Hk. unfold PrimeGenerator, prime_init.
  by rewrite generate_simple_fails.
Qed.

Lemma PrimeGenerator_run_inv (st : Containers) :
  run = Some st →
  (2, 1) ∈ the_keys ∧ shapes_ok st ∧
  keyed (nmax_of dmax nmax) (emax_of dmax emax) st.
Proof.
  intros Hrun. destruct (decide ((2, 1) ∈ the_keys)) as [Hk|Hk].
  - split; [done|]. destruct (PrimeGenerator_runs Hk) as (st' & Hrun' & Hinv).
    rewrite Hrun in Hrun'. by simplify_eq.
  - by rewrite PrimeGenerator_fails in Hrun.
Qed.

(** X3: with [verbose] off, constructing a [PrimeGenerator] raises (a
    [KeyError], at the bucket [(2, 1)] of the single edge) exactly when
    [nmax < 2] or [emax < 1] once the defaults are filled in; in every
    other case both searches run to their end, whatever the graph
    library, the complexity measure and the partitions return. *)
Theorem PrimeGenerator_succeeds_iff :
  is_Some run ↔ 2 ≤ nmax_of dmax nmax ∧ 1 ≤ emax_of dmax emax.
Proof.
  rewrite <-single_edge_key. split.
  - intros [st Hrun]. by apply PrimeGenerator_run_inv in Hrun as [? _].
  - intros Hk. destruct (PrimeGenerator_runs Hk) as (st & -> & _). by eexists.
Qed.

(** X4: after a run the buckets are exactly the keys [(n, e)] with
    [2 <= n <= nmax] and [n-1 <= e <= min(emax, n(n-1)/2)], and every
    graph stored under [(n, e)] is a simple graph on the vertices
    [0..n-1] with [e] edges: each edge names two different vertices in
    range, smaller first, and no edge is repeated; [edges_d] holds the
    edge lists of the stored graphs, in order. *)
Theorem accepted_graphs_are_simple (st : Containers) :
  run = Some st →
  (∀ n e, is_Some (st !! (n, e)) ↔
          2 ≤ n ≤ nmax_of dmax nmax ∧
          n - 1 ≤ e ≤ Z.min (emax_of dmax emax) (n * (n - 1) / 2)) ∧
  ∀ n e b, st !! (n, e) = Some b →
    edges_d b = get_edgelist <$> simple_graphs_d b ∧
    ∀ g, g ∈ simple_graphs_d b →
      vcount g = n ∧ Z.of_nat (length (get_edgelist g)) = e ∧
      NoDup (get_edgelist g) ∧
      ∀ a c, (a, c) ∈ get_edgelist g → 0 ≤ a ∧ a < c ∧ c < n.
Proof.
  intros Hrun. destruct (PrimeGenerator_run_inv _ Hrun) as (_ & Hsh & Hky). split.
  - intros n e. rewrite (Hky (n, e)), elem_of_keys.
    unfold ns, esbyn, emaxs. rewrite !elem_of_range. lia.
  - intros n e b Hb. split.
    + pose proof (PrimeGenerator_bucket_ok ve_chi ve_einspecs isomorphic isomorphic_vf2
                    int_partition_ordered dmax nmax emax cmax vmax st (n, e) b Hrun Hb)
        as Hok.
      exact (ok_edges _ _ _ _ _ _ _ Hok).
    + intros g Hg. specialize (Hsh n e b Hb). rewrite Forall_forall in Hsh.
      destruct (Hsh g Hg) as (Hv & He & Hedges & Hnd).
      split; [done|]. split; [done|]. split; [done|].
      intros a c Hac. rewrite Forall_forall in Hedges.
      exact (Hedges _ Hac).
Qed.

(** The total weight of a stored weighting lies between the number of
    edges and [dmax], when the ordered partitions of [d] sum to [d]. *)
Lemma PrimeGenerator_weighting_degree (st : Containers) (n e : Z)
    (b : Bucket EinStr EinPath) (wghts : list (list Z)) (weighting : list Z) :
  (∀ d e part, part ∈ int_partition_ordered d e → sum part = d) →
  run = Some st → st !! (n, e) = Some b →
  wghts ∈ weights_d b → weighting ∈ wghts →
  e ≤ sum weighting ≤ dmax.
Proof.
  intros Hparts Hrun Hb Hws Hw.
  destruct (PrimeGenerator_phases _ _ _ _ _ _ _ _ _ _ _ Hrun)
    as (st0 & _ & _ & (b21 & Hb21 & Hw21) & Hrest).
  destruct (decide ((n, e) = (2, 1))) as [[= -> ->]|Hne].
  - simplify_eq. rewrite Hw21 in Hws. apply list_elem_of_singleton in Hws as ->.
    apply elem_of_single_edge_weightings in Hw as (d & -> & Hd). simpl. lia.
  - destruct (Hrest n e b Hne Hb) as [Hnil|Hall]; [rewrite Hnil in Hws; by apply elem_of_nil in Hws|].
    apply list_elem_of_lookup in Hws as [i Hi].
    destruct (Forall2_lookup_r _ _ _ _ _ Hall Hi) as (g & _ & _ & Hcand).
    rewrite Forall_forall in Hcand. specialize (Hcand _ Hw).
    unfold candidates in Hcand.
    apply list_elem_of_bind in Hcand as (d & Hpart & Hd%elem_of_range).
    apply Hparts in Hpart. unfold dmaxs in Hd. lia.
Qed.

(** X5: every row of the prime table is within the budgets:
    [2 <= n <= nmax], [n-1 <= e <= min(emax, n(n-1)/2)], [e <= d <= dmax],
    [v <= vmax] and [c <= cmax], provided each tuple of
    [int_partition_ordered(d, e)] sums to [d]. *)
Theorem prime_rows_within_budgets (st : Containers) :
  (∀ d e part, part ∈ int_partition_ordered d e → sum part = d) →
  run = Some st →
  ∀ row, row ∈ acc_c_specs (results st) →
    2 ≤ n_ind row ≤ nmax_of dmax nmax ∧
    n_ind row - 1 ≤ e_ind row ≤ Z.min (emax_of dmax emax)
                                      (n_ind row * (n_ind row - 1) / 2) ∧
    e_ind row ≤ d_ind row ≤ dmax ∧
    v_ind row ≤ vmax_of dmax vmax ∧
    c_ind row ≤ cmax_of dmax nmax cmax.
Proof.
  intros Hparts Hrun.
  destruct (PrimeGenerator_run_inv _ Hrun) as (_ & Hsh & Hky).
  pose proof (results_graph_cols
    (λ row _ _ _,
       2 ≤ n_ind row ≤ nmax_of dmax nmax ∧
       n_ind row - 1 ≤ e_ind row ≤ Z.min (emax_of dmax emax)
                                         (n_ind row * (n_ind row - 1) / 2) ∧
       e_ind row ≤ d_ind row ≤ dmax ∧
       v_ind row ≤ vmax_of dmax vmax ∧
       c_ind row ≤ cmax_of dmax nmax cmax) st) as Hcols.
  destruct Hcols as (_ & _ & _ & Hrows).
  - intros n e b i edgs wghts chi v es ep weighting k g w Hb He Hw Hc Hv _ _ Hin.
    simpl.
    assert (is_Some (st !! (n, e))) as Hkey by eauto.
    rewrite (Hky (n, e)), elem_of_keys in Hkey.
    unfold ns, esbyn, emaxs in Hkey. rewrite !elem_of_range in Hkey.
    pose proof (PrimeGenerator_weighting_degree st n e b wghts weighting Hparts Hrun Hb
                  (list_elem_of_lookup_2 _ _ _ Hw) Hin) as Hd.
    pose proof (PrimeGenerator_bucket_ok ve_chi ve_einspecs isomorphic isomorphic_vf2
                  int_partition_ordered dmax nmax emax cmax vmax st (n, e) b Hrun Hb)
      as Hok.
    pose proof (ok_budgets _ _ _ _ _ _ _ Hok) as Hbud.
    pose proof (ok_chis _ _ _ _ _ _ _ Hok) as Hchis.
    pose proof (ok_vs _ _ _ _ _ _ _ Hok) as Hvs.
    simpl in Hbud, Hchis, Hvs. rewrite Hchis in Hc. rewrite Hvs in Hv.
    apply list_lookup_fmap_Some in Hc as (gc & -> & Hgc).
    apply list_lookup_fmap_Some in Hv as (gv & -> & Hgv).
    rewrite Forall_forall in Hbud.
    destruct (Hbud gc (list_elem_of_lookup_2 _ _ _ Hgc)) as [Hchi _].
    destruct (Hbud gv (list_elem_of_lookup_2 _ _ _ Hgv)) as [_ Hdeg].
    lia.
  - intros row Hrow. rewrite Forall_forall in Hrows.
    by destruct (Hrows row Hrow) as (_ & _ & _ & _ & _ & _ & _ & ?).
Qed.

(** X6: the three graph tables [edges], [einstrs] and [einpaths] have the
    same length, and the [g] of every prime row indexes them: [edges[g]]
    is a simple graph on [n] vertices with [e] edges (the row's [n] and
    [e]), the row's [v] is its largest degree, its [c] the complexity
    [VariableElimination] reports for it, and [einstrs[g]] and
    [einpaths[g]] are the plan reported for it. *)
Theorem prime_rows_graph_column (st : Containers) :
  run = Some st →
  length (acc_einstrs (results st)) = length (acc_edges (results st)) ∧
  length (acc_einpaths (results st)) = length (acc_edges (results st)) ∧
  ∀ row, row ∈ acc_c_specs (results st) →
    0 ≤ g_ind row ∧
    ∃ edgs,
      acc_edges (results st) !! Z.to_nat (g_ind row) = Some edgs ∧
      graph_shape (n_ind row) (e_ind row) (mkGraph (n_ind row) edgs) ∧
      v_ind row = maxdegree (mkGraph (n_ind row) edgs) ∧
      c_ind row = ve_chi edgs (n_ind row) ∧
      acc_einstrs (results st) !! Z.to_nat (g_ind row)
      = Some (ve_einspecs edgs (n_ind row)).1 ∧
      acc_einpaths (results st) !! Z.to_nat (g_ind row)
      = Some (ve_einspecs edgs (n_ind row)).2.
Proof.
  intros Hrun.
  destruct (PrimeGenerator_run_inv _ Hrun) as (_ & Hsh & Hky).
  pose proof (results_graph_cols
    (λ row edgs es ep,
       graph_shape (n_ind row) (e_ind row) (mkGraph (n_ind row) edgs) ∧
       v_ind row = maxdegree (mkGraph (n_ind row) edgs) ∧
       c_ind row = ve_chi edgs (n_ind row) ∧
       es = (ve_einspecs edgs (n_ind row)).1 ∧
       ep = (ve_einspecs edgs (n_ind row)).2) st) as Hcols.
  destruct Hcols as (_ & Hls & Hlp & Hrows).
  - intros n e b i edgs wghts chi v es ep weighting k g w Hb He _ Hc Hv Hes Hep _.
    simpl.
    pose proof (PrimeGenerator_bucket_ok ve_chi ve_einspecs isomorphic isomorphic_vf2
                  int_partition_ordered dmax nmax emax cmax vmax st (n, e) b Hrun Hb)
      as Hok.
    pose proof (ok_edges _ _ _ _ _ _ _ Hok) as Hedges.
    pose proof (ok_chis _ _ _ _ _ _ _ Hok) as Hchis.
    pose proof (ok_vs _ _ _ _ _ _ _ Hok) as Hvs.
    pose proof (ok_einstrs _ _ _ _ _ _ _ Hok) as Hstrs.
    pose proof (ok_einpaths _ _ _ _ _ _ _ Hok) as Hpaths.
    simpl in Hedges, Hchis, Hvs, Hstrs, Hpaths.
    rewrite Hedges in He. rewrite Hchis in Hc. rewrite Hvs in Hv.
    rewrite Hstrs in Hes. rewrite Hpaths in Hep.
    apply list_lookup_fmap_Some in He as (gr & -> & Hgr).
    apply list_lookup_fmap_Some in Hc as (gc & -> & Hgc).
    apply list_lookup_fmap_Some in Hv as (gv & -> & Hgv).
    apply list_lookup_fmap_Some in Hes as (gs & -> & Hgs).
    apply list_lookup_fmap_Some in Hep as (gp & -> & Hgp).
    simplify_eq.
    specialize (Hsh n e b Hb). rewrite Forall_forall in Hsh.
    pose proof (Hsh gr (list_elem_of_lookup_2 _ _ _ Hgr)) as Hshape.
    assert (mkGraph n (get_edgelist gr) = gr) as ->.
    { destruct Hshape as (<- & _). by destruct gr. }
    done.
  - split; [done|]. split; [done|]. intros row Hrow.
    rewrite Forall_forall in Hrows.
    destruct (Hrows row Hrow) as (H0 & edgs & es & ep & He & Hs & Hp & Hq).
    split; [done|]. exists edgs.
    destruct Hq as (? & ? & ? & -> & ->). done.
Qed.

End prime_run.

(** ** Every stored weighting gets a row *)

Lemma foldl_reach {A B : Type} (P : B → Prop) (f : B → A → B) (l : list A)
    (b : B) (x : A) :
  x ∈ l → (∀ b, P (f b x)) → (∀ b y, P b → P (f b y)) → P (foldl f b l).
Proof.
  intros Hx Hhit Hkeep. revert b.
  induction l as [|y l IH]; intros b; [by apply elem_of_nil in Hx|].
  apply elem_of_cons in Hx as [<-|Hx]; simpl.
  - generalize (f b x), (Hhit b). clear -Hkeep.
    induction l as [|z l IH]; intros b' Hb'; simpl; [done|]. apply IH, Hkeep, Hb'.
  - by apply IH.
Qed.

Section results_complete.
  Context {EinStr EinPath : Type}.

  Abbreviation Containers := (gmap (Z * Z) (Bucket EinStr EinPath)).
  Abbreviation Acc := (@ResultsAcc EinStr EinPath).

Lemma zip_bucket_lookup_2 (es : list (list (Z * Z))) (ws : list (list (list Z)))
    (cs vs : list Z) (ss : list EinStr) (ps : list EinPath) (i : nat)
    (edgs : list (Z * Z)) (wghts : list (list Z)) (chi v : Z)
    (s : EinStr) (p : EinPath) :
  es !! i = Some edgs → ws !! i = Some wghts → cs !! i = Some chi →
  vs !! i = Some v → ss !! i = Some s → ps !! i = Some p →
  (edgs, wghts, chi, v, s, p) ∈ zip_bucket es ws cs vs ss ps.
Proof.
  revert es ws cs vs ss ps.
  induction i as [|i IH]; intros [|e es] [|w ws] [|c cs] [|v' vs] [|s' ss] [|p' ps];
    simpl; try done.
  - intros [= ->] [= ->] [= ->] [= ->] [= ->] [= ->]. by left.
  - intros. right. by apply IH.
Qed.

(** A row with the given graph columns and degree. *)
Definition has_row (n e d v chi : Z) (a : Acc) : Prop :=
  ∃ row, row ∈ acc_c_specs a ∧
         n_ind row = n ∧ e_ind row = e ∧ d_ind row = d ∧
         v_ind row = v ∧ c_ind row = chi.

Lemma results_weighting_keeps (n e d v chi n' e' v' chi' : Z) (a : Acc)
    (weighting : list Z) :
  has_row n e d v chi a → has_row n e d v chi (results_weighting n' e' v' chi' a weighting).
Proof.
  intros (row & Hrow & ?). exists row. split; [|done].
  simpl. apply elem_of_app. by left.
Qed.

Lemma results_graph_keeps (n e d v chi n' e' : Z) (a : Acc)
    (z : list (Z * Z) * list (list Z) * Z * Z * EinStr * EinPath) :
  has_row n e d v chi a → has_row n e d v chi (results_graph n' e' a z).
Proof.
  intros Ha. destruct z as [[[[[edgs wghts] chi'] v'] es] ep]. simpl.
  assert (has_row n e d v chi (foldl (results_weighting n' e' v' chi') a wghts))
    as (row & Hrow & ?).
  { apply foldl_inv; [done|]. intros. by apply results_weighting_keeps. }
  by exists row.
Qed.

Lemma results_bucket_keeps (n e d v chi : Z) (a : Acc)
    (item : Z * Z * Bucket EinStr EinPath) :
  has_row n e d v chi a → has_row n e d v chi (results_bucket a item).
Proof.
  intros Ha. destruct item as [[n' e'] b]. simpl.
  apply foldl_inv; [done|]. intros. by apply results_graph_keeps.
Qed.

Lemma results_has_row (st : Containers) (n e : Z) (b : Bucket EinStr EinPath)
    (i : nat) (edgs : list (Z * Z)) (wghts : list (list Z)) (chi v : Z)
    (es : EinStr) (ep : EinPath) (weighting : list Z) :
  st !! (n, e) = Some b →
  edges_d b !! i = Some edgs → weights_d b !! i = Some wghts →
  chis_d b !! i = Some chi → vs_d b !! i = Some v →
  einstrs_d b !! i = Some es → einpaths_d b !! i = Some ep →
  weighting ∈ wghts →
  has_row n e (sum weighting) v chi (results st).
Proof.
  intros Hb H1 H2 H3 H4 H5 H6 Hw. unfold results.
  apply (foldl_reach _ _ _ _ (n, e, b)).
  - apply elem_of_sorted, elem_of_map_to_list. exact Hb.
  - intros a. simpl.
    apply (foldl_reach _ _ _ _ (edgs, wghts, chi, v, es, ep)).
    + by eapply zip_bucket_lookup_2.
    + intros a'. simpl.
      assert (has_row n e (sum weighting) v chi
                (foldl (results_weighting n e v chi) a' wghts)) as (row & Hrow & ?).
      { apply (foldl_reach _ _ _ _ weighting); [done| |].
        - intros a''. eexists. split; [simpl; apply elem_of_app; right; by left|done].
        - intros. by apply results_weighting_keeps. }
      by exists row.
    + intros. by apply results_graph_keeps.
  - intros. by apply results_bucket_keeps.
Qed.

End results_complete.

(** ** The single edge decides whether there is a table at all *)

Lemma Full2_edgelist : get_edgelist (Full 2) = [(0, 1)].
Proof. reflexivity. Qed.

Lemma Full2_maxdegree : maxdegree (Full 2) = 1.
Proof. reflexivity. Qed.

Section single_edge_search.
  Context {EinStr EinPath : Type}.
  Variable ve_chi : list (Z * Z) → Z → Z.
  Variable ve_einspecs : list (Z * Z) → Z → EinStr * EinPath.
  Variable isomorphic : Graph → Graph → bool.
  Variables nmax emax cmax vmax : Z.

  Abbreviation Containers := (gmap (Z * Z) (Bucket EinStr EinPath)).
  Abbreviation add_if_new := (_add_if_new ve_chi ve_einspecs isomorphic cmax vmax).

Lemma init_containers_lookup (ne : Z * Z) (b : Bucket EinStr EinPath) :
  init_containers nmax emax !! ne = Some b → b = empty_bucket.
Proof.
  intros Hb. unfold init_containers in Hb.
  by apply elem_of_list_to_map_2, list_elem_of_fmap in Hb as (? & [= _ ->] & _).
Qed.

(** When the single edge is turned down nothing is ever stored: every
    later candidate grows from a stored graph. *)
Lemma generate_simple_rejects_all (st0 : Containers) :
  ve_chi [(0, 1)] 2 > cmax ∨ vmax < 1 →
  generate_simple ve_chi ve_einspecs isomorphic nmax emax cmax vmax
                  (init_containers nmax emax) = Some st0 →
  st0 = init_containers nmax emax.
Proof.
  intros Hrej. unfold generate_simple.
  destruct (@init_containers EinStr EinPath nmax emax !! (2, 1)) as [b|] eqn:Hb;
    [|by unfold _add_if_new; rewrite Hb].
  rewrite (add_if_new_rejects _ _ _ _ _ _ _ _ b Hb).
  2:{ right. rewrite Full2_edgelist, Full2_maxdegree. simpl. lia. }
  simpl.
  apply (for_each_inv (λ s : Containers, s = init_containers nmax emax)); [done|].
  intros s1 n s2 -> _.
  apply (for_each_inv (λ s : Containers, s = init_containers nmax emax)); [done|].
  intros s3 e s4 -> _.
  destruct (grow_by_vertex _ _ _ _ _ _ _ _ _) as [s5|] eqn:Hgrow; simpl; [|done].
  assert (s5 = init_containers nmax emax) as ->.
  { unfold grow_by_vertex in Hgrow. case_bool_decide; [|by simplify_eq].
    destruct (@init_containers EinStr EinPath nmax emax !! (n - 1, e - 1)) as [seeds|] eqn:Hseeds;
      simpl in Hgrow; [|done].
    apply init_containers_lookup in Hseeds as ->. simpl in Hgrow. by simplify_eq. }
  unfold grow_by_edge. case_bool_decide; [|by intros [= <-]].
  destruct (@init_containers EinStr EinPath nmax emax !! (n, e - 1)) as [seeds|] eqn:Hseeds;
    simpl; [|done].
  apply init_containers_lookup in Hseeds as ->. simpl. by intros [= <-].
Qed.

(** A stored graph stays stored. *)
Definition single_edge_stored (st : Containers) : Prop :=
  ∃ b, st !! (2, 1) = Some b ∧ simple_graphs_d b ≠ [].

Lemma add_if_new_keeps (st st' : Containers) (g : Graph) (ne : Z * Z) :
  single_edge_stored st → add_if_new st g ne = Some st' → single_edge_stored st'.
Proof.
  intros (b & Hb & Hne) [->|(b' & Hb' & _ & _ & _ & ->)]%add_if_new_cases;
    [by exists b|].
  destruct (decide (ne = (2, 1))) as [->|Hneq].
  - eexists. rewrite lookup_insert_eq. split; [done|]. simpl.
    by destruct (simple_graphs_d b').
  - exists b. by rewrite lookup_insert_ne.
Qed.

Lemma generate_simple_keeps_single_edge (st0 : Containers) :
  ve_chi [(0, 1)] 2 ≤ cmax → 1 ≤ vmax →
  generate_simple ve_chi ve_einspecs isomorphic nmax emax cmax vmax
                  (init_containers nmax emax) = Some st0 →
  single_edge_stored st0.
Proof.
  intros Hchi Hv. unfold generate_simple.
  destruct (@init_containers EinStr EinPath nmax emax !! (2, 1)) as [b|] eqn:Hb;
    [|by unfold _add_if_new; rewrite Hb].
  pose proof (init_containers_lookup _ _ Hb) as ->.
  rewrite (add_if_new_accepts _ _ _ _ _ _ _ _ empty_bucket Hb);
    [|done|by rewrite Full2_edgelist|by rewrite Full2_maxdegree].
  simpl.
  apply (for_each_inv single_edge_stored).
  { eexists. rewrite lookup_insert_eq. by split. }
  intros s1 n s2 Hs1 _.
  apply (for_each_inv single_edge_stored); [done|].
  intros s3 e s4 Hs3 _. simpl.
  destruct (grow_by_vertex _ _ _ _ _ _ _ _ _) as [s5|] eqn:Hgrow; simpl; [|done].
  assert (single_edge_stored s5) as Hs5.
  { revert Hgrow. unfold grow_by_vertex. case_bool_decide; [|by intros [= <-]].
    destruct (s3 !! (n - 1, e - 1)) as [seeds|]; simpl; [|done].
    apply (for_each_inv single_edge_stored); [done|]. intros s6 seed s7 Hs6 _.
    apply (for_each_inv single_edge_stored); [done|]. intros s8 v s9 Hs8 _.
    by apply add_if_new_keeps. }
  unfold grow_by_edge. case_bool_decide; [|by intros [= <-]].
  destruct (s5 !! (n, e - 1)) as [seeds|]; simpl; [|done].
  apply (for_each_inv single_edge_stored); [done|]. intros s6 seed s7 Hs6 _.
  apply (for_each_inv single_edge_stored); [done|]. intros s8 v s9 Hs8 _.
  by apply add_if_new_keeps.
Qed.

End single_edge_search.

Section single_edge_run.
  Context {EinStr EinPath : Type}.
  Variable ve_chi : list (Z * Z) → Z → Z.
  Variable ve_einspecs : list (Z * Z) → Z → EinStr * EinPath.
  Variable isomorphic : Graph → Graph → bool.
  Variable isomorphic_vf2 : Graph → list Z → list Z → bool.
  Variable int_partition_ordered : Z → Z → list (list Z).
  Variable int_partition_unordered : Z → list (list Z).
  Variable dmax : Z.
  Variables nmax emax cmax vmax : option Z.

  Abbreviation Containers := (gmap (Z * Z) (Bucket EinStr EinPath)).
  Abbreviation run :=
    (PrimeGenerator ve_chi ve_einspecs isomorphic isomorphic_vf2
                    int_partition_ordered dmax nmax emax cmax vmax).

Lemma PrimeGenerator_unfold (st : Containers) :
  run = Some st →
  ∃ st0,
    generate_simple ve_chi ve_einspecs isomorphic
      (nmax_of dmax nmax) (emax_of dmax emax) (cmax_of dmax nmax cmax)
      (vmax_of dmax vmax) (init_containers (nmax_of dmax nmax) (emax_of dmax emax))
    = Some st0 ∧
    generate_weights isomorphic_vf2 int_partition_ordered dmax
      (nmax_of dmax nmax) (emax_of dmax emax) (vmax_of dmax vmax) st0 = Some st.
Proof.
  unfold PrimeGenerator, prime_init.
  destruct (generate_simple _ _ _ _ _ _ _ _) as [st0|]; simpl; [|done].
  intros Hw. by exists st0.
Qed.

Lemma no_rows_without_pairs (st : Containers) :
  (∀ n e b (i : nat) edgs wghts weighting,
     st !! (n, e) = Some b → edges_d b !! i = Some edgs →
     weights_d b !! i = Some wghts → weighting ∈ wghts → False) →
  acc_c_specs (results st) = [].
Proof.
  intros Hnone.
  destruct (results_graph_cols (λ _ _ _ _, False) st) as (_ & _ & _ & Hrows).
  { intros n e b i edgs wghts chi v es ep weighting k g w Hb He Hw _ _ _ _ Hin.
    by eapply Hnone. }
  destruct (acc_c_specs (results st)) as [|row rows]; [done|].
  apply Forall_cons in Hrows as [(_ & ? & ? & ? & _ & _ & _ & []) _].
Qed.

Lemma prime_table_empty (st : Containers) :
  run = Some st →
  ve_chi [(0, 1)] 2 > cmax_of dmax nmax cmax ∨ vmax_of dmax vmax < 1 ∨ dmax < 1 →
  acc_c_specs (results st) = [].
Proof.
  intros Hrun Hcase. apply no_rows_without_pairs.
  intros n e b i edgs wghts weighting Hb He Hw Hin.
  destruct (decide (dmax < 1)) as [Hd|Hd].
  - destruct (PrimeGenerator_phases _ _ _ _ _ _ _ _ _ _ _ Hrun)
      as (st0 & _ & _ & (b21 & Hb21 & Hw21) & Hrest).
    destruct (PrimeGenerator_run_inv _ _ _ _ _ _ _ _ _ _ _ Hrun) as (_ & _ & Hky).
    assert (is_Some (st !! (n, e))) as Hkey by eauto.
    rewrite (Hky (n, e)), elem_of_keys in Hkey.
    unfold ns, esbyn, emaxs in Hkey. rewrite !elem_of_range in Hkey.
    apply list_elem_of_lookup_2 in Hw.
    destruct (decide ((n, e) = (2, 1))) as [[= -> ->]|Hne].
    + simplify_eq. rewrite Hw21 in Hw. apply list_elem_of_singleton in Hw as ->.
      apply elem_of_single_edge_weightings in Hin as (d & _ & ?). lia.
    + destruct (Hrest n e b Hne Hb) as [Hnil|Hall];
        [rewrite Hnil in Hw; by apply elem_of_nil in Hw|].
      apply list_elem_of_lookup in Hw as [j Hj].
      destruct (Forall2_lookup_r _ _ _ _ _ Hall Hj) as (g & _ & _ & Hcand).
      rewrite Forall_forall in Hcand. specialize (Hcand _ Hin).
      unfold candidates in Hcand.
      apply list_elem_of_bind in Hcand as (d & _ & Hdr%elem_of_range).
      unfold dmaxs in Hdr. lia.
  - assert (ve_chi [(0, 1)] 2 > cmax_of dmax nmax cmax ∨ vmax_of dmax vmax < 1)
      as Hrej by (destruct Hcase as [?|[?|?]]; auto; lia).
    destruct (PrimeGenerator_unfold _ Hrun) as (st0 & Hs & Hweights).
    apply generate_simple_rejects_all in Hs as ->; [|done].
    apply generate_weights_ok in Hweights as (Hsame & _);
      [|intros ne' b' ->%init_containers_lookup; done].
    specialize (Hsame (n, e)). rewrite Hb in Hsame.
    destruct (init_containers _ _ !! (n, e)) as [b0|] eqn:Hb0; [|done].
    apply init_containers_lookup in Hb0 as ->.
    apply (inj Some) in Hsame. apply (f_equal edges_d) in Hsame. simpl in Hsame.
    rewrite Hsame in He. by rewrite lookup_nil in He.
Qed.

Lemma prime_table_has_single_edge (st : Containers) (d : Z) :
  run = Some st →
  ve_chi [(0, 1)] 2 ≤ cmax_of dmax nmax cmax → 1 ≤ vmax_of dmax vmax → 1 ≤ d ≤ dmax →
  has_row 2 1 d 1 (ve_chi [(0, 1)] 2) (results st).
Proof.
  intros Hrun Hchi Hv Hd.
  destruct (PrimeGenerator_unfold _ Hrun) as (st0 & Hs & Hweights).
  pose proof (generate_simple_ok _ _ _ _ _ _ _ _ Hs) as [Hok0 Hnw].
  apply generate_simple_keeps_single_edge in Hs as (b0 & Hb0 & Hne); [|done..].
  apply generate_weights_ok in Hweights as (Hsame & (b & Hb & Hw) & _); [|done].
  specialize (Hsame (2, 1)). rewrite Hb, Hb0 in Hsame. apply (inj Some) in Hsame.
  destruct (Hok0 _ _ Hb0) as [_ _ He Hc Hvs Hes Hep H21].
  apply (f_equal edges_d) in Hsame as Hsame_e.
  apply (f_equal chis_d) in Hsame as Hsame_c.
  apply (f_equal vs_d) in Hsame as Hsame_v.
  apply (f_equal einstrs_d) in Hsame as Hsame_s.
  apply (f_equal einpaths_d) in Hsame as Hsame_p. simpl in *.
  destruct (simple_graphs_d b0) as [|g gs] eqn:Hgs; [done|].
  assert (g = Full 2) as ->.
  { specialize (H21 eq_refl). by apply Forall_cons in H21 as [? _]. }
  assert (has_row 2 1 (sum [d]) (maxdegree (Full 2)) (ve_chi [(0, 1)] 2) (results st))
    as Hrow.
  2:{ replace (sum [d]) with d in Hrow by (unfold sum; simpl; lia). exact Hrow. }
  eapply (results_has_row st 2 1 b 0%nat); [done|..].
  - by rewrite Hsame_e, He.
  - by rewrite Hw.
  - by rewrite Hsame_c, Hc.
  - by rewrite Hsame_v, Hvs.
  - by rewrite Hsame_s, Hes.
  - by rewrite Hsame_p, Hep.
  - apply elem_of_single_edge_weightings. by exists d.
Qed.

(** X7: the prime table of a finished run is empty exactly when the
    single edge was turned down (its complexity exceeds [cmax], or
    [vmax < 1]) or [dmax < 1]; otherwise it has the row of the single
    edge with [d = 1]. *)
Theorem prime_table_empty_iff (st : Containers) :
  run = Some st →
  (acc_c_specs (results st) = [] ↔
   ve_chi [(0, 1)] 2 > cmax_of dmax nmax cmax ∨ vmax_of dmax vmax < 1 ∨ dmax < 1) ∧
  (acc_c_specs (results st) ≠ [] →
   ∃ row, row ∈ acc_c_specs (results st) ∧
          n_ind row = 2 ∧ e_ind row = 1 ∧ d_ind row = 1 ∧ v_ind row = 1 ∧
          c_ind row = ve_chi [(0, 1)] 2).
Proof.
  intros Hrun.
  destruct (decide (ve_chi [(0, 1)] 2 > cmax_of dmax nmax cmax
                    ∨ vmax_of dmax vmax < 1 ∨ dmax < 1)) as [Hcase|Hcase].
  - pose proof (prime_table_empty st Hrun Hcase) as Hempty. split; [done|].
    by intros [].
  - destruct (prime_table_has_single_edge st 1 Hrun) as (row & Hrow & Hcols);
      [lia..|].
    split; [|intros _; by exists row].
    split; [|done]. intros Hnil. rewrite Hnil in Hrow. by apply elem_of_nil in Hrow.
Qed.

(** X8: [Generator] raises whenever no prime row can exist: when
    [PrimeGenerator] raises ([nmax < 2] or [emax < 1]), when the single
    edge is turned down, or when [dmax < 1]; [CompositeGenerator] cannot
    take the largest [n] of an empty table, whatever [comp_dmaxs] is. *)
Theorem Generator_raises_without_primes (comp_dmaxs : dmaxs_arg) :
  nmax_of dmax nmax < 2 ∨ emax_of dmax emax < 1 ∨
  ve_chi [(0, 1)] 2 > cmax_of dmax nmax cmax ∨ vmax_of dmax vmax < 1 ∨ dmax < 1 →
  Generator ve_chi ve_einspecs isomorphic isomorphic_vf2 int_partition_ordered
            int_partition_unordered dmax nmax emax cmax vmax comp_dmaxs = None.
Proof.
  intros Hcase. unfold Generator.
  destruct run as [st|] eqn:Hrun; simpl; [|done].
  destruct (PrimeGenerator_run_inv _ _ _ _ _ _ _ _ _ _ _ Hrun) as (Hk%single_edge_key & _).
  rewrite (prime_table_empty st Hrun) by (destruct Hcase as [?|[?|[?|[?|?]]]]; auto; lia).
  unfold CompositeGenerator, composite_init.
  by destruct comp_dmaxs.
Qed.

(** X9: nothing stored is lost on the way to the table: for the graph at
    any position of a bucket [(n, e)] and any weighting stored for it,
    the prime table has a row with this [n] and [e], the weighting's
    total as [d], the graph's largest degree as [v] and its complexity
    as [c]. *)
Theorem every_stored_weighting_has_a_row (st : Containers) (n e : Z)
    (b : Bucket EinStr EinPath) (i : nat) (g : Graph) (wghts : list (list Z))
    (weighting : list Z) :
  run = Some st → st !! (n, e) = Some b →
  simple_graphs_d b !! i = Some g → weights_d b !! i = Some wghts →
  weighting ∈ wghts →
  ∃ row, row ∈ acc_c_specs (results st) ∧
         n_ind row = n ∧ e_ind row = e ∧ d_ind row = sum weighting ∧
         v_ind row = maxdegree g ∧ c_ind row = ve_chi (get_edgelist g) n.
Proof.
  intros Hrun Hb Hg Hw Hin.
  pose proof (PrimeGenerator_bucket_ok ve_chi ve_einspecs isomorphic isomorphic_vf2
                int_partition_ordered dmax nmax emax cmax vmax st (n, e) b Hrun Hb)
    as [_ _ He Hc Hvs Hes Hep _].
  simpl in *.
  eapply (results_has_row st n e b i); [done| | done | | | | | done].
  - by rewrite He, list_lookup_fmap, Hg.
  - by rewrite Hc, list_lookup_fmap, Hg.
  - by rewrite Hvs, list_lookup_fmap, Hg.
  - by rewrite Hes, list_lookup_fmap, Hg.
  - by rewrite Hep, list_lookup_fmap, Hg.
Qed.

End single_edge_run.

(** * Further properties of softdrop *)

(** The jet followed by its harder parent, that parent's harder parent,
    and so on down to a particle: the jets the recursion can visit. *)
Fixpoint hard_branch (jet : PseudoJet) : list PseudoJet :=
  jet :: match jet with
         | Particle _ _ _ => []
         | Merged _ _ _ parent1 parent2 =>
             if Qle_bool (pt parent2) (pt parent1) then hard_branch parent1
             else hard_branch parent2
         end.

(** No merged jet of the tree has parents whose momenta sum to zero. *)
Fixpoint pt_sums_nonzero (jet : PseudoJet) : Prop :=
  match jet with
  | Particle _ _ _ => True
  | Merged _ _ _ parent1 parent2 =>
      ¬ (pt parent1 + pt parent2 == 0)%Q ∧
      pt_sums_nonzero parent1 ∧ pt_sums_nonzero parent2
  end.

(** Transverse momenta as FastJet reports them: none is negative, and
    the parents of a merged jet do not both vanish. *)
Fixpoint physical_pts (jet : PseudoJet) : Prop :=
  match jet with
  | Particle _ _ _ => True
  | Merged _ _ _ parent1 parent2 =>
      (0 <= pt parent1)%Q ∧ (0 <= pt parent2)%Q ∧ (0 < pt parent1 + pt parent2)%Q ∧
      physical_pts parent1 ∧ physical_pts parent2
  end.

Section softdrop_properties.
  Variable delta_R : PseudoJet → PseudoJet → Q.
  Variable float_pow : Q → Q → Q.

(** The test the code applies at a jet: a particle passes; a merged jet
    passes when [z >= threshold]. *)
Definition stops_at (jet : PseudoJet) (zcut beta R : Q) : Prop :=
  match jet with
  | Particle _ _ _ => True
  | Merged _ _ _ parent1 parent2 =>
      ∃ thr, softdrop_threshold delta_R float_pow parent1 parent2 zcut beta R = Some thr ∧
             (thr <= py_min (pt parent1) (pt parent2) / (pt parent1 + pt parent2))%Q
  end.

Lemma py_min_half (a b : Q) :
  (0 <= a)%Q → (0 <= b)%Q → (0 < a + b)%Q →
  (0 <= py_min a b / (a + b))%Q ∧ (py_min a b / (a + b) <= 1 # 2)%Q.
Proof.
  intros Ha Hb Hs. unfold py_min. split.
  - apply Qle_shift_div_l; [done|]. destruct (Qle_bool a b); lra.
  - apply Qle_shift_div_r; [done|].
    destruct (Qle_bool a b) eqn:Hab.
    + apply Qle_bool_iff in Hab. lra.
    + assert (¬ (a <= b)%Q) as Hn by (intros H%Qle_bool_iff; congruence).
      lra.
Qed.

Lemma Qeq_bool_false (x y : Q) : ¬ (x == y)%Q → Qeq_bool x y = false.
Proof.
  intros Hne. destruct (Qeq_bool x y) eqn:Heq; [|done].
  by apply Qeq_bool_iff in Heq.
Qed.

Lemma Qle_bool_false (x y : Q) : (y < x)%Q → Qle_bool x y = false.
Proof.
  intros Hlt. destruct (Qle_bool x y) eqn:Hle; [|done].
  apply Qle_bool_iff in Hle. lra.
Qed.

(** X10: grooming a groomed jet changes nothing: whenever [softdrop]
    returns a jet, calling it again on that jet with the same
    parameters returns the same jet. *)
Theorem softdrop_idempotent (jet groomed : PseudoJet) (zcut beta R : Q) :
  softdrop delta_R float_pow jet zcut beta R = Some groomed →
  softdrop delta_R float_pow groomed zcut beta R = Some groomed.
Proof.
  induction jet as [p r f|p r f parent1 IH1 parent2 IH2].
  - simpl. by intros [= <-].
  - simpl.
    destruct (Qeq_bool (pt parent1 + pt parent2) 0) eqn:Hsum; [done|].
    destruct (softdrop_threshold _ _ _ _ _ _ _) as [thr|] eqn:Hthr; [|done].
    destruct (Qle_bool thr _) eqn:Hle.
    + intros [= <-]. simpl. by rewrite Hsum, Hthr, Hle.
    + destruct (Qle_bool (pt parent2) (pt parent1)); [apply IH1 | apply IH2].
Qed.

(** X11: the jet [softdrop] returns is the first jet on the hard branch
    (the jet, its harder parent, and so on) that is a particle or has
    [z >= threshold]; every jet before it on the branch has parents and
    fails that test. *)
Theorem softdrop_first_on_hard_branch (jet groomed : PseudoJet) (zcut beta R : Q) :
  softdrop delta_R float_pow jet zcut beta R = Some groomed →
  ∃ before after,
    hard_branch jet = before ++ groomed :: after ∧
    stops_at groomed zcut beta R ∧
    Forall (λ j, ¬ stops_at j zcut beta R) before.
Proof.
  induction jet as [p r f|p r f parent1 IH1 parent2 IH2].
  - simpl. intros [= <-]. by exists [], [].
  - cbn [softdrop].
    destruct (Qeq_bool (pt parent1 + pt parent2) 0) eqn:Hsum; [done|].
    destruct (softdrop_threshold _ _ _ _ _ _ _) as [thr|] eqn:Hthr; [|done].
    destruct (Qle_bool thr _) eqn:Hle.
    + intros [= <-]. exists []. eexists. split; [done|]. split; [|done].
      exists thr. split; [done|]. by apply Qle_bool_iff.
    + intros Hrec.
      assert (¬ stops_at (Merged p r f parent1 parent2) zcut beta R) as Hfail.
      { intros (thr' & Hthr' & Hle'). rewrite Hthr in Hthr'. injection Hthr' as <-.
        apply Qle_bool_iff in Hle'. congruence. }
      cbn [hard_branch].
      destruct (Qle_bool (pt parent2) (pt parent1)).
      * destruct (IH1 Hrec) as (before & after & -> & Hstop & Hbefore).
        exists (Merged p r f parent1 parent2 :: before), after.
        split; [done|]. split; [done|]. by constructor.
      * destruct (IH2 Hrec) as (before & after & -> & Hstop & Hbefore).
        exists (Merged p r f parent1 parent2 :: before), after.
        split; [done|]. split; [done|]. by constructor.
Qed.

End softdrop_properties.

(** X12: with [beta = 0] the radius is not used at all: [softdrop] returns
    the same jet, or raises alike, for any two radii ([R = 0] included)
    and whatever [delta_R] is. *)
Theorem softdrop_beta0_ignores_R (delta_R delta_R' : PseudoJet → PseudoJet → Q)
    (float_pow float_pow' : Q → Q → Q) (jet : PseudoJet) (zcut R R' : Q) :
  softdrop delta_R float_pow jet zcut 0 R = softdrop delta_R' float_pow' jet zcut 0 R'.
Proof.
  induction jet as [p r f|p r f parent1 IH1 parent2 IH2]; [done|].
  simpl. destruct (Qeq_bool _ 0); [done|].
  destruct (Qle_bool zcut _); [done|].
  destruct (Qle_bool (pt parent2) (pt parent1)); [apply IH1 | apply IH2].
Qed.

(** X13: with [beta = 0], [softdrop] returns a jet whenever no merged jet
    of the clustering has parents whose momenta sum to zero; the only
    way it raises is the division by [pt1 + pt2]. *)
Theorem softdrop_beta0_returns (delta_R : PseudoJet → PseudoJet → Q)
    (float_pow : Q → Q → Q) (jet : PseudoJet) (zcut R : Q) :
  pt_sums_nonzero jet →
  ∃ groomed, softdrop delta_R float_pow jet zcut 0 R = Some groomed.
Proof.
  induction jet as [p r f|p r f parent1 IH1 parent2 IH2]; [by eexists|].
  intros (Hsum & H1 & H2). simpl. rewrite (Qeq_bool_false _ _ Hsum).
  destruct (Qle_bool zcut _); [by eexists|].
  destruct (Qle_bool (pt parent2) (pt parent1)); [by apply IH1 | by apply IH2].
Qed.

(** X14: with [beta = 0] and [zcut <= 0] nothing is groomed away: a jet
    whose parents have non-negative momenta, not both zero, is returned
    as it is. *)
Theorem softdrop_nonpositive_zcut_keeps_jet (delta_R : PseudoJet → PseudoJet → Q)
    (float_pow : Q → Q → Q) (jet : PseudoJet) (zcut R : Q) :
  (zcut <= 0)%Q → physical_pts jet →
  softdrop delta_R float_pow jet zcut 0 R = Some jet.
Proof.
  intros Hz. destruct jet as [p r f|p r f parent1 parent2]; [done|].
  intros (H1 & H2 & Hs & _). simpl.
  rewrite Qeq_bool_false by lra.
  destruct (py_min_half _ _ H1 H2 Hs) as [Hlo _].
  assert (Qle_bool zcut (py_min (pt parent1) (pt parent2) / (pt parent1 + pt parent2))
          = true) as ->; [|done].
  apply Qle_bool_iff. lra.
Qed.

(** X15: with [beta = 0] and [zcut > 1/2] everything is groomed away:
    since [z <= 1/2] at every merged jet with non-negative momenta, the
    recursion only stops at a particle. *)
Theorem softdrop_large_zcut_strips_to_particle (delta_R : PseudoJet → PseudoJet → Q)
    (float_pow : Q → Q → Q) (jet : PseudoJet) (zcut R : Q) :
  (1 # 2 < zcut)%Q → physical_pts jet →
  ∃ groomed, softdrop delta_R float_pow jet zcut 0 R = Some groomed ∧
             has_parents groomed = None.
Proof.
  intros Hz.
  induction jet as [p r f|p r f parent1 IH1 parent2 IH2]; [by eexists|].
  intros (H1 & H2 & Hs & Hp1 & Hp2). simpl.
  rewrite Qeq_bool_false by lra.
  destruct (py_min_half _ _ H1 H2 Hs) as [_ Hhi].
  rewrite Qle_bool_false by lra.
  destruct (Qle_bool (pt parent2) (pt parent1)); [by apply IH1 | by apply IH2].
Qed.

(** * Further properties of the composite generator *)

Lemma elem_of_distinct_from {A : Type} `{EqDecision A} (seen xs : list A) (x : A) :
  x ∈ distinct_from seen xs ↔ x ∈ xs ∧ x ∉ seen.
Proof.
  revert seen. induction xs as [|y xs IH]; intros seen; simpl.
  - split; [by intros ?%elem_of_nil | by intros [?%elem_of_nil _]].
  - case_bool_decide as Hy.
    + rewrite IH, elem_of_cons. split; [intros [? ?]; auto|].
      intros [[->|?] ?]; [done|auto].
    + rewrite !elem_of_cons, IH, elem_of_cons. split.
      * intros [->|[? Hn]]; [auto|]. split; [auto|]. intros ?. apply Hn. auto.
      * intros [[->|?] Hn]; [auto|].
        destruct (decide (x = y)) as [->|Hxy]; [auto|]. right. split; [done|].
        intros [?|?]; done.
Qed.

Lemma elem_of_py_set {A : Type} `{EqDecision A} (xs : list A) (x : A) :
  x ∈ py_set xs ↔ x ∈ xs.
Proof.
  unfold py_set. rewrite elem_of_distinct_from. split; [by intros [? _]|].
  intros ?. split; [done | by intros ?%elem_of_nil].
Qed.

Lemma permutations_fuel_perm {A : Type} (fuel : nat) (xs p : list A) :
  length xs = fuel → p ∈ permutations_fuel fuel xs → p ≡ₚ xs.
Proof.
  revert xs p. induction fuel as [|fuel IH]; intros xs p Hlen; simpl.
  - intros ->%list_elem_of_singleton. by destruct xs.
  - intros (i & Hp & Hi)%list_elem_of_bind.
    destruct (xs !! i) as [x|] eqn:Hx; [|by apply elem_of_nil in Hp].
    apply list_elem_of_fmap in Hp as (q & -> & Hq).
    apply IH in Hq; [|rewrite length_delete by eauto; lia].
    rewrite Hq. symmetry. by apply delete_Permutation.
Qed.

Lemma permutations_perm {A : Type} (xs p : list A) : p ∈ permutations xs → p ≡ₚ xs.
Proof. by apply permutations_fuel_perm. Qed.

Lemma sum_perm (l l' : list Z) : l ≡ₚ l' → sum l = sum l'.
Proof. unfold sum. induction 1; simpl; lia. Qed.

Lemma elem_of_product {A : Type} (xss : list (list A)) (ks : list A) :
  ks ∈ product xss ↔ Forall2 (λ k xs, k ∈ xs) ks xss.
Proof.
  revert ks. induction xss as [|xs xss IH]; intros ks; simpl.
  - rewrite list_elem_of_singleton. split; [by intros -> | by inversion 1].
  - rewrite list_elem_of_bind. split.
    + intros (x & (ks' & -> & Hks')%list_elem_of_fmap & Hx).
      constructor; [done | by apply IH].
    + inversion 1 as [|k ? ks' ? Hk Hks']; simplify_eq.
      exists k. split; [|done]. apply list_elem_of_fmap. exists ks'.
      split; [done | by apply IH].
Qed.

Lemma foldl_max_ge (a : Z) (l : list Z) :
  a ≤ foldl Z.max a l ∧ ∀ x, x ∈ l → x ≤ foldl Z.max a l.
Proof.
  revert a. induction l as [|y l IH]; intros a; simpl.
  - split; [lia | by intros ? ?%elem_of_nil].
  - destruct (IH (Z.max a y)) as [Ha Hl]. split; [lia|].
    intros x [->|Hx]%elem_of_cons; [lia | by apply Hl].
Qed.

Lemma Forall2_mask_select {A B : Type} (R : A → B → Prop) (mask : list bool)
    (xs : list A) (ys : list B) :
  Forall2 R xs ys → Forall2 R (mask_select mask xs) (mask_select mask ys).
Proof.
  intros Hall. revert mask.
  induction Hall as [|x y xs ys Hxy Hall IH]; intros [|b mask]; try constructor.
  rewrite !mask_select_cons. destruct b; [constructor; [done|]|]; apply IH.
Qed.

(** ** Each composite row and its formula *)

Section composite_link.
  Variable int_partition_unordered : Z → list (list Z).
  Variable self : CompositeState.
  (** What is known of [(n, d)] and the spec wherever a formula is built. *)
  Variable good_spec : Z → Z → list (Z * Z) → Prop.

(** The factor [f] is a key of [ndk2w], and [prow] the row of the prime
    table it points at. *)
Definition factor_row (f : Z * Z * Z) (prow : Spec) : Prop :=
  ∃ ind, ndk2w self !! f = Some ind ∧ py_index (c_specs self) ind = Some prow.

(** The row was built from the factors [formula], in this order, whose
    sorted tuple is the stored [form]. *)
Definition composite_row_ok (form : list (Z * Z * Z)) (row : Spec) : Prop :=
  ∃ formula prows,
    form = sorted triple_leb formula ∧
    Forall2 factor_row formula prows ∧
    c_ind row = foldl Z.max 0 (c_ind <$> prows) ∧
    e_ind row = foldl Z.max 0 (e_ind <$> prows) ∧
    v_ind row = foldl Z.max 0 (v_ind <$> prows) ∧
    p_ind row = Z.of_nat (length formula) ∧ g_ind row = -1 ∧ w_ind row = -1 ∧
    default 0 (comp_ks self !! (n_ind row, d_ind row)) ≤ k_ind row ∧
    good_spec (n_ind row) (d_ind row) (fst <$> formula).

Lemma add_factors_run (fs formula0 formula : list (Z * Z * Z)) (c0 e0 v0 c e v : Z) :
  for_each fs (add_factor self) (formula0, c0, e0, v0) = Some (formula, c, e, v) →
  ∃ prows,
    formula = formula0 ++ fs ∧ Forall2 factor_row fs prows ∧
    c = foldl Z.max c0 (c_ind <$> prows) ∧
    e = foldl Z.max e0 (e_ind <$> prows) ∧
    v = foldl Z.max v0 (v_ind <$> prows).
Proof.
  revert formula0 c0 e0 v0. induction fs as [|f fs IH]; intros formula0 c0 e0 v0; simpl.
  - intros [= <- <- <- <-]. exists []. by rewrite app_nil_r.
  - destruct (ndk2w self !! f) as [ind|] eqn:Hind; simpl; [|done].
    destruct (py_index (c_specs self) ind) as [prow|] eqn:Hrow; simpl; [|done].
    intros (prows & -> & Hall & -> & -> & ->)%IH.
    exists (prow :: prows). split; [by rewrite <-app_assoc|].
    split; [constructor; [by exists ind | done]|]. done.
Qed.

Lemma add_formula_linked (n d : Z) (spec : list (Z * Z))
    (acc acc' : list (list (Z * Z * Z)) * list Spec * Z) (kspec : list Z) :
  good_spec n d spec → length kspec = length spec →
  Forall2 composite_row_ok acc.1.1 acc.1.2 ∧
  default 0 (comp_ks self !! (n, d)) ≤ acc.2 →
  add_formula self n d spec acc kspec = Some acc' →
  Forall2 composite_row_ok acc'.1.1 acc'.1.2 ∧
  default 0 (comp_ks self !! (n, d)) ≤ acc'.2.
Proof.
  intros Hgood Hlen [Hacc Hk]. unfold add_formula.
  destruct acc as [[forms rows] kcount]. simpl in *.
  destruct (for_each _ _ _) as [[[[formula cm] em] vm]|] eqn:Hrun; simpl; [|done].
  intros [= <-]. simpl. split; [|lia].
  apply add_factors_run in Hrun as (prows & -> & Hall & -> & -> & ->).
  apply Forall2_app; [done|]. constructor; [|done].
  exists (zip spec kspec), prows. simpl.
  repeat split; try done.
  - by rewrite length_zip, Hlen, Nat.min_id.
  - by rewrite fst_zip by lia.
Qed.

Lemma add_spec_linked (n d : Z) (acc acc' : list (list (Z * Z * Z)) * list Spec)
    (spec : list (Z * Z)) :
  good_spec n d spec → Forall2 composite_row_ok acc.1 acc.2 →
  add_spec self n d acc spec = Some acc' → Forall2 composite_row_ok acc'.1 acc'.2.
Proof.
  intros Hgood Hacc. unfold add_spec.
  destruct (mapM _ _) as [counts|] eqn:Hcounts; simpl; [|done].
  apply length_mapM in Hcounts.
  destruct (for_each _ _ _) as [[[forms rows] kcount]|] eqn:Hrun; simpl; [|done].
  intros [= <-].
  apply (for_each_inv (λ a, Forall2 composite_row_ok a.1.1 a.1.2 ∧
                            default 0 (comp_ks self !! (n, d)) ≤ a.2)) in Hrun;
    [by destruct Hrun | done |].
  intros a kspec a' Ha Hk. apply add_formula_linked; [done| |done].
  apply elem_of_product, Forall2_length in Hk.
  by rewrite Hk, length_fmap.
Qed.

Lemma add_n_part_linked (n d : Z) (acc acc' : list (list (Z * Z * Z)) * list Spec)
    (n_part : list Z) :
  (∀ spec,
     spec ∈ collect_specs self n_part
              (filter (λ x : list Z, length x = length n_part)
                      (int_partition_unordered d)) →
     good_spec n d spec) →
  Forall2 composite_row_ok acc.1 acc.2 →
  add_n_part int_partition_unordered self n d acc n_part = Some acc' →
  Forall2 composite_row_ok acc'.1 acc'.2.
Proof.
  intros Hgood Hacc. unfold add_n_part. case_bool_decide; [by intros [= <-]|].
  apply (for_each_inv (λ a, Forall2 composite_row_ok a.1 a.2)); [done|].
  intros a spec a' Ha Hspec. apply add_spec_linked; [|done]. by apply Hgood.
Qed.

Lemma generate_disconnected_linked (rows : list Spec)
    (forms : list (list (Z * Z * Z))) :
  (∀ n n_parts n_part dmax_n d spec,
     n ∈ comp_ns self →
     n_parts_of int_partition_unordered self n = Some n_parts →
     n_part ∈ n_parts → comp_dmaxs self !! n = Some dmax_n →
     d ∈ range (Z.quot (n - 1) 2 + 1) (dmax_n + 1) →
     spec ∈ collect_specs self n_part
              (filter (λ x : list Z, length x = length n_part)
                      (int_partition_unordered d)) →
     good_spec n d spec) →
  generate_disconnected int_partition_unordered self = Some (rows, forms) →
  Forall2 composite_row_ok forms rows.
Proof.
  intros Hgood. unfold generate_disconnected.
  destruct (for_each _ _ _) as [[forms0 rows0]|] eqn:Hrun; simpl; [|done].
  intros [= <- <-]. apply Forall2_mask_select.
  apply (for_each_inv (λ a, Forall2 composite_row_ok a.1 a.2)) in Hrun;
    [done | constructor |].
  intros a n a' Ha Hn. unfold add_n.
  destruct (n_parts_of _ _ _) as [n_parts|] eqn:Hparts; simpl; [|done].
  destruct (comp_dmaxs self !! n) as [dmax_n|] eqn:Hdmax; simpl; [|done].
  apply (for_each_inv (λ a, Forall2 composite_row_ok a.1 a.2)); [done|].
  intros a1 d a2 Ha1 Hd.
  apply (for_each_inv (λ a, Forall2 composite_row_ok a.1 a.2)); [done|].
  intros a3 n_part a4 Ha3 Hpart.
  apply add_n_part_linked; [|done]. intros spec Hspec. by eapply Hgood.
Qed.

End composite_link.

(** ** What [CompositeGenerator.__init__] reads off the prime table *)

Definition key_of (row : Spec) : Z * Z * Z := (n_ind row, d_ind row, k_ind row).

(** The [k] and [w] columns as [results] fills them in: [k] counts the
    earlier rows with the same [(n, d)], and [w] is the row's position. *)
Definition indexed_table (specs : list Spec) : Prop :=
  ∀ (i : nat) row, specs !! i = Some row →
    k_ind row = count_nd (n_ind row) (d_ind row) (take i specs) ∧
    w_ind row = Z.of_nat i.

Lemma count_nd_nonneg (n d : Z) (specs : list Spec) : 0 ≤ count_nd n d specs.
Proof. unfold count_nd. lia. Qed.

Lemma count_spec_fold (specs : list Spec) :
  let acc := foldl count_spec (∅, ∅) specs in
  (∀ n d, acc.1 !! (n, d)
          = if decide (0 < count_nd n d specs) then Some (count_nd n d specs) else None) ∧
  (∀ f ind, acc.2 !! f = Some ind →
            ∃ row, row ∈ specs ∧ key_of row = f ∧ w_ind row = ind) ∧
  (∀ row, row ∈ specs → is_Some (acc.2 !! key_of row)).
Proof.
  induction specs as [|spec specs IH] using rev_ind; simpl.
  - split; [|split].
    + intros n d. by rewrite lookup_empty.
    + intros f ind. by rewrite lookup_empty.
    + by intros row ?%elem_of_nil.
  - rewrite foldl_app. simpl.
    destruct (foldl count_spec (∅, ∅) specs) as [ks n2w].
    simpl in IH. destruct IH as (Hks & Hn2w & Hall). unfold count_spec. simpl.
    split; [|split].
    + intros n d. rewrite count_nd_snoc.
      destruct (decide ((n_ind spec, d_ind spec) = (n, d))) as [[= <- <-]|Hne].
      * rewrite lookup_insert_eq, Hks.
        rewrite (decide_True (P := same_nd _ _ _)) by done.
        pose proof (count_nd_nonneg (n_ind spec) (d_ind spec) specs).
        rewrite (decide_True (P := _ < _ + 1)) by lia.
        destruct (decide (0 < _)); simpl; f_equal; lia.
      * rewrite lookup_insert_ne by done. rewrite Hks.
        rewrite (decide_False (P := same_nd _ _ _));
          [|unfold same_nd; intros [? ?]; by subst].
        by rewrite Z.add_0_r.
    + intros f ind.
      destruct (decide ((n_ind spec, d_ind spec, k_ind spec) = f)) as [<-|Hne].
      * rewrite lookup_insert_eq. intros [= <-]. exists spec.
        split; [|done]. apply elem_of_app. right. by left.
      * rewrite lookup_insert_ne by done.
        intros (row & ? & ? & ?)%Hn2w. exists row. split; [|done].
        apply elem_of_app. by left.
    + intros row [Hrow| ->%list_elem_of_singleton]%elem_of_app.
      * destruct (decide ((n_ind spec, d_ind spec, k_ind spec) = key_of row)) as [->|Hne].
        -- rewrite lookup_insert_eq. by eexists.
        -- rewrite lookup_insert_ne by done. by apply Hall.
      * unfold key_of. rewrite lookup_insert_eq. by eexists.
Qed.

(** Below the count for [(n, d)], every [k] is taken by a row. *)
Lemma indexed_table_kth (specs : list Spec) (n d k : Z) :
  0 ≤ k < count_nd n d specs →
  ∃ (i : nat) row, specs !! i = Some row ∧ same_nd n d row ∧
                   count_nd n d (take i specs) = k.
Proof.
  induction specs as [|spec specs IH] using rev_ind.
  - unfold count_nd. simpl. lia.
  - rewrite count_nd_snoc. intros Hk.
    destruct (decide (k < count_nd n d specs)) as [Hlt|Hge].
    + destruct IH as (i & row & Hi & Hrow & Hcount); [lia|].
      exists i, row. split; [by apply lookup_app_l_Some|]. split; [done|].
      rewrite take_app_le by (apply lookup_lt_Some in Hi; lia). done.
    + destruct (decide (same_nd n d spec)) as [Hspec|Hspec]; [|lia].
      exists (length specs), spec. split; [by apply list_lookup_middle|].
      split; [done|]. rewrite take_app_length. lia.
Qed.

Lemma composite_init_fields (specs : list Spec) (dmaxs : dmaxs_arg)
    (self : CompositeState) :
  composite_init specs dmaxs = Some self →
  c_specs self = specs ∧
  comp_ks self = (foldl count_spec (∅, ∅) specs).1 ∧
  ndk2w self = (foldl count_spec (∅, ∅) specs).2 ∧
  py_max (n_ind <$> specs) = Some (nmax_avail self) ∧
  (∀ n, n ∈ comp_ns self ↔ is_Some (comp_dmaxs self !! n)) ∧
  match dmaxs with
  | DmaxsDict m => comp_dmaxs self = m
  | _ => ∀ n, is_Some (comp_dmaxs self !! n) → 4 ≤ n
  end.
Proof.
  unfold composite_init.
  destruct (match dmaxs with DmaxsDict m => _ | DmaxsNone => _ | DmaxsInt _ => _ end)
    as [dm|] eqn:Hdm; simpl; [|done].
  destruct (foldl count_spec (∅, ∅) specs) as [ks n2w] eqn:Hfold.
  destruct (py_max (n_ind <$> specs)) as [navail|] eqn:Hmax; simpl; [|done].
  intros [= <-]. simpl. repeat split; try done.
  - intros Hn. apply elem_of_sorted, list_elem_of_fmap in Hn as ([n' v] & -> & Hv).
    apply elem_of_map_to_list in Hv. by exists v.
  - intros [v Hv]. apply elem_of_sorted, list_elem_of_fmap. exists (n, v).
    split; [done|]. by apply elem_of_map_to_list.
  - assert (∀ dmax n, is_Some ((list_to_map ((λ n, (n, dmax)) <$> range 4 (2 * dmax + 1))
                                 : gmap Z Z) !! n) → 4 ≤ n) as Hkeys.
    { intros dmax' n [v Hv].
      apply elem_of_list_to_map_2, list_elem_of_fmap in Hv as (n' & [= -> _] & Hn').
      apply elem_of_range in Hn'. lia. }
    destruct dmaxs as [m| |dmax']; simpl in Hdm.
    + by simplify_eq.
    + destruct (py_max (d_ind <$> specs)); simplify_eq/=. apply Hkeys.
    + simplify_eq. apply Hkeys.
Qed.

Lemma collect_specs_elem (self : CompositeState) (n_part : list Z)
    (d_parts : list (list Z)) (spec : list (Z * Z)) :
  spec ∈ collect_specs self n_part d_parts →
  Forall (λ pair, is_Some (comp_ks self !! pair)) spec ∧
  ∃ n_part_ord d_part,
    n_part_ord ≡ₚ n_part ∧ d_part ∈ d_parts ∧
    spec = sorted pair_leb (zip n_part_ord d_part).
Proof.
  unfold collect_specs.
  intros [Hks Hspec]%elem_of_py_set%list_elem_of_filter. split; [done|].
  apply list_elem_of_bind in Hspec as (n_part_ord & Hspec & Hord).
  apply list_elem_of_fmap in Hspec as (d_part & -> & Hd).
  apply elem_of_py_set, permutations_perm in Hord. by exists n_part_ord, d_part.
Qed.

(** Where a formula is built, its spec pairs the parts of a partition of
    [n] with those of a partition of [d], and every pair has primes. *)
Lemma collect_specs_sums (int_partition_unordered : Z → list (list Z))
    (self : CompositeState) (n d : Z) (n_parts : list (list Z)) (np : list Z)
    (spec : list (Z * Z)) :
  (∀ n part, part ∈ int_partition_unordered n →
             sum part = n ∧ Forall (λ x, 1 ≤ x) part) →
  n_parts_of int_partition_unordered self n = Some n_parts →
  np ∈ n_parts →
  spec ∈ collect_specs self np
           (filter (λ x : list Z, length x = length np)
                   (int_partition_unordered d)) →
  sum spec.*1 = n ∧ sum spec.*2 = d ∧ (1 < length spec)%nat ∧
  Forall (λ pair, is_Some (comp_ks self !! pair)) spec.
Proof.
  intros Hparts Hn Hpart Hspec.
  apply collect_specs_elem in Hspec as (Hks & n_part_ord & d_part & Hperm & Hd & ->).
  apply list_elem_of_filter in Hd as [Hlen Hd].
  unfold n_parts_of in Hn.
  destruct (filter_good _ _) as [good|] eqn:Hgood; simplify_eq/=.
  apply elem_of_sorted in Hpart.
  destruct (filter_good_elem _ _ _ _ Hgood Hpart) as [Hin Hok].
  destruct (Hparts n np Hin) as [Hsum _].
  destruct (Hparts d d_part Hd) as [Hsumd _].
  assert (length n_part_ord = length d_part) as Hlen'
      by (by rewrite Hlen, (Permutation_length Hperm)).
  assert (1 < length np)%nat as Hlong.
  { unfold good_part in Hok. case_bool_decide; [done|].
    destruct (py_max np); simpl in Hok; [|done]. injection Hok as Hok.
    by apply andb_true_iff in Hok as [_ ?%bool_decide_eq_true]. }
  pose proof (sorted_perm pair_leb (zip n_part_ord d_part)) as Hsorted.
  repeat split; [| | |done].
  - rewrite (sum_perm _ (zip n_part_ord d_part).*1) by (by rewrite Hsorted).
    rewrite fst_zip by lia. rewrite <-Hsum. by apply sum_perm.
  - rewrite (sum_perm _ (zip n_part_ord d_part).*2) by (by rewrite Hsorted).
    by rewrite snd_zip by lia.
  - rewrite length_sorted, length_zip, <-Hlen', Nat.min_id.
    by rewrite (Permutation_length Hperm).
Qed.

Lemma results_indexed {EinStr EinPath : Type} (st : gmap (Z * Z) (Bucket EinStr EinPath)) :
  indexed_table (acc_c_specs (results st)).
Proof.
  destruct (results_counters st) as (_ & Hrows & _).
  intros i row Hi. by destruct (Hrows i row Hi) as (? & ? & _).
Qed.

(** In a table indexed this way, [ndk2w] leads from a factor to the row
    with that very [(n, d, k)]. *)
Lemma factor_row_key (specs : list Spec) (dmaxs : dmaxs_arg) (self : CompositeState)
    (f : Z * Z * Z) (prow : Spec) :
  indexed_table specs → composite_init specs dmaxs = Some self →
  factor_row self f prow → prow ∈ specs ∧ key_of prow = f.
Proof.
  intros Hindexed (Hspecs & _ & Hn2w & _)%composite_init_fields (ind & Hind & Hrow).
  destruct (count_spec_fold specs) as (_ & Hkeys & _).
  rewrite Hn2w in Hind. apply Hkeys in Hind as (row & Hin & Hkey & Hw).
  apply list_elem_of_lookup in Hin as [i Hi].
  destruct (Hindexed i row Hi) as [_ Hwi].
  rewrite Hspecs in Hrow. unfold py_index in Hrow.
  rewrite bool_decide_eq_true_2 in Hrow by lia.
  assert (Z.to_nat ind = i) as Hi' by lia. rewrite Hi', Hi in Hrow.
  injection Hrow as <-. split; [by eapply list_elem_of_lookup_2 | done].
Qed.

(** What a composite row and its formula say of each other. *)
Definition multiplies_primes (specs : list Spec) (form : list (Z * Z * Z))
    (row : Spec) : Prop :=
  g_ind row = -1 ∧ w_ind row = -1 ∧
  p_ind row = Z.of_nat (length form) ∧ 2 ≤ p_ind row ∧
  n_ind row = sum ((λ f, f.1.1) <$> form) ∧
  d_ind row = sum ((λ f, f.1.2) <$> form) ∧
  ∃ formula prows,
    form = sorted triple_leb formula ∧
    Forall2 (λ f prow, prow ∈ specs ∧ key_of prow = f) formula prows ∧
    e_ind row = foldl Z.max 0 (e_ind <$> prows) ∧
    v_ind row = foldl Z.max 0 (v_ind <$> prows) ∧
    c_ind row = foldl Z.max 0 (c_ind <$> prows).

Lemma composite_rows_linked (int_partition_unordered : Z → list (list Z))
    (specs : list Spec) (dmaxs : dmaxs_arg) (rows : list Spec)
    (forms : list (list (Z * Z * Z))) :
  (∀ n part, part ∈ int_partition_unordered n →
             sum part = n ∧ Forall (λ x, 1 ≤ x) part) →
  indexed_table specs →
  CompositeGenerator int_partition_unordered specs dmaxs = Some (rows, forms) →
  Forall2 (multiplies_primes specs) forms rows.
Proof.
  intros Hparts Hindexed. unfold CompositeGenerator.
  destruct (composite_init specs dmaxs) as [self|] eqn:Hinit; simpl; [|done].
  intros Hrun.
  apply (generate_disconnected_linked _ _
           (λ n d spec, sum spec.*1 = n ∧ sum spec.*2 = d ∧ (1 < length spec)%nat))
    in Hrun.
  - eapply Forall2_impl; [exact Hrun|]. simpl.
    intros form row (formula & prows & -> & Hall & Hc & He & Hv & Hp & Hg & Hw
                     & _ & Hn & Hd & Hlen).
    rewrite length_fmap in Hlen.
    pose proof (sorted_perm triple_leb formula) as Hperm.
    unfold multiplies_primes. rewrite length_sorted.
    repeat split; [done|done|done|lia| | |].
    + rewrite <-Hn, <-list_fmap_compose. apply sum_perm. by rewrite Hperm.
    + rewrite <-Hd, <-list_fmap_compose. apply sum_perm. by rewrite Hperm.
    + exists formula, prows. repeat split; [|done..].
      eapply Forall2_impl; [exact Hall|]. intros f prow Hf.
      by eapply factor_row_key.
  - intros n n_parts n_part dmax_n d spec _ Hn Hpart _ _ Hspec.
    destruct (collect_specs_sums _ _ n d n_parts n_part spec Hparts Hn Hpart Hspec)
      as (? & ? & ? & _).
    done.
Qed.

Section generator_tables.
  Context {EinStr EinPath : Type}.
  Variable ve_chi : list (Z * Z) → Z → Z.
  Variable ve_einspecs : list (Z * Z) → Z → EinStr * EinPath.
  Variable isomorphic : Graph → Graph → bool.
  Variable isomorphic_vf2 : Graph → list Z → list Z → bool.
  Variable int_partition_ordered : Z → Z → list (list Z).
  Variable int_partition_unordered : Z → list (list Z).
  Variable dmax : Z.
  Variables nmax emax cmax vmax : option Z.
  Variable comp_dmaxs : dmaxs_arg.

  Abbreviation the_generator :=
    (Generator ve_chi ve_einspecs isomorphic isomorphic_vf2 int_partition_ordered
               int_partition_unordered dmax nmax emax cmax vmax comp_dmaxs).

Lemma Generator_unfold (gen : GeneratorState EinStr EinPath) :
  the_generator = Some gen →
  ∃ st,
    PrimeGenerator ve_chi ve_einspecs isomorphic isomorphic_vf2 int_partition_ordered
                   dmax nmax emax cmax vmax = Some st ∧
    gen_c_specs gen = acc_c_specs (results st) ∧
    gen_edges gen = acc_edges (results st) ∧
    gen_weights gen = acc_weights (results st) ∧
    CompositeGenerator int_partition_unordered (acc_c_specs (results st)) comp_dmaxs
    = Some (disc_specs gen, disc_formulae gen).
Proof.
  unfold Generator.
  destruct (PrimeGenerator _ _ _ _ _ _ _ _ _ _) as [st|] eqn:Hrun; simpl; [|done].
  destruct (CompositeGenerator _ _ _) as [[rows forms]|] eqn:Hcomp; simpl; [|done].
  intros [= <-]. by exists st.
Qed.

(** X16: every composite row of a [Generator] is the product of prime
    rows of its own table: the row has [g = w = -1]; its [p] is the
    number of factors of its formula, at least two; its [n] and [d] are
    the sums of the factors' [n] and [d]; every factor [(n, d, k)] of
    the formula is the [(n, d, k)] of a prime row; and its [e], [v] and
    [c] are the largest among those prime rows.  This holds provided
    [int_partition_unordered(n)] yields lists of positive integers
    summing to [n]. *)
Theorem composite_rows_multiply_primes (gen : GeneratorState EinStr EinPath) :
  (∀ n part, part ∈ int_partition_unordered n →
             sum part = n ∧ Forall (λ x, 1 ≤ x) part) →
  the_generator = Some gen →
  length (disc_specs gen) = length (disc_formulae gen) ∧
  ∀ (i : nat) row form,
    disc_specs gen !! i = Some row → disc_formulae gen !! i = Some form →
    g_ind row = -1 ∧ w_ind row = -1 ∧
    p_ind row = Z.of_nat (length form) ∧ 2 ≤ p_ind row ∧
    n_ind row = sum ((λ f, f.1.1) <$> form) ∧
    d_ind row = sum ((λ f, f.1.2) <$> form) ∧
    ∃ formula prows,
      form = sorted triple_leb formula ∧
      Forall2 (λ f prow, prow ∈ gen_c_specs gen ∧
                         (n_ind prow, d_ind prow, k_ind prow) = f) formula prows ∧
      e_ind row = foldl Z.max 0 (e_ind <$> prows) ∧
      v_ind row = foldl Z.max 0 (v_ind <$> prows) ∧
      c_ind row = foldl Z.max 0 (c_ind <$> prows).
Proof.
  intros Hparts (st & _ & Hspecs & _ & _ & Hcomp)%Generator_unfold.
  apply composite_rows_linked in Hcomp; [|done|apply results_indexed].
  split; [symmetry; by eapply Forall2_length|].
  intros i row form Hrow Hform. rewrite Hspecs.
  exact (Forall2_lookup_lr _ _ _ _ _ _ Hcomp Hform Hrow).
Qed.

End generator_tables.

(** ** The composite loops on an indexed table *)

Lemma for_each_is_Some {A S : Type} (xs : list A) (body : S → A → option S) (s : S) :
  (∀ s x, x ∈ xs → is_Some (body s x)) → is_Some (for_each xs body s).
Proof.
  intros Hbody.
  destruct (for_each_Some_inv (λ _, True) xs body s) as (s' & -> & _); [done| |done].
  intros s1 x _ Hx. destruct (Hbody s1 x Hx) as [s2 ->]. by exists s2.
Qed.

Lemma Forall2_join {A B C : Type} (R1 : A → C → Prop) (R2 : B → C → Prop)
    (a : list A) (b : list B) (c : list C) :
  Forall2 R1 a c → Forall2 R2 b c → Forall2 (λ x y, ∃ z, R1 x z ∧ R2 y z) a b.
Proof.
  intros H1. revert b. induction H1 as [|x z a c Hxz H1 IH]; intros b H2;
    inversion H2; simplify_eq; constructor; eauto.
Qed.

Lemma Forall2_zip {A B : Type} (R : A → B → Prop) (a : list A) (b : list B) :
  Forall2 R a b → Forall (λ xy, R xy.1 xy.2) (zip a b).
Proof. induction 1; simpl; constructor; done. Qed.

Section composite_total.
  Variable int_partition_unordered : Z → list (list Z).
  Variable specs : list Spec.
  Variable dmaxs : dmaxs_arg.
  Variable self : CompositeState.
  Hypothesis Hparts : ∀ n part, part ∈ int_partition_unordered n →
                                sum part = n ∧ Forall (λ x, 1 ≤ x) part.
  Hypothesis Hindexed : indexed_table specs.
  Hypothesis Hinit : composite_init specs dmaxs = Some self.
  Hypothesis Hkeys : ∀ n, is_Some (comp_dmaxs self !! n) → 1 ≤ n.

Lemma n_parts_of_total (n : Z) :
  1 ≤ n → is_Some (n_parts_of int_partition_unordered self n).
Proof.
  intros Hn. unfold n_parts_of, filter_good.
  destruct (for_each_is_Some (int_partition_unordered n)
              (λ acc x, ok ← good_part self x;
                        Some (if ok : bool then acc ++ [x] else acc)) [])
    as [good ->]; [|by eexists].
  intros acc x Hx. unfold good_part. case_bool_decide; [by eexists|].
  destruct x as [|y x]; [|by eexists].
  destruct (Hparts n [] Hx) as [Hsum _]. unfold sum in Hsum. simpl in Hsum. lia.
Qed.

(** Below the count kept in [ks], every [(n, d, k)] is a key of [ndk2w]
    and leads to a row of the table. *)
Lemma factor_available (nn dd kk c : Z) :
  comp_ks self !! (nn, dd) = Some c → 0 ≤ kk < c →
  ∃ prow, factor_row self (nn, dd, kk) prow.
Proof.
  destruct (composite_init_fields _ _ _ Hinit) as (Hspecs & Hks & Hn2w & _).
  destruct (count_spec_fold specs) as (Hcount & Hkeys' & Hall).
  rewrite Hks, Hcount. destruct (decide (0 < _)); [|done]. intros [= <-] Hk.
  destruct (indexed_table_kth specs nn dd kk Hk) as (i & row & Hi & [Hn Hd] & Hcnt).
  destruct (Hindexed i row Hi) as [Hki _].
  assert (key_of row = (nn, dd, kk)) as Hkey.
  { unfold key_of. rewrite Hki, Hn, Hd, Hcnt. done. }
  destruct (Hall row (list_elem_of_lookup_2 _ _ _ Hi)) as [ind Hind].
  rewrite Hkey in Hind.
  destruct (Hkeys' _ _ Hind) as (row' & Hin' & _ & Hw').
  apply list_elem_of_lookup in Hin' as [j Hj].
  destruct (Hindexed j row' Hj) as [_ Hwj].
  exists row', ind. rewrite Hn2w, Hspecs. split; [done|].
  unfold py_index. rewrite bool_decide_eq_true_2 by lia.
  by replace (Z.to_nat ind) with j by lia.
Qed.

Lemma add_factors_total (fs formula0 : list (Z * Z * Z)) (c0 e0 v0 : Z) :
  Forall (λ f, ∃ prow, factor_row self f prow) fs →
  is_Some (for_each fs (add_factor self) (formula0, c0, e0, v0)).
Proof.
  intros Hall. revert formula0 c0 e0 v0.
  induction Hall as [|f fs (prow & ind & Hind & Hrow) _ IH];
    intros formula0 c0 e0 v0; simpl; [by eexists|].
  rewrite Hind. simpl. rewrite Hrow. simpl. apply IH.
Qed.

Lemma add_formula_total (n d : Z) (spec : list (Z * Z))
    (acc : list (list (Z * Z * Z)) * list Spec * Z) (kspec : list Z) :
  Forall2 (λ pair k, ∃ c, comp_ks self !! pair = Some c ∧ 0 ≤ k < c) spec kspec →
  is_Some (add_formula self n d spec acc kspec).
Proof.
  intros Hall. unfold add_formula. destruct acc as [[forms rows] kcount].
  destruct (add_factors_total (zip spec kspec) [] 0 0 0)
    as [[[[formula cm] em] vm] ->]; [|by eexists].
  apply Forall2_zip in Hall. eapply Forall_impl; [exact Hall|].
  intros [[nn dd] kk] (c & Hc & Hk). simpl in *. by eapply factor_available.
Qed.

Lemma add_spec_total (n d : Z) (acc : list (list (Z * Z * Z)) * list Spec)
    (spec : list (Z * Z)) :
  Forall (λ pair, is_Some (comp_ks self !! pair)) spec →
  is_Some (add_spec self n d acc spec).
Proof.
  intros Hks. unfold add_spec.
  destruct (mapM (λ factor, comp_ks self !! factor) spec) as [counts|] eqn:Hcounts.
  2:{ exfalso. apply (mapM_is_Some_2 (λ factor, comp_ks self !! factor)) in Hks.
      rewrite Hcounts in Hks. by destruct Hks. }
  simpl. apply mapM_Some in Hcounts.
  destruct (for_each_is_Some (product ((λ c, range 0 c) <$> counts))
              (add_formula self n d spec) (acc.1, acc.2, default 0 (comp_ks self !! (n, d))))
    as [[[forms rows] kcount] ->]; [|by eexists].
  intros a kspec Hk. apply add_formula_total.
  apply elem_of_product in Hk. rewrite Forall2_fmap_r in Hk.
  eapply Forall2_impl; [exact (Forall2_join _ _ _ _ _ Hcounts Hk)|].
  intros pair k (c & Hc & Hin%elem_of_range). exists c. split; [done | lia].
Qed.

Lemma add_n_total (acc : list (list (Z * Z * Z)) * list Spec) (n : Z) :
  n ∈ comp_ns self → is_Some (add_n int_partition_unordered self acc n).
Proof.
  intros Hn. destruct (composite_init_fields _ _ _ Hinit) as (_ & _ & _ & _ & Hns & _).
  apply Hns in Hn as Hdm. unfold add_n.
  destruct (n_parts_of_total n (Hkeys n Hdm)) as [n_parts ->]. simpl.
  destruct Hdm as [dmax_n ->]. simpl.
  apply for_each_is_Some. intros a d _.
  apply for_each_is_Some. intros a' n_part _.
  unfold add_n_part. case_bool_decide; [by eexists|].
  apply for_each_is_Some. intros a'' spec Hspec.
  apply add_spec_total. by apply collect_specs_elem in Hspec as [? _].
Qed.

Lemma composite_loops_total :
  is_Some (for_each (comp_ns self) (add_n int_partition_unordered self) ([], [])).
Proof. apply for_each_is_Some. intros acc n Hn. by apply add_n_total. Qed.

End composite_total.

Lemma composite_init_is_Some (specs : list Spec) (dmaxs : dmaxs_arg) :
  specs ≠ [] → is_Some (composite_init specs dmaxs).
Proof.
  intros Hne. unfold composite_init.
  destruct (py_max_is_Some (n_ind <$> specs)) as [navail Hn]; [by destruct specs|].
  destruct (py_max_is_Some (d_ind <$> specs)) as [dmax Hd]; [by destruct specs|].
  rewrite Hn, Hd. destruct (foldl count_spec (∅, ∅) specs) as [ks n2w].
  destruct dmaxs; simpl; by eexists.
Qed.

(** X17: on the table [results()] returns, whatever the containers hold,
    [CompositeGenerator.__init__] succeeds as soon as the table has a
    row, and the loops of [generate_disconnected] then run to their
    end: every lookup in [ks], [ndk2w], [dmaxs] and the prime table
    hits, because [k] numbers the rows of each [(n, d)] from 0 without
    gaps and [w] is the row's position.  This holds provided
    [int_partition_unordered(n)] yields lists of positive integers
    summing to [n], and a [dmaxs] dictionary has positive keys only. *)
Theorem composite_loops_run_on_prime_table {EinStr EinPath : Type}
    (int_partition_unordered : Z → list (list Z))
    (st : gmap (Z * Z) (Bucket EinStr EinPath)) (dmaxs : dmaxs_arg) :
  (∀ n part, part ∈ int_partition_unordered n →
             sum part = n ∧ Forall (λ x, 1 ≤ x) part) →
  acc_c_specs (results st) ≠ [] →
  match dmaxs with
  | DmaxsDict m => ∀ n, is_Some (m !! n) → 1 ≤ n
  | _ => True
  end →
  ∃ self tables,
    composite_init (acc_c_specs (results st)) dmaxs = Some self ∧
    for_each (comp_ns self) (add_n int_partition_unordered self) ([], [])
    = Some tables.
Proof.
  intros Hparts Hne Hdict.
  destruct (composite_init_is_Some _ dmaxs Hne) as [self Hinit].
  destruct (composite_loops_total int_partition_unordered
              (acc_c_specs (results st)) dmaxs self Hparts (results_indexed st) Hinit)
    as [tables Htables].
  - destruct (composite_init_fields _ _ _ Hinit) as (_ & _ & _ & _ & _ & Hdm).
    destruct dmaxs as [m| |d].
    + rewrite Hdm. exact Hdict.
    + intros n Hn. specialize (Hdm n Hn). lia.
    + intros n Hn. specialize (Hdm n Hn). lia.
  - by exists self, tables.
Qed.

(** * Further properties of the weighting search *)

Section weights_out.
  Context {EinStr EinPath : Type}.
  Variable isomorphic_vf2 : Graph → list Z → list Z → bool.
  Variable int_partition_ordered : Z → Z → list (list Z).
  Variables dmax nmax emax vmax : Z.

  Abbreviation Containers := (gmap (Z * Z) (Bucket EinStr EinPath)).
  Abbreviation weightings_of n e graph :=
    (graph_weightings isomorphic_vf2 int_partition_ordered dmax vmax n e graph).

(** The list stored for a graph is what the search returned for it. *)
Definition searched (n e : Z) (graph : Graph) (weightings : list (list Z)) : Prop :=
  weightings_of n e graph = Some weightings.

Lemma weigh_bucket_out (n e : Z) (st st' : Containers) (b0 : Bucket EinStr EinPath) :
  st !! (n, e) = Some b0 → weights_d b0 = [] →
  weigh_bucket isomorphic_vf2 int_partition_ordered dmax vmax n st e = Some st' →
  same_graphs st' st ∧
  (∀ ne, ne ≠ (n, e) → st' !! ne = st !! ne) ∧
  ∃ b, st' !! (n, e) = Some b ∧
       Forall2 (searched n e) (simple_graphs_d b) (weights_d b).
Proof.
  intros Hb0 Hw0. unfold weigh_bucket. rewrite Hb0. simpl. intros Hrun.
  apply (for_each_inv_prefix
           (λ pre s, same_graphs s st ∧ (∀ ne, ne ≠ (n, e) → s !! ne = st !! ne) ∧
                     ∃ b, s !! (n, e) = Some b ∧
                          Forall2 (searched n e) pre (weights_d b))) in Hrun.
  - destruct Hrun as (Hsame & Hframe & b & Hb & Hall).
    repeat split; [done..|]. exists b. split; [done|].
    specialize (Hsame (n, e)). rewrite Hb, Hb0 in Hsame.
    injection Hsame as Hsg _. by rewrite Hsg.
  - repeat split; [done..|]. exists b0. rewrite Hw0. split; [done | constructor].
  - intros pre graph s s' (Hsame & Hframe & b & Hb & Hall) _.
    destruct (graph_weightings _ _ _ _ _ _ _) as [weightings|] eqn:Hgw; simpl; [|done].
    intros Happ. split; [by eapply same_graphs_append|].
    apply append_weightings_eq in Happ as (b' & Hb' & ->).
    rewrite Hb in Hb'. injection Hb' as <-. split.
    + intros ne Hne. rewrite lookup_insert_ne by done. by apply Hframe.
    + eexists. rewrite lookup_insert_eq. split; [done|]. simpl.
      apply Forall2_app; [done|]. constructor; [|constructor]. done.
Qed.

Lemma weighted_keys_keys (n e : Z) :
  (n, e) ∈ weighted_keys nmax emax ↔ (n, e) ∈ keys nmax emax ∧ (n, e) ≠ (2, 1).
Proof.
  unfold weighted_keys. rewrite elem_of_keys, list_elem_of_bind. split.
  - intros (n' & (e' & [= <- <-] & He)%list_elem_of_fmap & Hn).
    apply drop_ns in Hn as (Hn3 & Hn & _). split; [done|]. intros [= ? ?]. lia.
  - intros [[Hn He] Hne]. exists n. split.
    + apply list_elem_of_fmap. by exists e.
    + unfold ns in *. apply elem_of_drop_range. apply elem_of_range in Hn.
      destruct (decide (n = 2)) as [->|]; [|lia].
      unfold esbyn, emaxs in He. apply elem_of_range in He.
      assert (e = 1) as -> by (change (2 * (2 - 1) / 2) with 1 in He; lia). done.
Qed.

(** After [generate_weights], in every bucket other than [(2, 1)] each
    graph has its list of weightings, the one the search returns. *)
Lemma generate_weights_out (st0 st : Containers) :
  (∀ ne b, st0 !! ne = Some b → weights_d b = []) →
  keyed nmax emax st →
  generate_weights isomorphic_vf2 int_partition_ordered dmax nmax emax vmax st0
  = Some st →
  ∀ n e b, (n, e) ≠ (2, 1) → st !! (n, e) = Some b →
           Forall2 (searched n e) (simple_graphs_d b) (weights_d b).
Proof.
  intros Hnw Hkeyed. unfold generate_weights.
  destruct (append_weightings _ _ _) as [st1|] eqn:Hfirst; simpl; [|done].
  apply append_weightings_eq in Hfirst as (b21 & Hb21 & ->).
  set (st1 := <[(2, 1) := _]> st0) in *.
  rewrite (for_each_nested (drop 1 (ns nmax)) (esbyn emax)
             (λ n (st : Containers) e,
                weigh_bucket isomorphic_vf2 int_partition_ordered dmax vmax n st e)).
  fold (weighted_keys nmax emax). intros Hrun.
  apply (for_each_inv_prefix
           (λ pre s, (∀ ne, ne ∉ pre → s !! ne = st1 !! ne) ∧
                     ∀ n e b, (n, e) ∈ pre → s !! (n, e) = Some b →
                              Forall2 (searched n e) (simple_graphs_d b)
                                      (weights_d b))) in Hrun.
  - destruct Hrun as (Hframe & Hdone).
    intros n e b Hne Hb. apply Hdone; [|done].
    apply weighted_keys_keys. split; [|done]. apply Hkeyed. by exists b.
  - split; [done|]. by intros n e b ?%elem_of_nil.
  - intros pre [n e] s s' (Hframe & Hdone) Hpre Hbody. simpl in Hbody.
    assert (((n, e) ∉ pre) ∧ (n, e) ≠ (2, 1)) as [Hfresh Hne].
    { destruct Hpre as [rest Hsplit].
      pose proof (weighted_keys_NoDup nmax emax) as Hnd.
      pose proof (weighted_keys_not_single nmax emax) as H21.
      rewrite Hsplit in Hnd, H21.
      rewrite <-app_assoc in Hnd. apply NoDup_app in Hnd as (_ & Hnd & _).
      split.
      - intros Hin. apply (Hnd _ Hin). by left.
      - intros Heq. apply H21. rewrite Heq.
        rewrite !elem_of_app, list_elem_of_singleton. auto. }
    destruct (s !! (n, e)) as [b0|] eqn:Hb0;
      [|by unfold weigh_bucket in Hbody; rewrite Hb0 in Hbody].
    assert (weights_d b0 = []) as Hw0.
    { rewrite Hframe in Hb0 by done. unfold st1 in Hb0.
      rewrite lookup_insert_ne in Hb0 by done. by eapply Hnw. }
    destruct (weigh_bucket_out _ _ _ _ _ Hb0 Hw0 Hbody) as (_ & Hframe' & b & Hb & Hall).
    split.
    + intros ne [Hne1 Hne2]%not_elem_of_app.
      rewrite list_elem_of_singleton in Hne2.
      rewrite Hframe' by done. by apply Hframe.
    + intros n' e' b' [Hin|Heq%list_elem_of_singleton]%elem_of_app Hb'.
      * rewrite Hframe' in Hb' by (intros Heq; apply Hfresh; by rewrite <-Heq).
        by eapply Hdone.
      * by simplify_eq.
Qed.

(** Every weighting the search keeps passed the valency test. *)
Lemma graph_weightings_valency (n e : Z) (graph : Graph) (weightings : list (list Z)) :
  weightings_of n e graph = Some weightings →
  Forall (λ w, w ∈ candidates int_partition_ordered dmax n e ∧
               valency_exceeded dmax vmax graph w = Some false) weightings.
Proof.
  unfold graph_weightings.
  apply (for_each_inv_prefix
           (λ pre ws, Forall (λ w, w ∈ candidates int_partition_ordered dmax n e ∧
                                   valency_exceeded dmax vmax graph w = Some false) ws)).
  - constructor.
  - intros pre part ws ws' Hws [rest Hpre]. unfold try_weighting.
    destruct (valency_exceeded dmax vmax graph part) as [[]|] eqn:Hval; simpl; [| |done].
    + by intros [= <-].
    + destruct (existsb _ _); intros [= <-]; [done|].
      apply Forall_app. split; [done|]. constructor; [|done]. split; [|done].
      rewrite Hpre. rewrite !elem_of_app, list_elem_of_singleton. auto.
Qed.

End weights_out.

Lemma strength_at_bounds (g : Graph) (ws : list Z) (v : Z) :
  Forall (λ ab : Z * Z, ab.1 < ab.2) (get_edgelist g) → Forall (λ w, 0 ≤ w) ws →
  0 ≤ strength_at g ws v ≤ sum ws.
Proof.
  unfold strength_at. generalize (get_edgelist g). clear g.
  intros edges Hedges. revert ws.
  induction Hedges as [|[a b] edges Hab _ IH]; intros ws Hws.
  - simpl. clear -Hws. induction Hws; unfold sum in *; simpl; lia.
  - destruct Hws as [|w ws Hw Hws]; [unfold sum; simpl; lia|].
    specialize (IH ws Hws). unfold sum in *.
    change (zip ((a, b) :: edges) (w :: ws)) with ((a, b, w) :: zip edges ws).
    rewrite fmap_cons. cbn [foldr]. simpl in Hab.
    repeat case_bool_decide; simplify_eq; lia.
Qed.

Lemma py_max_ge (xs : list Z) (m : Z) : py_max xs = Some m → Forall (λ x, x ≤ m) xs.
Proof.
  destruct xs as [|x xs]; simpl; [done|]. intros [= <-].
  destruct (foldl_max_ge x xs) as [Hx Hxs].
  constructor; [done|]. by apply Forall_forall.
Qed.

Section weighted_valency.
  Context {EinStr EinPath : Type}.
  Variable ve_chi : list (Z * Z) → Z → Z.
  Variable ve_einspecs : list (Z * Z) → Z → EinStr * EinPath.
  Variable isomorphic : Graph → Graph → bool.
  Variable isomorphic_vf2 : Graph → list Z → list Z → bool.
  Variable int_partition_ordered : Z → Z → list (list Z).
  Variable dmax : Z.
  Variables nmax emax cmax vmax : option Z.

  Abbreviation Containers := (gmap (Z * Z) (Bucket EinStr EinPath)).
  Abbreviation run :=
    (PrimeGenerator ve_chi ve_einspecs isomorphic isomorphic_vf2
                    int_partition_ordered dmax nmax emax cmax vmax).

Lemma PrimeGenerator_searched (st : Containers) (n e : Z) (b : Bucket EinStr EinPath) :
  run = Some st → (n, e) ≠ (2, 1) → st !! (n, e) = Some b →
  Forall2 (searched isomorphic_vf2 int_partition_ordered dmax (vmax_of dmax vmax) n e)
          (simple_graphs_d b) (weights_d b).
Proof.
  intros Hrun Hne Hb.
  destruct (PrimeGenerator_run_inv _ _ _ _ _ _ _ _ _ _ _ Hrun) as (_ & _ & Hky).
  destruct (PrimeGenerator_unfold _ _ _ _ _ _ _ _ _ _ _ Hrun) as (st0 & Hs & Hweights).
  apply generate_simple_ok in Hs as [_ Hnw].
  by eapply generate_weights_out.
Qed.

(** X18: [vmax] bounds the valency of every multigraph on three or more
    vertices: for a graph stored under [(n, e)] other than the single
    edge, and any weighting stored for it, no entry of
    [graph.strength(weights=weighting)] exceeds [vmax]; every graph has
    its list of weightings.  This holds provided each tuple of
    [int_partition_ordered(d, e)] has non-negative entries summing to
    [d]. *)
Theorem weighted_valency_within_vmax (st : Containers) (n e : Z)
    (b : Bucket EinStr EinPath) :
  (∀ d e part, part ∈ int_partition_ordered d e →
               sum part = d ∧ Forall (λ x, 0 ≤ x) part) →
  run = Some st → st !! (n, e) = Some b → (n, e) ≠ (2, 1) →
  length (weights_d b) = length (simple_graphs_d b) ∧
  ∀ (i : nat) graph wghts weighting,
    simple_graphs_d b !! i = Some graph → weights_d b !! i = Some wghts →
    weighting ∈ wghts →
    Forall (λ s, s ≤ vmax_of dmax vmax) (strength graph weighting).
Proof.
  intros Hparts Hrun Hb Hne.
  pose proof (PrimeGenerator_searched st n e b Hrun Hne Hb) as Hall.
  split; [symmetry; by eapply Forall2_length|].
  intros i graph wghts weighting Hg Hw Hin.
  pose proof (Forall2_lookup_lr _ _ _ _ _ _ Hall Hg Hw) as Hsearched.
  apply graph_weightings_valency in Hsearched. rewrite Forall_forall in Hsearched.
  destruct (Hsearched _ Hin) as [Hcand Hval].
  unfold valency_exceeded in Hval. case_bool_decide as Htight.
  - destruct (py_max (strength graph weighting)) as [m|] eqn:Hmax; simpl in Hval; [|done].
    injection Hval as Hval. apply bool_decide_eq_false in Hval.
    eapply Forall_impl; [by apply py_max_ge|]. simpl. lia.
  - unfold candidates in Hcand.
    apply list_elem_of_bind in Hcand as (d & Hpart & Hd%elem_of_range).
    destruct (Hparts _ _ _ Hpart) as [Hsum Hpos]. unfold dmaxs in Hd.
    destruct (PrimeGenerator_run_inv _ _ _ _ _ _ _ _ _ _ _ Hrun) as (_ & Hsh & _).
    specialize (Hsh n e b Hb). rewrite Forall_forall in Hsh.
    destruct (Hsh graph (list_elem_of_lookup_2 _ _ _ Hg)) as (_ & _ & Hedges & _).
    unfold strength. apply Forall_fmap, Forall_forall. intros v _. simpl.
    destruct (strength_at_bounds graph weighting v) as [_ Hle]; [|done|lia].
    eapply Forall_impl; [exact Hedges|]. simpl. lia.
Qed.

(** X19: the single edge is weighted without a valency test: when it is
    accepted and [1 <= vmax < dmax], the table has a row with [n = 2]
    and [d = dmax], the weighting [(dmax,)] is stored for it, and both
    vertices then have valency [dmax], above [vmax]. *)
Theorem single_edge_ignores_vmax (st : Containers) :
  run = Some st →
  ve_chi [(0, 1)] 2 ≤ cmax_of dmax nmax cmax →
  1 ≤ vmax_of dmax vmax → vmax_of dmax vmax < dmax →
  (∃ row, row ∈ acc_c_specs (results st) ∧
          n_ind row = 2 ∧ e_ind row = 1 ∧ d_ind row = dmax ∧ v_ind row = 1) ∧
  (∃ b, st !! (2, 1) = Some b ∧ weights_d b = [single_edge_weightings dmax] ∧
        [dmax] ∈ single_edge_weightings dmax) ∧
  Forall (λ s, vmax_of dmax vmax < s) (strength (Full 2) [dmax]).
Proof.
  intros Hrun Hchi Hv Hlt.
  destruct (prime_table_has_single_edge _ _ _ _ _ _ _ _ _ _ st dmax Hrun Hchi Hv)
    as (row & Hrow & Hn & He & Hd & Hvr & _); [lia|].
  split; [by exists row|].
  destruct (PrimeGenerator_phases _ _ _ _ _ _ _ _ _ _ _ Hrun)
    as (_ & _ & _ & (b & Hb & Hw) & _).
  split.
  - exists b. split; [done|]. split; [done|].
    apply elem_of_single_edge_weightings. exists dmax. split; [done|lia].
  - unfold strength, strength_at, sum. simpl.
    repeat constructor; lia.
Qed.

End weighted_valency.

(** * Further properties of the full table *)

Lemma ks_counts (specs : list Spec) (dmaxs : dmaxs_arg) (self : CompositeState)
    (n d : Z) :
  composite_init specs dmaxs = Some self →
  default 0 (comp_ks self !! (n, d)) = count_nd n d specs.
Proof.
  intros (_ & Hks & _)%composite_init_fields.
  destruct (count_spec_fold specs) as (Hcount & _).
  rewrite Hks, Hcount. pose proof (count_nd_nonneg n d specs).
  destruct (decide (0 < _)); simpl; lia.
Qed.

Lemma composite_k_above_primes (int_partition_unordered : Z → list (list Z))
    (specs : list Spec) (dmaxs : dmaxs_arg) (rows : list Spec)
    (forms : list (list (Z * Z * Z))) :
  CompositeGenerator int_partition_unordered specs dmaxs = Some (rows, forms) →
  Forall (λ row, count_nd (n_ind row) (d_ind row) specs ≤ k_ind row) rows.
Proof.
  unfold CompositeGenerator.
  destruct (composite_init specs dmaxs) as [self|] eqn:Hinit; simpl; [|done].
  intros Hrun.
  apply (generate_disconnected_linked _ _ (λ _ _ _, True)) in Hrun; [|done].
  apply Forall_forall. intros row Hrow.
  apply list_elem_of_lookup in Hrow as [i Hi].
  destruct (Forall2_lookup_r _ _ _ _ _ Hrun Hi)
    as (form & _ & formula & prows & _ & _ & _ & _ & _ & _ & _ & _ & Hk & _).
  by rewrite (ks_counts _ _ _ _ _ Hinit) in Hk.
Qed.

Section generator_specs.
  Context {EinStr EinPath : Type}.
  Variable ve_chi : list (Z * Z) → Z → Z.
  Variable ve_einspecs : list (Z * Z) → Z → EinStr * EinPath.
  Variable isomorphic : Graph → Graph → bool.
  Variable isomorphic_vf2 : Graph → list Z → list Z → bool.
  Variable int_partition_ordered : Z → Z → list (list Z).
  Variable int_partition_unordered : Z → list (list Z).
  Variable dmax : Z.
  Variables nmax emax cmax vmax : option Z.
  Variable comp_dmaxs : dmaxs_arg.

  Abbreviation the_generator :=
    (Generator ve_chi ve_einspecs isomorphic isomorphic_vf2 int_partition_ordered
               int_partition_unordered dmax nmax emax cmax vmax comp_dmaxs).

(** X20: a composite row never takes the [(n, d, k)] of a prime row: its
    [k] starts at the number of prime rows with its [(n, d)], and the
    primes' [k] lie below that number. *)
Theorem composite_rows_never_reuse_a_prime_key (gen : GeneratorState EinStr EinPath) :
  the_generator = Some gen →
  ∀ prow row, prow ∈ gen_c_specs gen → row ∈ disc_specs gen →
    (n_ind prow, d_ind prow, k_ind prow) ≠ (n_ind row, d_ind row, k_ind row).
Proof.
  intros (st & _ & Hspecs & _ & _ & Hcomp)%Generator_unfold prow row Hprow Hrow [= Hn Hd Hk].
  apply composite_k_above_primes in Hcomp. rewrite Forall_forall in Hcomp.
  specialize (Hcomp row Hrow). rewrite Hspecs in Hprow.
  apply list_elem_of_lookup in Hprow as [i Hi].
  destruct (results_indexed st i prow Hi) as [Hki _].
  pose proof (count_nd_take_lt (n_ind prow) (d_ind prow) (acc_c_specs (results st))
                i (length (acc_c_specs (results st))) prow) as Hlt.
  rewrite firstn_all in Hlt.
  apply lookup_lt_Some in Hi as Hlen.
  specialize (Hlt Hlen Hi (conj eq_refl eq_refl)).
  rewrite <-Hn, <-Hd in Hcomp. lia.
Qed.

(** X21: [Generator.specs] lists the prime rows first and the composite
    rows after them; a row at position [i] is a prime row exactly when
    [p = 1], in which case [w = i], and otherwise [p >= 2] and
    [g = w = -1].  This holds provided [int_partition_unordered(n)]
    yields lists of positive integers summing to [n]. *)
Theorem specs_primes_then_composites (gen : GeneratorState EinStr EinPath) :
  (∀ n part, part ∈ int_partition_unordered n →
             sum part = n ∧ Forall (λ x, 1 ≤ x) part) →
  the_generator = Some gen →
  specs gen = gen_c_specs gen ++ disc_specs gen ∧
  ∀ (i : nat) row, specs gen !! i = Some row →
    if decide (i < length (gen_c_specs gen))%nat
    then p_ind row = 1 ∧ w_ind row = Z.of_nat i ∧ 0 ≤ g_ind row
    else 2 ≤ p_ind row ∧ w_ind row = -1 ∧ g_ind row = -1.
Proof.
  intros Hparts Hgen.
  assert (specs gen = gen_c_specs gen ++ disc_specs gen) as Hspecs.
  { unfold specs. case_bool_decide as Hlen; [done|].
    destruct (disc_specs gen); [by rewrite app_nil_r | simpl in Hlen; lia]. }
  split; [done|]. rewrite Hspecs.
  destruct (Generator_unfold _ _ _ _ _ _ _ _ _ _ _ _ _ Hgen)
    as (st & _ & Hc & _ & _ & Hcomp).
  intros i row Hi. destruct (decide (i < length (gen_c_specs gen))%nat) as [Hlt|Hge].
  - rewrite lookup_app_l in Hi by done. rewrite Hc in Hi.
    destruct (results_counters st) as (_ & Hrows & _).
    destruct (Hrows i row Hi) as (_ & Hw & Hp & _).
    destruct (results_graph_cols (λ _ _ _ _, True) st) as (_ & _ & _ & Hg); [done|].
    rewrite Forall_forall in Hg.
    destruct (Hg row (list_elem_of_lookup_2 _ _ _ Hi)) as [H0 _]. done.
  - rewrite lookup_app_r in Hi by lia.
    apply composite_rows_linked in Hcomp; [|done|apply results_indexed].
    destruct (Forall2_lookup_r _ _ _ _ _ Hcomp Hi)
      as (form & _ & Hg & Hw & _ & Hp & _).
    done.
Qed.

End generator_specs.

(** ** The order of the prime rows *)

(** Two rows compared by [(n, e)], as [sorted] compares the keys. *)
Definition row_key_leb (r1 r2 : Spec) : bool :=
  pair_leb (n_ind r1, e_ind r1) (n_ind r2, e_ind r2).

Lemma pair_leb_refl (a : Z * Z) : pair_leb a a = true.
Proof.
  unfold pair_leb. rewrite orb_true_iff, andb_true_iff, Z.ltb_lt, Z.eqb_eq, Z.leb_le. lia.
Qed.

Lemma pair_leb_total (x y : Z * Z) : pair_leb x y = false → pair_leb y x = true.
Proof.
  unfold pair_leb.
  rewrite !orb_false_iff, !andb_false_iff, !orb_true_iff, !andb_true_iff.
  rewrite !Z.ltb_lt, !Z.ltb_ge, !Z.eqb_eq, !Z.eqb_neq, !Z.leb_le, !Z.leb_gt. lia.
Qed.

Lemma pair_leb_trans (x y z : Z * Z) :
  pair_leb x y = true → pair_leb y z = true → pair_leb x z = true.
Proof.
  unfold pair_leb. rewrite !orb_true_iff, !andb_true_iff.
  rewrite !Z.ltb_lt, !Z.eqb_eq, !Z.leb_le. lia.
Qed.

Lemma ascending_app {A : Type} (leb : A → A → bool) (l k : list A) :
  ascending leb l → ascending leb k →
  (∀ x y, x ∈ l → y ∈ k → leb x y = true) →
  ascending leb (l ++ k).
Proof.
  induction l as [|x l IH]; simpl; [done|]. intros [Hx Hl] Hk Hlk. split.
  - apply Forall_app. split; [done|]. apply Forall_forall. intros y Hy.
    apply Hlk; [by left | done].
  - apply IH; [done..|]. intros x' y Hx' Hy. apply Hlk; [by right | done].
Qed.

Lemma ascending_same {A : Type} (leb : A → A → bool) (l : list A) :
  (∀ x y, x ∈ l → y ∈ l → leb x y = true) → ascending leb l.
Proof.
  induction l as [|x l IH]; simpl; [done|]. intros Hall. split.
  - apply Forall_forall. intros y Hy. apply Hall; [by left | by right].
  - apply IH. intros x' y Hx' Hy. apply Hall; by right.
Qed.

Section results_order.
  Context {EinStr EinPath : Type}.

  Abbreviation Acc := (@ResultsAcc EinStr EinPath).

(** The loops over one bucket only append rows, all with its [(n, e)]. *)
Lemma results_bucket_rows (a : Acc) (n e : Z) (b : Bucket EinStr EinPath) :
  ∃ new, acc_c_specs (results_bucket a (n, e, b)) = acc_c_specs a ++ new ∧
         Forall (λ row, n_ind row = n ∧ e_ind row = e) new.
Proof.
  simpl.
  apply (foldl_inv (λ a', ∃ new, acc_c_specs a' = acc_c_specs a ++ new ∧
                                 Forall (λ row, n_ind row = n ∧ e_ind row = e) new)).
  - exists []. by rewrite app_nil_r.
  - intros a' [[[[[edgs wghts] chi] v] es] ep] (new & Hrows & Hnew) _. simpl.
    destruct (results_weightings_rows n e v chi a' wghts)
      as (_ & _ & _ & _ & new' & -> & Hnew').
    exists (new ++ new'). rewrite Hrows. split; [by rewrite app_assoc|].
    apply Forall_app. split; [done|].
    eapply Forall_impl; [exact Hnew'|]. by intros row (? & ? & ? & _ & ->).
Qed.

Lemma results_buckets_ordered (items : list (Z * Z * Bucket EinStr EinPath)) (a : Acc) :
  ascending (λ x y : Z * Z * Bucket EinStr EinPath, pair_leb x.1 y.1) items →
  ascending row_key_leb (acc_c_specs a) →
  (∀ row item, row ∈ acc_c_specs a → item ∈ items →
               pair_leb (n_ind row, e_ind row) item.1 = true) →
  ascending row_key_leb (acc_c_specs (foldl results_bucket a items)).
Proof.
  revert a. induction items as [|[[n e] b] items IH]; intros a; simpl; [done|].
  intros [Hitem Hitems] Hrows Hbelow.
  destruct (results_bucket_rows a n e b) as (new & Hnew & Hkeys).
  rewrite Forall_forall in Hkeys.
  apply IH; [done| |].
  - simpl in Hnew. rewrite Hnew. apply ascending_app; [done| |].
    + apply ascending_same. intros x y [Hxn Hxe]%Hkeys [Hyn Hye]%Hkeys.
      unfold row_key_leb. rewrite Hxn, Hxe, Hyn, Hye. apply pair_leb_refl.
    + intros x y Hx [Hn He]%Hkeys. unfold row_key_leb. rewrite Hn, He.
      apply (Hbelow x (n, e, b)); [done | by left].
  - simpl in Hnew. intros row item. rewrite Hnew.
    intros [Hrow|[Hn He]%Hkeys]%elem_of_app Hin.
    + apply Hbelow; [done | by right].
    + rewrite Hn, He. rewrite Forall_forall in Hitem. exact (Hitem item Hin).
Qed.

(** X22: the prime table is ordered by [(n, e)]: of two rows the earlier
    has the smaller [n], or the same [n] and an [e] that is not larger;
    this is the order of [sorted(self.edges_d.keys())], whatever the
    containers hold. *)
Theorem prime_table_ordered_by_key (st : gmap (Z * Z) (Bucket EinStr EinPath)) :
  ascending row_key_leb (acc_c_specs (results st)) ∧
  ∀ r1 r2, row_key_leb r1 r2 = true ↔
           n_ind r1 < n_ind r2 ∨ (n_ind r1 = n_ind r2 ∧ e_ind r1 ≤ e_ind r2).
Proof.
  split.
  - unfold results. apply results_buckets_ordered; [|done|by intros ? ? ?%elem_of_nil].
    apply sorted_ascending.
    + intros x y. apply pair_leb_total.
    + intros x y z. apply pair_leb_trans.
  - intros r1 r2. unfold row_key_leb, pair_leb. simpl.
    rewrite orb_true_iff, andb_true_iff, Z.ltb_lt, Z.eqb_eq, Z.leb_le. done.
Qed.

End results_order.

(** * Instances of the further properties *)

Lemma compositions_parts (e : nat) (d : Z) (part : list Z) :
  part ∈ compositions e d → sum part = d ∧ Forall (λ x, 0 ≤ x) part.
Proof.
  revert d part. induction e as [|e IH]; intros d part; simpl.
  - case_bool_decide; [|by intros ?%elem_of_nil].
    intros ->%list_elem_of_singleton. done.
  - intros (x & (rest & -> & Hrest)%list_elem_of_fmap & Hx)%list_elem_of_bind.
    apply elem_of_range in Hx. apply IH in Hrest as [Hsum Hpos]. split.
    + unfold sum in *. simpl. lia.
    + constructor; [lia | done].
Qed.

Lemma spec_int_partition_ordered_parts (d e : Z) (part : list Z) :
  part ∈ spec_int_partition_ordered d e → sum part = d ∧ Forall (λ x, 0 ≤ x) part.
Proof.
  unfold spec_int_partition_ordered. case_bool_decide; [|by intros ?%elem_of_nil].
  apply compositions_parts.
Qed.

(** The containers of the reference run with [dmax = 2]. *)
Definition dmax2_containers : gmap (Z * Z) (Bucket unit unit) :=
  default ∅ (reference_PrimeGenerator 2 None None None None).

(** A jet of three particles: the two harder ones, of equal momentum,
    were merged first. *)
Definition example_subjet : PseudoJet :=
  Merged 3 0 0 (Particle (3 # 2) 0 0) (Particle (3 # 2) 1 0).
Definition example_jet : PseudoJet := Merged 4 0 0 example_subjet (Particle 1 2 0).
Definition example_delta_R (a b : PseudoJet) : Q := 1.
Definition example_pow (x y : Q) : Q := x.

(** The reference run with [dmax = 3]. *)
Lemma accepted_graphs_are_simple_witness :
  ∃ st, reference_PrimeGenerator 3 None None None None = Some st ∧
        (∀ n e, is_Some (st !! (n, e)) ↔
                2 ≤ n ≤ 4 ∧ n - 1 ≤ e ≤ Z.min 3 (n * (n - 1) / 2)) ∧
        ∀ n e b, st !! (n, e) = Some b →
          edges_d b = get_edgelist <$> simple_graphs_d b ∧
          ∀ g, g ∈ simple_graphs_d b →
            vcount g = n ∧ Z.of_nat (length (get_edgelist g)) = e ∧
            NoDup (get_edgelist g) ∧
            ∀ a c, (a, c) ∈ get_edgelist g → 0 ≤ a ∧ a < c ∧ c < n.
Proof.
  destruct (reference_PrimeGenerator 3 None None None None) as [st|] eqn:Hrun;
    [|vm_compute in Hrun; discriminate Hrun].
  exists st. split; [reflexivity|].
  exact (accepted_graphs_are_simple _ _ _ _ _ _ _ _ _ _ st Hrun).
Defined.

(** The same run; the compositions sum to [d]. *)
Lemma prime_rows_within_budgets_witness :
  ∃ st, reference_PrimeGenerator 3 None None None None = Some st ∧
        ∀ row, row ∈ acc_c_specs (results st) →
          2 ≤ n_ind row ≤ 4 ∧
          n_ind row - 1 ≤ e_ind row ≤ Z.min 3 (n_ind row * (n_ind row - 1) / 2) ∧
          e_ind row ≤ d_ind row ≤ 3 ∧ v_ind row ≤ 3 ∧ c_ind row ≤ 4.
Proof.
  destruct (reference_PrimeGenerator 3 None None None None) as [st|] eqn:Hrun;
    [|vm_compute in Hrun; discriminate Hrun].
  exists st. split; [reflexivity|].
  exact (prime_rows_within_budgets _ _ _ _ _ _ _ _ _ _ st
           spec_int_partition_ordered_sum Hrun).
Defined.

Lemma prime_rows_graph_column_witness :
  ∃ st, reference_PrimeGenerator 3 None None None None = Some st ∧
        length (acc_einstrs (results st)) = length (acc_edges (results st)) ∧
        length (acc_einpaths (results st)) = length (acc_edges (results st)) ∧
        ∀ row, row ∈ acc_c_specs (results st) →
          0 ≤ g_ind row ∧
          ∃ edgs,
            acc_edges (results st) !! Z.to_nat (g_ind row) = Some edgs ∧
            graph_shape (n_ind row) (e_ind row) (mkGraph (n_ind row) edgs) ∧
            v_ind row = maxdegree (mkGraph (n_ind row) edgs) ∧
            c_ind row = chi_two edgs (n_ind row) ∧
            acc_einstrs (results st) !! Z.to_nat (g_ind row)
            = Some (no_einspecs edgs (n_ind row)).1 ∧
            acc_einpaths (results st) !! Z.to_nat (g_ind row)
            = Some (no_einspecs edgs (n_ind row)).2.
Proof.
  destruct (reference_PrimeGenerator 3 None None None None) as [st|] eqn:Hrun;
    [|vm_compute in Hrun; discriminate Hrun].
  exists st. split; [reflexivity|].
  exact (prime_rows_graph_column _ _ _ _ _ _ _ _ _ _ st Hrun).
Defined.

Lemma prime_table_empty_iff_witness :
  ∃ st, reference_PrimeGenerator 3 None None None None = Some st ∧
        (acc_c_specs (results st) = [] ↔ chi_two [(0, 1)] 2 > 4 ∨ 3 < 1 ∨ 3 < 1) ∧
        (acc_c_specs (results st) ≠ [] →
         ∃ row, row ∈ acc_c_specs (results st) ∧
                n_ind row = 2 ∧ e_ind row = 1 ∧ d_ind row = 1 ∧ v_ind row = 1 ∧
                c_ind row = chi_two [(0, 1)] 2).
Proof.
  destruct (reference_PrimeGenerator 3 None None None None) as [st|] eqn:Hrun;
    [|vm_compute in Hrun; discriminate Hrun].
  exists st. split; [reflexivity|].
  exact (prime_table_empty_iff _ _ _ _ _ _ _ _ _ _ st Hrun).
Defined.

(** [cmax = 1] turns the single edge down, whose complexity is 2. *)
Lemma Generator_raises_without_primes_witness :
  reference_Generator chi_two no_einspecs 2 None None (Some 1) None DmaxsNone = None.
Proof.
  apply (Generator_raises_without_primes chi_two no_einspecs canon_isomorphic
           canon_isomorphic_vf2 spec_int_partition_ordered
           spec_int_partition_unordered 2 None None (Some 1) None DmaxsNone).
  right. right. left. vm_compute. reflexivity.
Defined.

Lemma every_stored_weighting_has_a_row_witness :
  ∃ st, reference_PrimeGenerator 3 None None None None = Some st ∧
        ∀ n e b (i : nat) g wghts weighting,
          st !! (n, e) = Some b →
          simple_graphs_d b !! i = Some g → weights_d b !! i = Some wghts →
          weighting ∈ wghts →
          ∃ row, row ∈ acc_c_specs (results st) ∧
                 n_ind row = n ∧ e_ind row = e ∧ d_ind row = sum weighting ∧
                 v_ind row = maxdegree g ∧ c_ind row = chi_two (get_edgelist g) n.
Proof.
  destruct (reference_PrimeGenerator 3 None None None None) as [st|] eqn:Hrun;
    [|vm_compute in Hrun; discriminate Hrun].
  exists st. split; [reflexivity|].
  exact (λ n e b i g wghts weighting,
           every_stored_weighting_has_a_row _ _ _ _ _ _ _ _ _ _ st n e b i g wghts
             weighting Hrun).
Defined.

(** The reference run with [dmax = 3] and [vmax = 2]; the compositions
    have positive entries. *)
Lemma weighted_valency_within_vmax_witness :
  ∃ st, reference_PrimeGenerator 3 None None None (Some 2) = Some st ∧
        ∀ n e b, st !! (n, e) = Some b → (n, e) ≠ (2, 1) →
          length (weights_d b) = length (simple_graphs_d b) ∧
          ∀ (i : nat) graph wghts weighting,
            simple_graphs_d b !! i = Some graph → weights_d b !! i = Some wghts →
            weighting ∈ wghts →
            Forall (λ s, s ≤ 2) (strength graph weighting).
Proof.
  destruct (reference_PrimeGenerator 3 None None None (Some 2)) as [st|] eqn:Hrun;
    [|vm_compute in Hrun; discriminate Hrun].
  exists st. split; [reflexivity|].
  exact (λ n e b,
           weighted_valency_within_vmax _ _ _ _ _ _ _ _ _ _ st n e b
             spec_int_partition_ordered_parts Hrun).
Defined.

(** The reference run with [dmax = 3] and [vmax = 1]. *)
Lemma single_edge_ignores_vmax_witness :
  ∃ st, reference_PrimeGenerator 3 None None None (Some 1) = Some st ∧
        (∃ row, row ∈ acc_c_specs (results st) ∧
                n_ind row = 2 ∧ e_ind row = 1 ∧ d_ind row = 3 ∧ v_ind row = 1) ∧
        (∃ b, st !! (2, 1) = Some b ∧ weights_d b = [single_edge_weightings 3] ∧
              [3] ∈ single_edge_weightings 3) ∧
        Forall (λ s, 1 < s) (strength (Full 2) [3]).
Proof.
  destruct (reference_PrimeGenerator 3 None None None (Some 1)) as [st|] eqn:Hrun;
    [|vm_compute in Hrun; discriminate Hrun].
  exists st. split; [reflexivity|].
  apply (single_edge_ignores_vmax _ _ _ _ _ _ _ _ _ _ st Hrun).
  - vm_compute. discriminate.
  - vm_compute. discriminate.
  - reflexivity.
Defined.

(** The reference generator with [dmax = 2]; the reference partitions
    are lists of positive parts that sum to [n]. *)
Lemma composite_rows_multiply_primes_witness :
  ∃ gen, reference_Generator chi_two no_einspecs 2 None None None None DmaxsNone
         = Some gen ∧
         length (disc_specs gen) = length (disc_formulae gen) ∧
         ∀ (i : nat) row form,
           disc_specs gen !! i = Some row → disc_formulae gen !! i = Some form →
           g_ind row = -1 ∧ w_ind row = -1 ∧
           p_ind row = Z.of_nat (length form) ∧ 2 ≤ p_ind row ∧
           n_ind row = sum ((λ f, f.1.1) <$> form) ∧
           d_ind row = sum ((λ f, f.1.2) <$> form) ∧
           ∃ formula prows,
             form = sorted triple_leb formula ∧
             Forall2 (λ f prow, prow ∈ gen_c_specs gen ∧
                                (n_ind prow, d_ind prow, k_ind prow) = f)
                     formula prows ∧
             e_ind row = foldl Z.max 0 (e_ind <$> prows) ∧
             v_ind row = foldl Z.max 0 (v_ind <$> prows) ∧
             c_ind row = foldl Z.max 0 (c_ind <$> prows).
Proof.
  destruct (reference_Generator chi_two no_einspecs 2 None None None None DmaxsNone)
    as [gen|] eqn:Hgen; [|vm_compute in Hgen; discriminate Hgen].
  exists gen. split; [reflexivity|].
  exact (composite_rows_multiply_primes _ _ _ _ _ _ _ _ _ _ _ _ gen
           spec_int_partition_unordered_parts Hgen).
Defined.

Lemma composite_rows_never_reuse_a_prime_key_witness :
  ∃ gen, reference_Generator chi_two no_einspecs 2 None None None None DmaxsNone
         = Some gen ∧
         ∀ prow row, prow ∈ gen_c_specs gen → row ∈ disc_specs gen →
           (n_ind prow, d_ind prow, k_ind prow) ≠ (n_ind row, d_ind row, k_ind row).
Proof.
  destruct (reference_Generator chi_two no_einspecs 2 None None None None DmaxsNone)
    as [gen|] eqn:Hgen; [|vm_compute in Hgen; discriminate Hgen].
  exists gen. split; [reflexivity|].
  exact (composite_rows_never_reuse_a_prime_key _ _ _ _ _ _ _ _ _ _ _ _ gen Hgen).
Defined.

Lemma specs_primes_then_composites_witness :
  ∃ gen, reference_Generator chi_two no_einspecs 2 None None None None DmaxsNone
         = Some gen ∧
         specs gen = gen_c_specs gen ++ disc_specs gen ∧
         ∀ (i : nat) row, specs gen !! i = Some row →
           if decide (i < length (gen_c_specs gen))%nat
           then p_ind row = 1 ∧ w_ind row = Z.of_nat i ∧ 0 ≤ g_ind row
           else 2 ≤ p_ind row ∧ w_ind row = -1 ∧ g_ind row = -1.
Proof.
  destruct (reference_Generator chi_two no_einspecs 2 None None None None DmaxsNone)
    as [gen|] eqn:Hgen; [|vm_compute in Hgen; discriminate Hgen].
  exists gen. split; [reflexivity|].
  exact (specs_primes_then_composites _ _ _ _ _ _ _ _ _ _ _ _ gen
           spec_int_partition_unordered_parts Hgen).
Defined.

(** The table of the reference run with [dmax = 2], with the default
    [dmaxs]. *)
Lemma composite_loops_run_on_prime_table_witness :
  ∃ self tables,
    composite_init (acc_c_specs (results dmax2_containers)) DmaxsNone = Some self ∧
    for_each (comp_ns self) (add_n spec_int_partition_unordered self) ([], [])
    = Some tables.
Proof.
  apply (composite_loops_run_on_prime_table spec_int_partition_unordered
           dmax2_containers DmaxsNone spec_int_partition_unordered_parts).
  - vm_compute. discriminate.
  - exact I.
Defined.

(** Grooming the example jet with [zcut = 2/5] drops the soft particle
    and stops at the merger of the two hard ones. *)
Lemma softdrop_idempotent_witness :
  softdrop example_delta_R example_pow example_subjet (2 # 5) 0 1 = Some example_subjet.
Proof.
  apply (softdrop_idempotent example_delta_R example_pow example_jet
           example_subjet (2 # 5) 0 1).
  reflexivity.
Defined.

Lemma softdrop_first_on_hard_branch_witness :
  ∃ before after,
    hard_branch example_jet = before ++ example_subjet :: after ∧
    stops_at example_delta_R example_pow example_subjet (2 # 5) 0 1 ∧
    Forall (λ j, ¬ stops_at example_delta_R example_pow j (2 # 5) 0 1) before.
Proof.
  apply (softdrop_first_on_hard_branch example_delta_R example_pow example_jet
           example_subjet (2 # 5) 0 1).
  reflexivity.
Defined.

Lemma softdrop_beta0_returns_witness :
  ∃ groomed, softdrop example_delta_R example_pow example_jet (2 # 5) 0 1 = Some groomed.
Proof.
  apply (softdrop_beta0_returns example_delta_R example_pow example_jet (2 # 5) 1).
  simpl. repeat split; vm_compute; discriminate.
Defined.

Lemma softdrop_nonpositive_zcut_keeps_jet_witness :
  softdrop example_delta_R example_pow example_jet 0 0 1 = Some example_jet.
Proof.
  apply (softdrop_nonpositive_zcut_keeps_jet example_delta_R example_pow
           example_jet 0 1).
  - vm_compute. discriminate.
  - simpl. repeat split; vm_compute; (discriminate || reflexivity).
Defined.

Lemma softdrop_large_zcut_strips_to_particle_witness :
  ∃ groomed, softdrop example_delta_R example_pow example_jet (3 # 5) 0 1 = Some groomed ∧
             has_parents groomed = None.
Proof.
  apply (softdrop_large_zcut_strips_to_particle example_delta_R example_pow
           example_jet (3 # 5) 1).
  - vm_compute. reflexivity.
  - simpl. repeat split; vm_compute; (discriminate || reflexivity).
Defined.
